(** * TokenFoundry: the token-graph resolution engine of [code.ts]

    A shallow embedding of the plugin-side export pipeline
    ([nameToTokenPath], [rgbaToHex], [buildTokenValueRaw], [getValueForMode],
    [resolveRef], [sortObjectKeys], [buildExportModel]) and the properties
    stated about it.

    Modelling conventions.
    - A JS string is a [string]; a character is one code unit below 256
      (the Latin-1 range), so [toLowerCase], [trim] and the [\s] class are
      the restrictions of the JS ones to that range.
    - A JS number is an exact rational ([Q]).  The code computes in
      binary64: the two agree where the numbers and the product [r * 255]
      are exactly representable, and the rounding of the product is not
      modelled otherwise.
    - A plain object whose key order is observable (the raw and resolved
      token tables, the exported JSON) is the association list of its own
      properties, kept in JS enumeration order ([jsobj]); lookup-only
      tables are [gmap]s and the visited [Set] is a [gset].  The prototype
      of every such object is [Object.prototype].  Where the code reads an
      entry or the table of first claimants under a key that the user of
      the plugin chooses (a mode name, a token path), a read that finds no
      own property finds the member the object inherits under that name,
      if there is one ([Obj.proto_member]); and an assignment under
      ["__proto__"] creates no own property ([Obj.assign]).  The keys that
      Figma generates (the identifiers of variables and modes) name no
      such member.  A token path handed to [resolveRef] that names an
      inherited member without being a key of the bucket reaches a
      built-in object of the host: the model does not follow that read
      (see [plain_paths]).
    - The mutable [visited], [chain] and [errors] of the resolver are passed
      and returned explicitly. *)

From Stdlib Require Import String Ascii List ZArith QArith Qround Lia Lqa Bool.
From Stdlib Require DecimalString HexadecimalString.
From stdpp Require Import base option list gmap strings sorting.

Set Warnings "-register-all,-clear-no-such-hyp".

Local Open Scope string_scope.
Local Open Scope list_scope.

(** ** Characters and strings *)

Module Str.

(** The JS [WhiteSpace] and [LineTerminator] code points below 256:
    TAB, LF, VT, FF, CR, SP and NBSP.  Both [trim] and [\s] use this set. *)
Definition is_ws (c : ascii) : bool :=
  let n := nat_of_ascii c in
  (Nat.leb 9 n && Nat.leb n 13) || Nat.eqb n 32 || Nat.eqb n 160.

(** Upper-case letters below 256: A-Z and U+00C0..U+00DE except U+00D7. *)
Definition is_upper (c : ascii) : bool :=
  let n := nat_of_ascii c in
  (Nat.leb 65 n && Nat.leb n 90)
  || (Nat.leb 192 n && Nat.leb n 222 && negb (Nat.eqb n 215)).

Definition lower_char (c : ascii) : ascii :=
  if is_upper c then ascii_of_nat (nat_of_ascii c + 32) else c.

(** [String.prototype.toLowerCase]. *)
Fixpoint toLowerCase (s : string) : string :=
  match s with
  | EmptyString => EmptyString
  | String c t => String (lower_char c) (toLowerCase t)
  end.

Fixpoint trimStart (s : string) : string :=
  match s with
  | EmptyString => EmptyString
  | String c t => if is_ws c then trimStart t else s
  end.

Fixpoint trimEnd (s : string) : string :=
  match s with
  | EmptyString => EmptyString
  | String c t =>
      match trimEnd t with
      | EmptyString => if is_ws c then EmptyString else String c EmptyString
      | t' => String c t'
      end
  end.

(** [String.prototype.trim]. *)
Definition trim (s : string) : string := trimEnd (trimStart s).

(** [s.replace(/\s+/g, "-")]: every maximal whitespace run becomes one
    hyphen.  [in_run] records that the previous character was whitespace. *)
Fixpoint collapse_ws (in_run : bool) (s : string) : string :=
  match s with
  | EmptyString => EmptyString
  | String c t =>
      if is_ws c
      then (if in_run then collapse_ws true t
            else String "-" (collapse_ws true t))
      else String c (collapse_ws false t)
  end.

Definition replace_ws_runs (s : string) : string := collapse_ws false s.

(** [s.split(sep)] for a one-character separator; never returns []. *)
Fixpoint split (sep : ascii) (s : string) : list string :=
  match s with
  | EmptyString => [EmptyString]
  | String c t =>
      if Ascii.eqb c sep then EmptyString :: split sep t
      else match split sep t with
           | h :: r => String c h :: r
           | [] => [String c EmptyString]
           end
  end.

(** Truthiness of a string: [Boolean(s)]. *)
Definition truthy (s : string) : bool :=
  match s with EmptyString => false | _ => true end.

(** [l.join(sep)]. *)
Definition join (sep : string) (l : list string) : string := String.concat sep l.

(** Every character of [s] satisfies [p]. *)
Fixpoint all (p : ascii -> bool) (s : string) : bool :=
  match s with
  | EmptyString => true
  | String c t => p c && all p t
  end.

(** [s.includes(sub)]. *)
Fixpoint includes (sub s : string) : bool :=
  String.prefix sub s ||
  match s with
  | EmptyString => false
  | String _ t => includes sub t
  end.

(** [s.slice(-2)] on a string of at least two characters: its last two. *)
Fixpoint last2 (s : string) : string :=
  match s with
  | String _ (String _ (String _ _) as u) => last2 u
  | _ => s
  end.

End Str.

(** ** Path normalizer *)

(** [nameToTokenPath] (code.ts 54-59). *)
Definition normalize_segment (seg : string) : string :=
  Str.replace_ws_runs (Str.toLowerCase (Str.trim seg)).

Definition nameToTokenPath (name : string) : string :=
  let segments := List.map normalize_segment (Str.split "/" name) in
  Str.join "." (List.filter Str.truthy segments).

(** ** Numbers and hexadecimal colours *)

(** [Math.round]: the nearest integer, ties towards positive infinity. *)
Definition math_round (x : Q) : Z := Qfloor (x + (1 # 2)).

(** [n.toString(16)] for an integer [n]. *)
Definition toString16 (n : Z) : string :=
  match n with
  | Z0 => "0"
  | Zpos p => HexadecimalString.NilZero.string_of_uint (N.to_hex_uint (Npos p))
  | Zneg p =>
      "-" ++ HexadecimalString.NilZero.string_of_uint (N.to_hex_uint (Npos p))
  end.

(** [pad] of [rgbaToHex]: [("0" + n.toString(16)).slice(-2)]. *)
Definition pad (n : Z) : string := Str.last2 ("0" ++ toString16 n).

(** [rgbaToHex] (code.ts 44-51), in exact arithmetic: the result of the
    code wherever [c * 255] is computed exactly for every channel [c], as
    it is for 0, for 1 and for the whole numbers up to [2^45]. *)
Definition rgbaToHex (r g b a : Q) : string :=
  let R := pad (math_round (r * 255)) in
  let G := pad (math_round (g * 255)) in
  let B := pad (math_round (b * 255)) in
  if Qle_bool 1 a then "#" ++ R ++ G ++ B
  else "#" ++ R ++ G ++ B ++ pad (math_round (a * 255)).

(** Two hexadecimal digits of a byte, written independently of
    [toString16]: the reference for "two hex digits per channel". *)
Definition hex_digit (d : Z) : ascii :=
  match d with
  | 0 => "0" | 1 => "1" | 2 => "2" | 3 => "3" | 4 => "4" | 5 => "5"
  | 6 => "6" | 7 => "7" | 8 => "8" | 9 => "9" | 10 => "a" | 11 => "b"
  | 12 => "c" | 13 => "d" | 14 => "e" | _ => "f"
  end%Z%char.

Definition hex2 (n : Z) : string :=
  String (hex_digit (n / 16)) (String (hex_digit (n mod 16)) EmptyString).

(** ** Plain objects in enumeration order *)

Module Obj.

(** The numeric value of [k] when [k] is an array index: the canonical
    decimal spelling of an integer below [2^32 - 1].  Such keys are
    enumerated first, in ascending numeric order. *)
Definition array_index (k : string) : option N :=
  match DecimalString.NilZero.uint_of_string k with
  | Some u =>
      let n := N.of_uint u in
      if String.eqb (DecimalString.NilZero.string_of_uint (N.to_uint n)) k
         && N.ltb n 4294967295
      then Some n else None
  | None => None
  end.

(** The names under which a plain object inherits a member from
    [Object.prototype]: for these, [o[k]] is not [undefined] even when [o]
    has no own property [k]. *)
Definition proto_members : list string :=
  ["constructor"; "hasOwnProperty"; "isPrototypeOf"; "propertyIsEnumerable";
   "toLocaleString"; "toString"; "valueOf"; "__proto__";
   "__defineGetter__"; "__defineSetter__"; "__lookupGetter__";
   "__lookupSetter__"].

Definition proto_member (k : string) : bool := bool_decide (k ∈ proto_members).

Section ops.
Context {V : Type}.

(** [o[k]] *)
Fixpoint get (k : string) (o : list (string * V)) : option V :=
  match o with
  | [] => None
  | (k', v) :: t => if decide (k' = k) then Some v else get k t
  end.

(** [Object.keys(o)] *)
Definition keys (o : list (string * V)) : list string := List.map fst o.

(** Assignment to a key that is already present keeps its position. *)
Fixpoint replace (k : string) (v : V) (o : list (string * V))
  : list (string * V) :=
  match o with
  | [] => []
  | (k', v') :: t =>
      if decide (k' = k) then (k, v) :: t else (k', v') :: replace k v t
  end.

(** A new array-index key goes before the first key that is not an array
    index or has a larger index. *)
Fixpoint insert_index (n : N) (k : string) (v : V) (o : list (string * V))
  : list (string * V) :=
  match o with
  | [] => [(k, v)]
  | (k', v') :: t =>
      match array_index k' with
      | Some n' =>
          if N.ltb n' n then (k', v') :: insert_index n k v t
          else (k, v) :: o
      | None => (k, v) :: o
      end
  end.

(** [o[k] = v] for a key other than ["__proto__"]: the own property is
    updated or created. *)
Definition set (k : string) (v : V) (o : list (string * V))
  : list (string * V) :=
  match get k o with
  | Some _ => replace k v o
  | None =>
      match array_index k with
      | Some n => insert_index n k v o
      | None => o ++ [(k, v)]
      end
  end.

(** [o[k] = v] for a key chosen by the user: ["__proto__"] is an accessor
    of [Object.prototype], so the assignment under that key creates no own
    property (it replaces the prototype of [o] when [v] is an object). *)
Definition assign (k : string) (v : V) (o : list (string * V))
  : list (string * V) :=
  if decide (k = "__proto__") then o else set k v o.

End ops.

End Obj.

Abbreviation jsobj V := (list (string * V)).

(** [Object.keys(o).sort()]: ascending order of code units. *)
Definition sorted_keys {V} (o : jsobj V) : list string :=
  merge_sort String.le (Obj.keys o).

(** ** JSON values *)

(** The values held by the export model: the JSON values and, for a
    property that is present with no value, [undefined]. *)

Inductive json : Type :=
| JNull
| JBool (b : bool)
| JNum (n : Q)
| JStr (s : string)
| JArr (items : list json)
| JObj (fields : list (string * json))
| JUndefined.

(** One iteration of the loop of [sortObjectKeys]. *)
Definition rebuild_step {V} (o : jsobj V) (out : jsobj V) (k : string)
  : jsobj V :=
  match Obj.get k o with
  | Some v => Obj.set k v out
  | None => out
  end.

(** The loop of [sortObjectKeys]: a fresh object filled in sorted key
    order from [o]. *)
Definition rebuild_sorted {V} (o : jsobj V) : jsobj V :=
  fold_left (rebuild_step o) (sorted_keys o) [].

(** [sortObjectKeys] (code.ts 716-727): objects are rebuilt recursively,
    arrays and scalars are kept as they are.  The recursive calls on the
    values are made before the rebuild, which gives the same result as
    making them inside the loop. *)
Fixpoint sortObjectKeys (v : json) : json :=
  match v with
  | JObj o =>
      JObj (rebuild_sorted
              ((fix go (l : list (string * json)) : list (string * json) :=
                  match l with
                  | [] => []
                  | (k, x) :: t => (k, sortObjectKeys x) :: go t
                  end) o))
  | _ => v
  end.

(** ** Input snapshot *)

(** Figma's [VariableValue]: a boolean, a string, a number, an [RGB] or
    [RGBA] object ([a] absent for [RGB]), or a [VariableAlias]
    [{ type: "VARIABLE_ALIAS", id }]. *)
Inductive VariableValue : Type :=
| VBoolean (b : bool)
| VString (s : string)
| VNumber (n : Q)
| VColor (r g b : Q) (a : option Q)
| VAlias (id : string).

Record ModeValue : Type := mkModeValue {
  value : VariableValue;
  isAlias : bool
}.

Record RawVariable : Type := mkVariable {
  var_id : string;
  var_name : string;
  resolvedType : string;
  valuesPerMode : jsobj ModeValue
}.

Record Mode : Type := mkMode {
  mode_id : string;
  mode_name : string
}.

Record RawCollection : Type := mkCollection {
  col_id : string;
  col_name : string;
  modes : list Mode;
  variables : list RawVariable
}.

(** ** Raw token values *)

Abbreviation RGBA := (Q * Q * Q * Q)%type.

(** [TokenValueRaw] (code.ts 24-27). *)
Inductive TokenValueRaw : Type :=
| TVColor (rgba : RGBA) (hex : string)
| TVNumber (n : Q)
| TVRef (ref : string).

Inductive Bucket : Type := color | spacing | radius.

#[global] Instance Bucket_eq_dec : EqDecision Bucket.
Proof. solve_decision. Defined.

Definition bucket_name (b : Bucket) : string :=
  match b with
  | color => "color"
  | spacing => "spacing"
  | radius => "radius"
  end.

(** One slot per bucket: [{ color, spacing, radius }]. *)
Record Buckets (A : Type) : Type := mkBuckets {
  bk_color : A;
  bk_spacing : A;
  bk_radius : A
}.
Arguments mkBuckets {A} _ _ _.
Arguments bk_color {A} _.
Arguments bk_spacing {A} _.
Arguments bk_radius {A} _.

Definition bucket_get {A} (t : Buckets A) (b : Bucket) : A :=
  match b with
  | color => bk_color t
  | spacing => bk_spacing t
  | radius => bk_radius t
  end.

Definition bucket_set {A} (b : Bucket) (x : A) (t : Buckets A) : Buckets A :=
  match b with
  | color => mkBuckets x (bk_spacing t) (bk_radius t)
  | spacing => mkBuckets (bk_color t) x (bk_radius t)
  | radius => mkBuckets (bk_color t) (bk_spacing t) x
  end.

Abbreviation RawEntry := (jsobj TokenValueRaw).
Abbreviation RawTable := (jsobj RawEntry).
Abbreviation TokensRaw := (Buckets RawTable).

(** [getAliasVariableId] (code.ts 62-73). *)
Definition getAliasVariableId (v : VariableValue) : option string :=
  match v with
  | VAlias id => Some id
  | _ => None
  end.

(** [buildTokenValueRaw] (code.ts 155-179).  An empty identifier and an
    empty token path are falsy. *)
Definition buildTokenValueRaw (v : VariableValue) (is_alias : bool)
    (varIdToTokenPath : gmap string string) (resolved_type : string)
  : option TokenValueRaw :=
  if is_alias then
    let tokenPath :=
      match getAliasVariableId v with
      | Some targetId =>
          if Str.truthy targetId then varIdToTokenPath !! targetId else None
      | None => None
      end in
    match tokenPath with
    | Some p => if Str.truthy p then Some (TVRef p) else None
    | None => None
    end
  else
    match v with
    | VColor r g b a =>
        if decide (resolved_type = "COLOR") then
          let a := default 1%Q a in
          Some (TVColor (r, g, b, a) (rgbaToHex r g b a))
        else None
    | VNumber n =>
        if decide (resolved_type = "FLOAT") then Some (TVNumber n) else None
    | _ => None
    end.

(** What [getValueForMode] returns when it is not [null]: a value stored
    in the entry or, when the requested mode names a member that the entry
    inherits from [Object.prototype], that member (a function, or the
    prototype itself for ["__proto__"]). *)
Inductive ModeValues : Type :=
| Stored (tv : TokenValueRaw)
| Inherited (member : string).

Coercion Stored : TokenValueRaw >-> ModeValues.

(** A stored value is written as such where a mode value is expected,
    also under [Some]. *)
Arguments Some {A} & a.

(** [getValueForMode] (code.ts 182-190).  The stored values are objects,
    hence truthy; so is an inherited member, which the first read returns
    before the fallback is tried. *)
Definition getValueForMode (tokenEntry : RawEntry) (requestedModeName : string)
  : option ModeValues :=
  match Obj.get requestedModeName tokenEntry with
  | Some v => Some (Stored v)
  | None =>
      if Obj.proto_member requestedModeName
      then Some (Inherited requestedModeName)
      else
        match Obj.keys tokenEntry with
        | [k] => Stored <$> Obj.get k tokenEntry
        | _ => None
        end
  end.

(** ** Alias resolver *)

Record ResolutionError : Type := mkResolutionError {
  re_tokenPath : string;
  re_requestedModeName : string;
  re_reason : string;
  re_chain : list string
}.

(** What [resolveRef] returns when it is not [null]. *)
Inductive Resolved : Type :=
| RRgba (rgba : RGBA)
| RValue (n : Q).

(** The three mutable arguments of [resolveRef]. *)
Record RState : Type := mkRState {
  visited : gset string;
  chain : list string;
  errors : list ResolutionError
}.

Definition pathKey (bucket : Bucket) (tokenPath requestedModeName : string)
  : string :=
  bucket_name bucket ++ ":" ++ tokenPath ++ ":" ++ requestedModeName.

(** The exits of [resolveRef] after the triple was marked: the error (if
    any) is pushed, then [visited.delete(pathKey)] and [chain.pop()]. *)
Definition unwind (key : string) (st : RState) : RState :=
  mkRState (visited st ∖ {[key]}) (removelast (chain st)) (errors st).

Definition push_error (e : ResolutionError) (st : RState) : RState :=
  mkRState (visited st) (chain st) (errors st ++ [e]).

(** [resolveRef] (code.ts 193-282).  Every invocation consumes one unit of
    [fuel]; [None] means the fuel ran out.  A mode value that is none of
    the three shapes (an inherited member) takes the last exit of the
    function (code.ts 279-281): [null], and no error.  The two reads of
    [bucketTokens] are modelled as reads of own properties.  That is what
    the code does unless the token path names a member of
    [Object.prototype] without being a key of the bucket: the code then
    goes on with that member, a built-in object of the host, and what
    follows depends on the properties of that object.  [plain_paths] says
    that no read of a walk is of that kind. *)
Fixpoint resolveRef_fuel (fuel : nat) (tokenPath requestedModeName : string)
    (tokensRaw : TokensRaw) (bucket : Bucket) (st : RState)
  : option (option Resolved * RState) :=
  match fuel with
  | O => None
  | S fuel' =>
      let key := pathKey bucket tokenPath requestedModeName in
      if decide (key ∈ visited st) then
        Some (None,
              push_error
                (mkResolutionError tokenPath requestedModeName "cycle"
                   (chain st ++ [tokenPath])) st)
      else
        let st1 :=
          mkRState ({[key]} ∪ visited st) (chain st ++ [tokenPath]) (errors st) in
        let bucketTokens := bucket_get tokensRaw bucket in
        match Obj.get tokenPath bucketTokens with
        | None =>
            Some (None,
                  unwind key
                    (push_error
                       (mkResolutionError tokenPath requestedModeName
                          "missing token" (chain st1)) st1))
        | Some tokenEntry =>
            match getValueForMode tokenEntry requestedModeName with
            | None =>
                Some (None,
                      unwind key
                        (push_error
                           (mkResolutionError tokenPath requestedModeName
                              "mode mismatch" (chain st1)) st1))
            | Some (Stored (TVRef refPath)) =>
                match Obj.get refPath bucketTokens with
                | None =>
                    Some (None,
                          unwind key
                            (push_error
                               (mkResolutionError tokenPath requestedModeName
                                  "missing token" (chain st1 ++ [refPath])) st1))
                | Some _ =>
                    match resolveRef_fuel fuel' refPath requestedModeName
                            tokensRaw bucket st1 with
                    | Some (resolved, st2) => Some (resolved, unwind key st2)
                    | None => None
                    end
                end
            | Some (Stored (TVColor rgba _)) =>
                Some (Some (RRgba rgba), unwind key st1)
            | Some (Stored (TVNumber n)) =>
                Some (Some (RValue n), unwind key st1)
            | Some (Inherited _) => Some (None, unwind key st1)
            end
        end
  end.

(** One invocation for the call itself and one for every token path of the
    bucket always suffice (see [resolveRef_fuel_enough]). *)
Definition resolve_fuel (tokensRaw : TokensRaw) (bucket : Bucket) : nat :=
  S (length (Obj.keys (bucket_get tokensRaw bucket))).

Definition resolveRef (tokenPath requestedModeName : string)
    (tokensRaw : TokensRaw) (bucket : Bucket) (st : RState)
  : option Resolved * RState :=
  match resolveRef_fuel (resolve_fuel tokensRaw bucket)
          tokenPath requestedModeName tokensRaw bucket st with
  | Some r => r
  | None => (None, st)
  end.

(** ** Collision detector and raw table *)

(** The record kept for the first variable that claims a token path. *)
Record FirstClaim : Type := mkFirstClaim {
  fc_varId : string;
  fc_originalName : string;
  fc_collectionName : string
}.

(** [DuplicateError] (code.ts 303-314); its [type] is always
    ["DuplicateTokenPath"].  The three fields read from the earlier
    claimant are [None] when that read gives [undefined]. *)
Record DuplicateError : Type := mkDuplicateError {
  de_tokenPath : string;
  de_bucket : Bucket;
  existingVarId : option string;
  newVarId : string;
  existingOriginalName : option string;
  newOriginalName : string;
  existingCollectionName : option string;
  newCollectionName : string;
  suggestion : string
}.

Definition duplicate_suggestion : string :=
  "Rename one of the variables or move them into the same collection.".

(** The state shared by the loop of step 2 of [buildExportModel]. *)
Record BuildState : Type := mkBuildState {
  tokensRaw : TokensRaw;
  tokenPathToFirst : Buckets (gmap string FirstClaim);
  duplicateErrors : list DuplicateError
}.

Definition initBuildState : BuildState :=
  mkBuildState (mkBuckets [] [] []) (mkBuckets ∅ ∅ ∅) [].

(** [checkCollisionAndAdd] (code.ts 317-343).  [map] holds the claims
    made, its own properties.  For a token path without a claim that names
    a member of [Object.prototype], [map[tokenPath]] is that member: it is
    truthy, and its [varId], [originalName] and [collectionName] are
    [undefined], so the variable is reported and nothing is registered. *)
Definition checkCollisionAndAdd (bucket : Bucket)
    (tokenPath varId originalName collectionName : string) (st : BuildState)
  : bool * BuildState :=
  let map := bucket_get (tokenPathToFirst st) bucket in
  match map !! tokenPath with
  | Some existing =>
      if decide (fc_varId existing = varId) then (true, st)
      else
        (false,
         mkBuildState (tokensRaw st) (tokenPathToFirst st)
           (duplicateErrors st ++
            [mkDuplicateError tokenPath bucket (Some (fc_varId existing)) varId
               (Some (fc_originalName existing)) originalName
               (Some (fc_collectionName existing)) collectionName
               duplicate_suggestion]))
  | None =>
      if Obj.proto_member tokenPath then
        (false,
         mkBuildState (tokensRaw st) (tokenPathToFirst st)
           (duplicateErrors st ++
            [mkDuplicateError tokenPath bucket None varId None originalName
               None collectionName duplicate_suggestion]))
      else
        (true,
         mkBuildState (tokensRaw st)
           (bucket_set bucket
              (<[tokenPath := mkFirstClaim varId originalName collectionName]>
                 map)
              (tokenPathToFirst st))
           (duplicateErrors st))
  end.

(** [modeIdToName] of one collection. *)
Definition modeIdToName (col : RawCollection) : gmap string string :=
  fold_left (fun m md => <[mode_id md := mode_name md]> m) (modes col) ∅.

(** [getOutputModeKey] (code.ts 348-351). *)
Definition getOutputModeKey (col : RawCollection) (modeName : string) : string :=
  if bool_decide (length (modes col) = 1%nat)
     && bool_decide (mode_name <$> head (modes col) = Some "Mode 1")
     && bool_decide (modeName = "Mode 1")
  then "default" else modeName.

(** [t[k1][k2] = v] on a table whose row [k1] exists, for a key [k2]
    other than ["__proto__"]. *)
Definition set_cell {V} (k1 k2 : string) (v : V) (t : jsobj (jsobj V))
  : jsobj (jsobj V) :=
  match Obj.get k1 t with
  | Some row => Obj.set k1 (Obj.set k2 v row) t
  | None => t
  end.

(** [t[k1][k2] = v] on a table whose row [k1] exists, for a key [k2] chosen
    by the user (see [Obj.assign]). *)
Definition assign_cell {V} (k1 k2 : string) (v : V) (t : jsobj (jsobj V))
  : jsobj (jsobj V) :=
  if decide (k2 = "__proto__") then t else set_cell k1 k2 v t.

(** The body shared by the three buckets (code.ts 359-366, 383-390,
    393-400): a fresh entry for [tokenPath], then one cell per mode whose
    value classifies.  The token path has passed the collision check, so
    it names no inherited member; the key of a cell is the name of a mode.
    A value assigned under the mode name ["__proto__"] becomes the
    prototype of the entry: the model keeps the own properties of the
    entry and does not follow what later reads would find through that
    prototype (see [plain_names]). *)
Definition addModeValues (col : RawCollection)
    (varIdToTokenPath : gmap string string) (v : RawVariable)
    (tokenPath : string) (table : RawTable) : RawTable :=
  fold_left
    (fun table modeId =>
       match Obj.get modeId (valuesPerMode v) with
       | Some mv =>
           let modeName := default modeId (modeIdToName col !! modeId) in
           let outputKey := getOutputModeKey col modeName in
           match buildTokenValueRaw (value mv) (isAlias mv) varIdToTokenPath
                   (resolvedType v) with
           | Some tv => assign_cell tokenPath outputKey tv table
           | None => table
           end
       | None => table
       end)
    (Obj.keys (valuesPerMode v))
    (Obj.set tokenPath [] table).

(** Claim [tokenPath] in [bucket] for [v]; on success fill its entry. *)
Definition claimAndAdd (bucket : Bucket) (col : RawCollection)
    (varIdToTokenPath : gmap string string) (v : RawVariable)
    (tokenPath : string) (st : BuildState) : BuildState :=
  let '(ok, st1) :=
    checkCollisionAndAdd bucket tokenPath (var_id v) (var_name v)
      (col_name col) st in
  if ok then
    mkBuildState
      (bucket_set bucket
         (addModeValues col varIdToTokenPath v tokenPath
            (bucket_get (tokensRaw st1) bucket))
         (tokensRaw st1))
      (tokenPathToFirst st1) (duplicateErrors st1)
  else st1.

(** Bucket router (code.ts 357, 367-380, 381, 391). *)
Definition routeBucket (col : RawCollection) (v : RawVariable) : option Bucket :=
  if decide (resolvedType v = "COLOR") then Some color
  else if decide (resolvedType v = "FLOAT") then
    let nameLower := Str.toLowerCase (var_name v) in
    let colNameLower := Str.toLowerCase (col_name col) in
    let '(toSpacing, toRadius) :=
      if Str.includes "spacing" colNameLower then (true, false)
      else if Str.includes "radius" colNameLower then (false, true)
      else (Str.includes "spacing" nameLower, Str.includes "radius" nameLower) in
    if toSpacing then Some spacing
    else if toRadius then Some radius
    else None
  else None.

(** The body of the loop over [col.variables] (code.ts 353-403).  A key
    absent from the lookup reads as [undefined]. *)
Definition processVariable (col : RawCollection)
    (varIdToTokenPath : gmap string string) (st : BuildState) (v : RawVariable)
  : BuildState :=
  let tokenPath := default "undefined" (varIdToTokenPath !! var_id v) in
  match routeBucket col v with
  | Some bucket => claimAndAdd bucket col varIdToTokenPath v tokenPath st
  | None => st
  end.

(** Step 1 of [buildExportModel] (code.ts 288-293). *)
Definition buildVarIdToTokenPath (collections : list RawCollection)
  : gmap string string :=
  fold_left
    (fun ids col =>
       fold_left
         (fun ids v => <[var_id v := nameToTokenPath (var_name v)]> ids)
         (variables col) ids)
    collections ∅.

(** Step 2 of [buildExportModel] (code.ts 345-404). *)
Definition buildTokensRaw (collections : list RawCollection) : BuildState :=
  let ids := buildVarIdToTokenPath collections in
  fold_left
    (fun st col => fold_left (processVariable col ids) (variables col) st)
    collections initBuildState.

(** ** Resolved table *)

(** A cell of [tokensResolved]: [null], a hex string (colour bucket) or
    the object returned by [resolveRef] (other buckets). *)
Inductive ResolvedCell : Type :=
| CellNull
| CellHex (hex : string)
| CellObj (r : Resolved).

Abbreviation ResolvedTable := (jsobj (jsobj ResolvedCell)).

(** code.ts 428-435. *)
Definition resolvedCell (bucket : Bucket) (resolved : option Resolved)
  : ResolvedCell :=
  match bucket with
  | color =>
      match resolved with
      | Some (RRgba (r, g, b, a)) => CellHex (rgbaToHex r g b a)
      | _ => CellNull
      end
  | _ =>
      match resolved with
      | Some r => CellObj r
      | None => CellNull
      end
  end.

(** The loop over the mode names of one token path (code.ts 417-436).
    The keys assigned here and in [pass_step] are own keys of the raw
    table, which were assigned themselves: none is ["__proto__"]. *)
Definition resolveModes (raw : TokensRaw) (bucket : Bucket) (tokenPath : string)
    (modeNames : list string) (acc : ResolvedTable * list ResolutionError)
  : ResolvedTable * list ResolutionError :=
  fold_left
    (fun acc modeName =>
       let '(resolved, st) :=
         resolveRef tokenPath modeName raw bucket (mkRState ∅ [] (snd acc)) in
       (set_cell tokenPath modeName (resolvedCell bucket resolved) (fst acc),
        errors st))
    modeNames acc.

(** The body of the loop over the token paths of one bucket
    (code.ts 415-436): a fresh row, then one cell per mode name. *)
Definition pass_step (raw : TokensRaw) (bucket : Bucket)
    (acc : ResolvedTable * list ResolutionError) (tokenPath : string)
  : ResolvedTable * list ResolutionError :=
  match Obj.get tokenPath (bucket_get raw bucket) with
  | Some entry =>
      resolveModes raw bucket tokenPath (sorted_keys entry)
        (Obj.set tokenPath [] (fst acc), snd acc)
  | None => acc
  end.

(** The loop over the token paths of one bucket (code.ts 412-437). *)
Definition resolveBucket (raw : TokensRaw) (bucket : Bucket)
    (errs : list ResolutionError) : ResolvedTable * list ResolutionError :=
  fold_left (pass_step raw bucket) (sorted_keys (bucket_get raw bucket))
    ([], errs).

(** Step 4 of [buildExportModel] (code.ts 407-438). *)
Definition buildTokensResolved (raw : TokensRaw)
  : Buckets ResolvedTable * list ResolutionError :=
  let '(c, e1) := resolveBucket raw color [] in
  let '(s, e2) := resolveBucket raw spacing e1 in
  let '(r, e3) := resolveBucket raw radius e2 in
  (mkBuckets c s r, e3).

(** ** Export model *)

Definition PLUGIN_VERSION : string := "0.1.0".

Definition rgba_json (c : RGBA) : json :=
  let '(r, g, b, a) := c in JArr [JNum r; JNum g; JNum b; JNum a].

(** The object literals of [buildTokenValueRaw], keys in source order. *)
Definition TokenValueRaw_json (tv : TokenValueRaw) : json :=
  match tv with
  | TVColor rgba hex => JObj [("rgba", rgba_json rgba); ("hex", JStr hex)]
  | TVNumber n => JObj [("value", JNum n)]
  | TVRef p => JObj [("$ref", JStr p)]
  end.

Definition Resolved_json (r : Resolved) : json :=
  match r with
  | RRgba rgba => JObj [("rgba", rgba_json rgba)]
  | RValue n => JObj [("value", JNum n)]
  end.

Definition ResolvedCell_json (c : ResolvedCell) : json :=
  match c with
  | CellNull => JNull
  | CellHex h => JStr h
  | CellObj r => Resolved_json r
  end.

(** A two-level table as a JSON object, key order kept. *)
Definition table_json {V} (f : V -> json) (t : jsobj (jsobj V)) : json :=
  JObj (List.map
          (fun row => (fst row,
                       JObj (List.map (fun cell => (fst cell, f (snd cell)))
                               (snd row))))
          t).

(** [{ color, spacing, radius }] *)
Definition buckets_json {V} (f : V -> json) (t : Buckets (jsobj (jsobj V)))
  : json :=
  JObj [("color", table_json f (bk_color t));
        ("spacing", table_json f (bk_spacing t));
        ("radius", table_json f (bk_radius t))].

Definition strings_json (l : list string) : json := JArr (List.map JStr l).

(** A property read from the earlier claimant: a string or [undefined]. *)
Definition claimant_json (field : option string) : json :=
  match field with
  | Some s => JStr s
  | None => JUndefined
  end.

(** The literal pushed by [checkCollisionAndAdd] (code.ts 327-338). *)
Definition DuplicateError_json (e : DuplicateError) : json :=
  JObj [("type", JStr "DuplicateTokenPath");
        ("tokenPath", JStr (de_tokenPath e));
        ("bucket", JStr (bucket_name (de_bucket e)));
        ("existingVarId", claimant_json (existingVarId e));
        ("newVarId", JStr (newVarId e));
        ("existingOriginalName", claimant_json (existingOriginalName e));
        ("newOriginalName", JStr (newOriginalName e));
        ("existingCollectionName", claimant_json (existingCollectionName e));
        ("newCollectionName", JStr (newCollectionName e));
        ("suggestion", JStr (suggestion e))].

(** The literals pushed by [resolveRef] (code.ts 204-209 and alike). *)
Definition ResolutionError_json (e : ResolutionError) : json :=
  JObj [("tokenPath", JStr (re_tokenPath e));
        ("requestedModeName", JStr (re_requestedModeName e));
        ("reason", JStr (re_reason e));
        ("chain", strings_json (re_chain e))].

Definition Mode_json (m : Mode) : json :=
  JObj [("id", JStr (mode_id m)); ("name", JStr (mode_name m))].

(** A stable sort by a three-way comparator, as [Array.prototype.sort]. *)
Fixpoint insert_by {A} (cmp : A -> A -> Z) (x : A) (l : list A) : list A :=
  match l with
  | [] => [x]
  | y :: t => if Z.leb (cmp x y) 0 then x :: l else y :: insert_by cmp x t
  end.

Definition sort_by {A} (cmp : A -> A -> Z) (l : list A) : list A :=
  fold_right (insert_by cmp) [] l.

Section export.

(** The host's [String.prototype.localeCompare]. *)
Variable localeCompare : string -> string -> Z.

(** [collectionsOut] (code.ts 441-445). *)
Definition collection_json (c : RawCollection) : json :=
  JObj [("id", JStr (col_id c));
        ("name", JStr (col_name c));
        ("modes",
         JArr (List.map Mode_json
                 (sort_by (fun a b => localeCompare (mode_id a) (mode_id b))
                    (modes c))))].

(** [buildExportModel] (code.ts 285-457).  [now] is the value of
    [new Date().toISOString()] at the time of the call. *)
Definition buildExportModel (now : string) (collections : list RawCollection)
  : json :=
  let st := buildTokensRaw collections in
  let '(tokensResolved, resolutionErrors) := buildTokensResolved (tokensRaw st) in
  JObj [("meta",
         JObj [("exportedAt", JStr now); ("pluginVersion", JStr PLUGIN_VERSION)]);
        ("collections", JArr (List.map collection_json collections));
        ("tokensRaw",
         sortObjectKeys (buckets_json TokenValueRaw_json (tokensRaw st)));
        ("tokensResolved",
         sortObjectKeys (buckets_json ResolvedCell_json tokensResolved));
        ("errors",
         JArr (List.map DuplicateError_json (duplicateErrors st)
               ++ List.map ResolutionError_json resolutionErrors))].

End export.

(** Reading the export: [v.k] and [v.k1.k2...]. *)
Definition json_get (k : string) (v : json) : option json :=
  match v with
  | JObj o => Obj.get k o
  | _ => None
  end.

Fixpoint json_path (ks : list string) (v : json) : option json :=
  match ks with
  | [] => Some v
  | k :: ks' =>
      match json_get k v with
      | Some x => json_path ks' x
      | None => None
      end
  end.

Definition json_keys (v : json) : list string :=
  match v with
  | JObj o => Obj.keys o
  | _ => []
  end.

(** ** Notions used in the statements *)

(** A character that survives normalization unchanged. *)
Definition clean_char (c : ascii) : bool :=
  negb (Str.is_ws c) && negb (Str.is_upper c) && negb (Ascii.eqb c "/").

Definition no_slash (c : ascii) : bool := negb (Ascii.eqb c "/").

(** Token paths of the bucket whose triple is not marked. *)
Definition unvisited (raw : TokensRaw) (bucket : Bucket) (m : string)
    (vis : gset string) : gset string :=
  filter (fun p => pathKey bucket p m ∉ vis)
    (list_to_set (Obj.keys (bucket_get raw bucket)) : gset string).

Definition token_paths (raw : TokensRaw) (bucket : Bucket) : gset string :=
  list_to_set (Obj.keys (bucket_get raw bucket)).

(** The cell the pass writes for [(p, m)]: a resolution from a clean
    state. *)
Definition cell_of (raw : TokensRaw) (bucket : Bucket) (p m : string)
  : ResolvedCell :=
  resolvedCell bucket (fst (resolveRef p m raw bucket (mkRState ∅ [] []))).

(** What one bucket of the resolved table holds after the pass over the
    token paths [L]. *)
Definition pass_inv (raw : TokensRaw) (bucket : Bucket) (L : list string)
    (res : ResolvedTable) : Prop :=
  forall p,
    match Obj.get p res with
    | Some row =>
        p ∈ L
        /\ exists entry,
             Obj.get p (bucket_get raw bucket) = Some entry
             /\ forall m, Obj.get m row
                          = if decide (m ∈ Obj.keys entry)
                            then Some (cell_of raw bucket p m) else None
    | None => p ∉ L \/ Obj.get p (bucket_get raw bucket) = None
    end.

(** The entry that the loop over the modes of [v] builds, taken alone. *)
Definition buildEntry (col : RawCollection)
    (varIdToTokenPath : gmap string string) (v : RawVariable) : RawEntry :=
  fold_left
    (fun entry modeId =>
       match Obj.get modeId (valuesPerMode v) with
       | Some mv =>
           let modeName := default modeId (modeIdToName col !! modeId) in
           let outputKey := getOutputModeKey col modeName in
           match buildTokenValueRaw (value mv) (isAlias mv) varIdToTokenPath
                   (resolvedType v) with
           | Some tv => Obj.assign outputKey tv entry
           | None => entry
           end
       | None => entry
       end)
    (Obj.keys (valuesPerMode v)) [].

(** [out.errors] *)
Definition export_errors (out : json) : list json :=
  match json_get "errors" out with
  | Some (JArr l) => l
  | _ => []
  end.

(** An error entry that has both a token path and a requested mode. *)
Definition carries_path_and_mode (e : json) : Prop :=
  is_Some (json_get "tokenPath" e) /\ is_Some (json_get "requestedModeName" e).

(** The reasons [resolveRef] reports. *)
Definition graph_reasons : list string :=
  ["cycle"; "missing token"; "mode mismatch"].

(** A well-formed graph error: a known reason, and the offending token
    path is on the chain. *)
Definition graph_error_ok (r : ResolutionError) : Prop :=
  re_reason r ∈ graph_reasons /\ re_tokenPath r ∈ re_chain r.

(** The same keys in the same order, every value mapped by [g]. *)
Definition map_values {A B} (g : A -> B) (o : jsobj A) : jsobj B :=
  List.map (fun kv => (fst kv, g (snd kv))) o.

(** A two-level table built by assignments: no key is repeated, at
    either level. *)
Definition table_wf {V} (t : jsobj (jsobj V)) : Prop :=
  NoDup (Obj.keys t)
  /\ forall p row, Obj.get p t = Some row -> NoDup (Obj.keys row).

Definition raw_wf (raw : TokensRaw) : Prop :=
  forall b, table_wf (bucket_get raw b).

(** A normalized row of a table: the cells normalized, then the row
    rebuilt. *)
Definition sorted_row {V} (f : V -> json) (row : jsobj V) : json :=
  JObj (rebuild_sorted (map_values (fun c => sortObjectKeys (f c)) row)).

(** Two objects with the same content: the same keys, in any order, bound
    to the same values. *)
Definition obj_same {V} (r s : jsobj V) : Prop :=
  Obj.keys r ≡ₚ Obj.keys s
  /\ Forall (fun m => Obj.get m r = Obj.get m s) (Obj.keys r).

(** Two tables with the same content: the same token paths, in any order,
    bound to rows with the same content. *)
Definition table_same {V} (t u : jsobj (jsobj V)) : Prop :=
  Obj.keys t ≡ₚ Obj.keys u
  /\ Forall (fun p => match Obj.get p t, Obj.get p u with
                      | Some r, Some s => obj_same r s
                      | _, _ => False
                      end) (Obj.keys t).

(** The order in which a JS object enumerates two of its keys: array
    indices first, in ascending numeric order, then the other keys; among
    those, [sortObjectKeys] inserts in ascending order of code units. *)
Definition js_key_le (a b : string) : Prop :=
  match Obj.array_index a, Obj.array_index b with
  | Some m, Some n => (m <= n)%N
  | Some _, None => True
  | None, Some _ => False
  | None, None => String.le a b
  end.

(** Every object of [v] that is not inside an array has its keys in
    [js_key_le] order. *)
Fixpoint json_sorted (v : json) : Prop :=
  match v with
  | JObj o =>
      StronglySorted js_key_le (List.map fst o)
      /\ (fix all (l : list (string * json)) : Prop :=
            match l with
            | [] => True
            | (_, x) :: t => json_sorted x /\ all t
            end) o
  | _ => True
  end.

(** ** Sample inputs *)

(** The concrete scenario: "Button/Main" aliases "Accent/Primary/100". *)
Definition scenario : list RawCollection :=
  [mkCollection "VariableCollectionId:1:2" "Primitives"
     [mkMode "1:0" "Light"]
     [mkVariable "VariableID:1:3" "Accent/Primary/100" "COLOR"
        [("1:0", mkModeValue (VColor (88 # 100) (95 # 100) 1 (Some 1%Q)) false)];
      mkVariable "VariableID:1:4" "Button/Main" "COLOR"
        [("1:0", mkModeValue (VAlias "VariableID:1:3") true)]]].

(** [a] and [b] alias each other in mode "Light"; [c] is a literal. *)
Definition cycle_table : TokensRaw :=
  mkBuckets
    [("a", [("Light", TVRef "b")]);
     ("b", [("Light", TVRef "a")]);
     ("c", [("Light", TVColor (1, 1, 1, 1)%Q "#ffffff")])]
    [] [].

(** The same table with the cycle broken: [a] and [b] are literals. *)
Definition acyclic_table : TokensRaw :=
  mkBuckets
    [("a", [("Light", TVColor (0, 0, 0, 1)%Q "#000000")]);
     ("b", [("Light", TVRef "a")]);
     ("c", [("Light", TVColor (1, 1, 1, 1)%Q "#ffffff")])]
    [] [].

(** [base] has the single mode "default"; [themed] aliases it under two
    modes; [split] has two modes. *)
Definition fallback_table : TokensRaw :=
  mkBuckets []
    [("base", [("default", TVNumber 8)]);
     ("themed", [("Light", TVRef "base"); ("Dark", TVRef "base")]);
     ("split", [("Light", TVNumber 4); ("Dark", TVNumber 6)])]
    [].

(** [base] has the single mode "default"; [themed] aliases it under the
    mode "constructor". *)
Definition constructor_mode_table : TokensRaw :=
  mkBuckets []
    [("base", [("default", TVNumber 8)]);
     ("themed", [("constructor", TVRef "base")])]
    [].

(** The same as a snapshot: "Spacing/Base" lives in a collection with the
    default mode, "Spacing/Themed" aliases it in a collection whose only
    mode is named "constructor". *)
Definition constructor_mode_scenario : list RawCollection :=
  [mkCollection "C:1" "Primitives" [mkMode "1:0" "Mode 1"]
     [mkVariable "V:base" "Spacing/Base" "FLOAT"
        [("1:0", mkModeValue (VNumber 8) false)]];
   mkCollection "C:2" "Theme" [mkMode "2:0" "constructor"]
     [mkVariable "V:themed" "Spacing/Themed" "FLOAT"
        [("2:0", mkModeValue (VAlias "V:base") true)]]].

(** Two colour variables named "Surface/1" in different collections. *)
Definition surface_brand : RawVariable :=
  mkVariable "V:1" "Surface/1" "COLOR"
    [("1:0", mkModeValue (VColor 1 1 1 (Some 1%Q)) false)].

Definition surface_product : RawVariable :=
  mkVariable "V:2" "Surface/1" "COLOR"
    [("2:0", mkModeValue (VColor 0 0 0 (Some 1%Q)) false)].

Definition brand_collection : RawCollection :=
  mkCollection "C:1" "Brand" [mkMode "1:0" "Mode 1"] [surface_brand].

Definition product_collection : RawCollection :=
  mkCollection "C:2" "Product" [mkMode "2:0" "Mode 1"] [surface_product].

Definition collision_scenario : list RawCollection :=
  [brand_collection; product_collection].

(** A colour variable whose name normalizes to "constructor". *)
Definition constructor_variable : RawVariable :=
  mkVariable "V:1" "Constructor" "COLOR"
    [("1:0", mkModeValue (VColor 0 0 0 None) false)].

Definition constructor_scenario : list RawCollection :=
  [mkCollection "C:1" "Theme" [mkMode "1:0" "Light"] [constructor_variable]].

(** Two colour variables that alias each other. *)
Definition cycle_scenario : list RawCollection :=
  [mkCollection "C:1" "Theme" [mkMode "1:0" "Light"]
     [mkVariable "V:a" "Loop/A" "COLOR"
        [("1:0", mkModeValue (VAlias "V:b") true)];
      mkVariable "V:b" "Loop/B" "COLOR"
        [("1:0", mkModeValue (VAlias "V:a") true)]]].

(** A spacing collection whose variables are named "9" and "10". *)
Definition numeric_scenario : list RawCollection :=
  [mkCollection "C:1" "Spacing" [mkMode "1:0" "Mode 1"]
     [mkVariable "V:10" "10" "FLOAT" [("1:0", mkModeValue (VNumber 10) false)];
      mkVariable "V:9" "9" "FLOAT" [("1:0", mkModeValue (VNumber 9) false)]]].

(** The same two tokens, inserted in two different orders. *)
Definition table_ab : Buckets ResolvedTable :=
  mkBuckets
    [("b", [("Light", CellHex "#000000"); ("Dark", CellNull)]);
     ("a", [("Dark", CellHex "#ffffff")])]
    [] [].

Definition table_ba : Buckets ResolvedTable :=
  mkBuckets
    [("a", [("Dark", CellHex "#ffffff")]);
     ("b", [("Dark", CellNull); ("Light", CellHex "#000000")])]
    [] [].


(** "Base/Ink" lives in a single-mode collection; "Themed/Ink" aliases it
    under Light and Dark; "Ghost" aliases a number variable, which is not
    in the colour bucket. *)
Definition fallback_scenario : list RawCollection :=
  [mkCollection "C:1" "Primitives" [mkMode "1:0" "Mode 1"]
     [mkVariable "V:base" "Base/Ink" "COLOR"
        [("1:0", mkModeValue (VColor 0 0 0 None) false)];
      mkVariable "V:gap" "Spacing/Gap" "FLOAT"
        [("1:0", mkModeValue (VNumber 8) false)]];
   mkCollection "C:2" "Theme" [mkMode "2:0" "Light"; mkMode "2:1" "Dark"]
     [mkVariable "V:themed" "Themed/Ink" "COLOR"
        [("2:0", mkModeValue (VAlias "V:base") true);
         ("2:1", mkModeValue (VAlias "V:base") true)];
      mkVariable "V:ghost" "Ghost" "COLOR"
        [("2:0", mkModeValue (VAlias "V:gap") true);
         ("2:1", mkModeValue (VAlias "V:nowhere") true)]]].
From Stdlib Require Hexadecimal HexadecimalPos.

(** ** Variable collector *)

(** [isVariableAlias] (code.ts 75-84). *)
Definition isVariableAlias (v : VariableValue) : bool :=
  match v with
  | VAlias _ => true
  | _ => false
  end.

(** What the plugin API hands out: the variables and the variable
    collections of the document.  The asynchronous reads of the collector
    are modelled as reads of one document that does not change meanwhile:
    [getVariableById] is a function, with [None] for [null]. *)
Record FigmaVariable : Type := mkFigmaVariable {
  fv_id : string;
  fv_name : string;
  fv_resolvedType : string;
  valuesByMode : jsobj VariableValue
}.

(** A mode of a collection: [{ modeId, name }]. *)
Record FigmaMode : Type := mkFigmaMode {
  modeId : string;
  fm_name : string
}.

(** A collection: [{ id, name, modes, variableIds }]. *)
Record VariableCollection : Type := mkVariableCollection {
  vc_id : string;
  vc_name : string;
  vc_modes : list FigmaMode;
  variableIds : list string
}.

(** The loop over [Object.keys(valuesByMode)] (code.ts 125-132). *)
Definition collectValuesPerMode (values : jsobj VariableValue)
  : jsobj ModeValue :=
  fold_left
    (fun out k =>
       match Obj.get k values with
       | Some v => Obj.set k (mkModeValue v (isVariableAlias v)) out
       | None => out
       end)
    (Obj.keys values) [].

(** The callback on one variable identifier (code.ts 114-140). *)
Definition collectVariable (getVariableById : string -> option FigmaVariable)
    (variableId : string) : option RawVariable :=
  match getVariableById variableId with
  | None => None
  | Some variable =>
      Some (mkVariable (fv_id variable) (fv_name variable)
              (fv_resolvedType variable)
              (collectValuesPerMode (valuesByMode variable)))
  end.

(** [logLocalVariableCollections] (code.ts 104-152); [Promise.all] keeps
    the order, [filter(Boolean)] drops the [null]s. *)
Definition logLocalVariableCollections
    (getVariableById : string -> option FigmaVariable)
    (collections : list VariableCollection) : list RawCollection :=
  List.map
    (fun collection =>
       mkCollection (vc_id collection) (vc_name collection)
         (List.map (fun mode => mkMode (modeId mode) (fm_name mode))
            (vc_modes collection))
         (omap (collectVariable getVariableById) (variableIds collection)))
    collections.

(** ** Target platforms *)

(** A child of a page: its [type] and, for a frame, its [width]. *)
Record SceneNode : Type := mkSceneNode {
  node_type : string;
  node_width : Q
}.

(** [{ web, mobile }] *)
Record Platforms : Type := mkPlatforms {
  web : bool;
  mobile : bool
}.

(** The body of the inner loop of [detectTargetPlatforms]; the pair is
    [(hasWeb, hasMobile)]. *)
Definition scanNode (acc : bool * bool) (node : SceneNode) : bool * bool :=
  if decide (node_type node = "FRAME") then
    let w := node_width node in
    (fst acc || Qle_bool 768 w,
     snd acc || (Qle_bool 320 w && Qle_bool w 430))
  else acc.

(** [detectTargetPlatforms] (code.ts 86-102) on the pages of the document,
    each given by its children. *)
Definition detectTargetPlatforms (pages : list (list SceneNode)) : Platforms :=
  let acc := fold_left (fun acc page => fold_left scanNode page acc) pages
               (false, false) in
  let hasWeb := if negb (fst acc) && negb (snd acc) then true else fst acc in
  mkPlatforms hasWeb (snd acc).

(** ** Export message *)

(** JS truthiness of a property read: [None] is [undefined]. *)
Definition js_truthy (v : option json) : bool :=
  match v with
  | None => false
  | Some JNull => false
  | Some (JBool b) => b
  | Some (JNum n) => negb (Qeq_bool n 0)
  | Some (JStr s) => Str.truthy s
  | Some (JArr _) => true
  | Some (JObj _) => true
  | Some JUndefined => false
  end.

(** [PluginExportSettings] as it arrives in a message from the UI. *)
Record PluginExportSettings : Type := mkSettings {
  targets : json;
  mobileFramework : json
}.

(** [DEFAULT_SETTINGS] (code.ts 464-467). *)
Definition DEFAULT_SETTINGS : PluginExportSettings :=
  mkSettings
    (JObj [("web", JBool true); ("ios", JBool false); ("android", JBool false)])
    (JStr "react-native").

(** What [runExportWithRaw] reads of a local text style. *)
Record TextStyle : Type := mkTextStyle {
  ts_name : string;
  ts_family : string;
  ts_fontSize : Q
}.

(** [o.k = v] on an object. *)
Definition json_set (k : string) (v : json) (o : json) : json :=
  match o with
  | JObj fields => JObj (Obj.set k v fields)
  | _ => o
  end.

(** A mutation of the object held by the property [k] of [o]. *)
Definition json_update (k : string) (g : json -> json) (o : json) : json :=
  match json_get k o with
  | Some x => json_set k (g x) o
  | None => o
  end.

(** The three tables filled by the loop over the text styles
    (code.ts 741-750): [fontTokens], [fontSizeTokens] and
    [fontSizeToFontFamily]. *)
Record FontTables : Type := mkFontTables {
  fontTokens : jsobj json;
  fontSizeTokens : jsobj json;
  fontSizeToFontFamily : jsobj json
}.

(** The body of the loop over the text styles (code.ts 745-750).  The
    key is the normalized name of the style, chosen by the user: under
    ["__proto__"] the three assignments create no property. *)
Definition addTextStyle (t : FontTables) (style : TextStyle) : FontTables :=
  let tokenPath := nameToTokenPath (ts_name style) in
  mkFontTables
    (Obj.assign tokenPath (JObj [("default", JStr (ts_family style))])
       (fontTokens t))
    (Obj.assign tokenPath (JObj [("default", JNum (ts_fontSize style))])
       (fontSizeTokens t))
    (Obj.assign tokenPath (JStr (ts_family style)) (fontSizeToFontFamily t)).

(** The loop over the text styles (code.ts 744-750). *)
Definition collectFonts (textStyles : list TextStyle) : FontTables :=
  fold_left addTextStyle textStyles (mkFontTables [] [] []).

(** [webOnly] (code.ts 736). *)
Definition webOnly (settings : PluginExportSettings) : bool :=
  js_truthy (json_get "web" (targets settings))
  && negb (js_truthy (json_get "ios" (targets settings)))
  && negb (js_truthy (json_get "android" (targets settings))).

(** [runExportWithRaw] (code.ts 731-760): the [exportJson] of the message
    it posts.  [textStyles] is what [figma.getLocalTextStylesAsync]
    returns.  The prompt text and the detected platforms, the other parts
    of the message, are not part of this value. *)
Definition runExportWithRaw (localeCompare : string -> string -> Z)
    (now : string) (rawOutput : list RawCollection)
    (settings : PluginExportSettings) (textStyles : list TextStyle) : json :=
  let exportModel := buildExportModel localeCompare now rawOutput in
  let exportModel :=
    json_update "meta"
      (fun meta =>
         json_set "mobileFramework"
           (if webOnly settings then JStr "none" else mobileFramework settings)
           (json_set "targets" (targets settings) meta))
      exportModel in
  let fonts := collectFonts textStyles in
  let exportModel :=
    json_update "tokensResolved"
      (fun tokensResolved =>
         json_set "fontSize" (sortObjectKeys (JObj (fontSizeTokens fonts)))
           (json_set "font" (sortObjectKeys (JObj (fontTokens fonts)))
              tokensResolved))
      exportModel in
  json_set "fontSizeToFontFamily"
    (sortObjectKeys (JObj (fontSizeToFontFamily fonts))) exportModel.

(** ** Notions used in the further properties *)

(** The one error [e] of a call of [resolveRef] for [(p, m)] made with
    the chain [ch]. *)
Definition error_of_call (m p : string) (ch : list string)
    (e : ResolutionError) : Prop :=
  exists suffix,
    re_requestedModeName e = m
    /\ re_reason e ∈ graph_reasons
    /\ re_chain e = ch ++ p :: suffix
    /\ re_tokenPath e ∈ p :: suffix.

(** What one call of [resolveRef] for [(p, m)] reports: the state it
    returns and the errors it adds.  With [null] it adds one error, or
    none when the walk ended at a member inherited under the mode name. *)
Definition reports (m p : string) (st : RState) (r : option Resolved)
    (st' : RState) : Prop :=
  exists new,
    st' = mkRState (visited st) (chain st) (errors st ++ new)
    /\ match r with
       | Some _ => new = []
       | None =>
           (new = [] /\ Obj.proto_member m = true)
           \/ exists e, new = [e] /\ error_of_call m p (chain st) e
       end.

(** The token paths that the cells of a table refer to. *)
Definition ref_targets (t : RawTable) : list string :=
  List.flat_map
    (fun row =>
       omap (fun cell => match snd cell with
                         | TVRef q => Some q
                         | _ => None
                         end) (snd row))
    t.

(** Reading [t[q]] finds an own property or nothing: [q] is a key of [t]
    or names no member of [Object.prototype]. *)
Definition own_or_absent (t : RawTable) (q : string) : bool :=
  bool_decide (q ∈ Obj.keys t) || negb (Obj.proto_member q).

(** Resolving [p] in the bucket reads no inherited member of the table of
    the bucket: neither under [p] nor under the target of a reference. *)
Definition plain_paths (raw : TokensRaw) (bucket : Bucket) (p : string) : bool :=
  own_or_absent (bucket_get raw bucket) p
  && forallb (own_or_absent (bucket_get raw bucket))
       (ref_targets (bucket_get raw bucket)).

(** The keys under which step 2 of [buildExportModel] stores the mode
    values of [v]. *)
Definition outputKeys (col : RawCollection) (v : RawVariable) : list string :=
  List.map
    (fun modeId => getOutputModeKey col (default modeId (modeIdToName col !! modeId)))
    (Obj.keys (valuesPerMode v)).

(** No name of the snapshot meets a member of [Object.prototype]: neither
    the token path of a variable nor a key under which a mode value is
    stored. *)
Definition plain_names (collections : list RawCollection) : bool :=
  forallb
    (fun col =>
       forallb
         (fun v =>
            negb (Obj.proto_member (nameToTokenPath (var_name v)))
            && forallb (fun k => negb (Obj.proto_member k)) (outputKeys col v))
         (variables col))
    collections.

(** Every marked triple of the bucket and mode has its token path on the
    chain. *)
Definition chain_covers (bucket : Bucket) (m : string) (st : RState) : Prop :=
  forall t, pathKey bucket t m ∈ visited st -> t ∈ chain st.

(** The chain of a cycle error ends with the token path it names, which
    also occurs earlier on the chain. *)
Definition cycle_shown (e : ResolutionError) : Prop :=
  re_reason e = "cycle" ->
  exists pre, re_chain e = pre ++ [re_tokenPath e] /\ re_tokenPath e ∈ pre.

(** For mode [m], token [p] has an entry whose value (after the
    single-mode fallback) is a reference to [q]. *)
Definition refers (raw : TokensRaw) (bucket : Bucket) (m p q : string) : Prop :=
  exists entry,
    Obj.get p (bucket_get raw bucket) = Some entry
    /\ getValueForMode entry m = Some (TVRef q).

(** [p] refers to the first token of [rest], which refers to the next one,
    and so on. *)
Fixpoint walk (raw : TokensRaw) (bucket : Bucket) (m p : string)
    (rest : list string) : Prop :=
  match rest with
  | [] => True
  | q :: rest' => refers raw bucket m p q /\ walk raw bucket m q rest'
  end.

(** A character that the path normalizer drops when nothing else is in
    the name: whitespace or the separator. *)
Definition blank_char (c : ascii) : bool := Str.is_ws c || Ascii.eqb c "/".

(** [v] is a variable of collection [col] of the snapshot. *)
Definition in_snapshot (collections : list RawCollection)
    (col : RawCollection) (v : RawVariable) : Prop :=
  col ∈ collections /\ v ∈ variables col.

(** The variables of the snapshot with their collections, in the order in
    which step 2 of [buildExportModel] visits them. *)
Definition snapshot_variables (collections : list RawCollection)
  : list (RawCollection * RawVariable) :=
  List.flat_map (fun col => List.map (pair col) (variables col)) collections.

(** What a cell of the raw table of bucket [b] can be: in the colour
    bucket a colour whose hex string is the conversion of its RGBA, in the
    other buckets a number, and in every bucket a reference to a non-empty
    token path that the lookup [ids] holds. *)
Definition cell_typed (ids : gmap string string) (b : Bucket)
    (tv : TokenValueRaw) : Prop :=
  match tv with
  | TVColor (r, g, bl, a) hex => b = color /\ hex = rgbaToHex r g bl a
  | TVNumber _ => b <> color
  | TVRef p => p <> "" /\ exists id, ids !! id = Some p
  end.

(** Every cell of the raw tables has the shape its bucket allows. *)
Definition raw_typed (ids : gmap string string) (raw : TokensRaw) : Prop :=
  forall b p entry m tv,
    Obj.get p (bucket_get raw b) = Some entry ->
    Obj.get m entry = Some tv -> cell_typed ids b tv.

(** The variable [v] of collection [col] made the claim [c]. *)
Definition claim_of (col : RawCollection) (v : RawVariable) : FirstClaim :=
  mkFirstClaim (var_id v) (var_name v) (col_name col).

(** The duplicate error that [checkCollisionAndAdd] writes when [v] of
    [col] meets the claim [c] on [tokenPath] in [bucket]. *)
Definition duplicate_of (bucket : Bucket) (tokenPath : string) (c : FirstClaim)
    (col : RawCollection) (v : RawVariable) : DuplicateError :=
  mkDuplicateError tokenPath bucket (Some (fc_varId c)) (var_id v)
    (Some (fc_originalName c)) (var_name v)
    (Some (fc_collectionName c)) (col_name col)
    duplicate_suggestion.

(** The duplicate error that [checkCollisionAndAdd] writes when the token
    path of [v] of [col] meets an inherited member instead of a claim. *)
Definition inherited_duplicate_of (bucket : Bucket) (tokenPath : string)
    (col : RawCollection) (v : RawVariable) : DuplicateError :=
  mkDuplicateError tokenPath bucket None (var_id v) None (var_name v)
    None (col_name col) duplicate_suggestion.

(** The state of step 2 after the variables [done]. *)
Record build_inv (cols : list RawCollection)
    (done : list (RawCollection * RawVariable)) (st : BuildState) : Prop := {
  (* a token path has an entry exactly when it has a claim *)
  inv_keys : forall b p,
    is_Some (Obj.get p (bucket_get (tokensRaw st) b))
    <-> is_Some (bucket_get (tokenPathToFirst st) b !! p);
  (* a claim was made by a visited variable that routes to the bucket *)
  inv_claim : forall b p c,
    bucket_get (tokenPathToFirst st) b !! p = Some c ->
    exists col v,
      (col, v) ∈ done /\ c = claim_of col v
      /\ routeBucket col v = Some b
      /\ buildVarIdToTokenPath cols !! var_id v = Some p;
  (* no claim is made on a token path that names an inherited member *)
  inv_plain : forall b p,
    is_Some (bucket_get (tokenPathToFirst st) b !! p) ->
    Obj.proto_member p = false;
  (* an entry was built from a visited variable with the claimant's
     identifier *)
  inv_entry : forall b p entry,
    Obj.get p (bucket_get (tokensRaw st) b) = Some entry ->
    exists col v c,
      (col, v) ∈ done
      /\ bucket_get (tokenPathToFirst st) b !! p = Some c
      /\ fc_varId c = var_id v
      /\ routeBucket col v = Some b
      /\ buildVarIdToTokenPath cols !! var_id v = Some p
      /\ entry = buildEntry col (buildVarIdToTokenPath cols) v;
  (* a duplicate error names a visited variable, its bucket and its token
     path, and either the claim of a variable with another identifier or,
     for a token path that names an inherited member, no claimant *)
  inv_dup : forall d,
    d ∈ duplicateErrors st ->
    exists col v,
      (col, v) ∈ done
      /\ routeBucket col v = Some (de_bucket d)
      /\ buildVarIdToTokenPath cols !! var_id v = Some (de_tokenPath d)
      /\ ((exists c,
             bucket_get (tokenPathToFirst st) (de_bucket d) !! de_tokenPath d
             = Some c
             /\ fc_varId c <> var_id v
             /\ d = duplicate_of (de_bucket d) (de_tokenPath d) c col v)
          \/ (Obj.proto_member (de_tokenPath d) = true
              /\ d = inherited_duplicate_of (de_bucket d) (de_tokenPath d)
                       col v));
  (* a visited variable that routes to a bucket holds the claim or is
     reported *)
  inv_done : forall col v b,
    (col, v) ∈ done -> routeBucket col v = Some b ->
    exists p,
      buildVarIdToTokenPath cols !! var_id v = Some p
      /\ ((exists c,
             bucket_get (tokenPathToFirst st) b !! p = Some c
             /\ (fc_varId c = var_id v
                 \/ duplicate_of b p c col v ∈ duplicateErrors st))
          \/ (Obj.proto_member p = true
              /\ inherited_duplicate_of b p col v ∈ duplicateErrors st))
}.

(** The cell [(p, m)] of the raw and of the resolved table of a bucket. *)
Definition raw_cell (raw : TokensRaw) (bucket : Bucket) (p m : string)
  : option TokenValueRaw :=
  Obj.get p (bucket_get raw bucket) ≫= Obj.get m.

Definition resolved_cell (res : Buckets ResolvedTable) (bucket : Bucket)
    (p m : string) : option ResolvedCell :=
  Obj.get p (bucket_get res bucket) ≫= Obj.get m.

(** The errors that resolving the cell [(p, m)] alone reports. *)
Definition cell_errors (raw : TokensRaw) (bucket : Bucket) (p m : string)
  : list ResolutionError :=
  errors (snd (resolveRef p m raw bucket (mkRState ∅ [] []))).

(** The errors of the cells of one token path, mode names ascending. *)
Definition row_errors (raw : TokensRaw) (bucket : Bucket) (p : string)
  : list ResolutionError :=
  match Obj.get p (bucket_get raw bucket) with
  | Some entry => List.flat_map (cell_errors raw bucket p) (sorted_keys entry)
  | None => []
  end.

(** The errors of the cells of one bucket, token paths ascending. *)
Definition bucket_errors (raw : TokensRaw) (bucket : Bucket)
  : list ResolutionError :=
  List.flat_map (row_errors raw bucket) (sorted_keys (bucket_get raw bucket)).

(** The raw value is a reference. *)
Definition is_ref (tv : TokenValueRaw) : bool :=
  match tv with TVRef _ => true | _ => false end.

(** No mode value of the snapshot is flagged as an alias. *)
Definition alias_free (collections : list RawCollection) : Prop :=
  forall col v k mv,
    in_snapshot collections col v ->
    Obj.get k (valuesPerMode v) = Some mv -> isAlias mv = false.

(** A frame of the document whose width satisfies [p]. *)
Definition has_frame (p : Q -> bool) (pages : list (list SceneNode)) : Prop :=
  exists page node,
    page ∈ pages /\ node ∈ page /\ node_type node = "FRAME"
    /\ p (node_width node) = true.

(** The widths that count as mobile and as web. *)
Definition mobile_width (w : Q) : bool := Qle_bool 320 w && Qle_bool w 430.

Definition web_width (w : Q) : bool := Qle_bool 768 w.

(** The last text style whose name normalizes to [p]. *)
Definition last_style (p : string) (textStyles : list TextStyle)
  : option TextStyle :=
  last (List.filter
          (fun s => bool_decide (nameToTokenPath (ts_name s) = p)) textStyles).

(** The entry of [collections] that the export writes for [c] with its
    modes in the order [ms]. *)
Definition collection_entry (c : RawCollection) (ms : list Mode) : json :=
  JObj [("id", JStr (col_id c));
        ("name", JStr (col_name c));
        ("modes", JArr (List.map Mode_json ms))].

(** A comparator that orders any two strings one way or the other. *)
Definition total_cmp (cmp : string -> string -> Z) : Prop :=
  forall a b, (cmp a b <= 0)%Z \/ (cmp b a <= 0)%Z.

(** Hexadecimal digits, for the spelling of numbers by [toString16]. *)
Module HexDigits.

Import Hexadecimal.

(** The character of a hexadecimal digit. *)
Definition digit_char (n : N) : ascii := hex_digit (Z.of_N n).

(** The lowest digit of a little-endian number, alone. *)
Definition unit_digit (d : uint) : uint :=
  match d with
  | Nil => Nil
  | D0 _ => D0 Nil | D1 _ => D1 Nil | D2 _ => D2 Nil | D3 _ => D3 Nil
  | D4 _ => D4 Nil | D5 _ => D5 Nil | D6 _ => D6 Nil | D7 _ => D7 Nil
  | D8 _ => D8 Nil | D9 _ => D9 Nil | Da _ => Da Nil | Db _ => Db Nil
  | Dc _ => Dc Nil | Dd _ => Dd Nil | De _ => De Nil | Df _ => Df Nil
  end.

End HexDigits.

(** ** Further sample inputs *)

(** [top] refers to [a], which is on the two-token cycle of
    [cycle_table]. *)
Definition lasso_table : TokensRaw :=
  mkBuckets
    [("top", [("Light", TVRef "a")]);
     ("a", [("Light", TVRef "b")]);
     ("b", [("Light", TVRef "a")])]
    [] [].

(** The same table with the cycle cut: [a] is a literal. *)
Definition lasso_cut_table : TokensRaw :=
  mkBuckets
    [("top", [("Light", TVRef "a")]);
     ("a", [("Light", TVColor (0, 0, 0, 1)%Q "#000000")]);
     ("b", [("Light", TVRef "a")])]
    [] [].

(** A document for the examples: one variable that aliases another, and an
    identifier that the document does not know. *)
Definition sample_document (id : string) : option FigmaVariable :=
  if String.eqb id "V:ink" then
    Some (mkFigmaVariable "V:ink" "Ink" "COLOR" [("1:0", VColor 0 0 0 None)])
  else if String.eqb id "V:text" then
    Some (mkFigmaVariable "V:text" "Text/Body" "COLOR"
            [("1:0", VAlias "V:ink")])
  else None.

Definition sample_collections : list VariableCollection :=
  [mkVariableCollection "C:1" "Theme" [mkFigmaMode "1:0" "Light"]
     ["V:ink"; "V:gone"; "V:text"]].

(** The same document without the alias. *)
Definition plain_document (id : string) : option FigmaVariable :=
  if String.eqb id "V:ink" then
    Some (mkFigmaVariable "V:ink" "Ink" "COLOR" [("1:0", VColor 0 0 0 None)])
  else None.

(** A phone frame, a frame of a width between the two ranges, and a
    rectangle. *)
Definition sample_pages : list (list SceneNode) :=
  [[mkSceneNode "RECTANGLE" 1440; mkSceneNode "FRAME" 600];
   [mkSceneNode "FRAME" 390]].

(** Two text styles whose names normalize to the same token path, and a
    third one. *)
Definition sample_styles : list TextStyle :=
  [mkTextStyle "Heading/XL" "Inter" 32;
   mkTextStyle "Body" "Inter" 16;
   mkTextStyle "heading / xl" "Georgia" 40].

(** Comparison of code units, a comparator for the examples. *)
Definition code_unit_compare (a b : string) : Z :=
  match String.compare a b with
  | Lt => (-1)%Z
  | Eq => 0%Z
  | Gt => 1%Z
  end.

(** * Properties *)

Example nameToTokenPath_accent :
  nameToTokenPath "Accent/Primary/100" = "accent.primary.100".
Proof. reflexivity. Qed.

Example nameToTokenPath_spaces :
  nameToTokenPath " Brand  Colors / / Deep   Blue " = "brand-colors.deep-blue".
Proof. reflexivity. Qed.

Example nameToTokenPath_degenerate : nameToTokenPath " / /" = "".
Proof. reflexivity. Qed.

Example rgbaToHex_opaque : rgbaToHex (88 # 100) (95 # 100) 1 1 = "#e0f2ff".
Proof. vm_compute. reflexivity. Qed.

Example rgbaToHex_alpha : rgbaToHex 1 0 (1 # 2) (1 # 2) = "#ff008080".
Proof. vm_compute. reflexivity. Qed.

Example sortObjectKeys_index_keys :
  sortObjectKeys (JObj [("b", JNull); ("9", JNull); ("a", JNull); ("10", JNull)])
  = JObj [("9", JNull); ("10", JNull); ("a", JNull); ("b", JNull)].
Proof. vm_compute. reflexivity. Qed.

Example array_index_samples :
  Obj.array_index "0" = Some 0%N /\ Obj.array_index "10" = Some 10%N
  /\ Obj.array_index "007" = None /\ Obj.array_index "" = None
  /\ Obj.array_index "-1" = None /\ Obj.array_index "1.5" = None
  /\ Obj.array_index "4294967294" = Some 4294967294%N
  /\ Obj.array_index "4294967295" = None.
Proof. vm_compute. repeat split. Qed.

Example set_enumeration_order :
  Obj.set "2" 0%nat (Obj.set "b" 1%nat (Obj.set "10" 2%nat (Obj.set "a" 3%nat [])))
  = [("2", 0%nat); ("10", 2%nat); ("a", 3%nat); ("b", 1%nat)]
  /\ Obj.set "a" 9%nat [("a", 3%nat); ("b", 1%nat)] = [("a", 9%nat); ("b", 1%nat)].
Proof. vm_compute. split; reflexivity. Qed.

(** Single-mode fallback and a dangling alias, end to end. *)
Example fallback_scenario_export (localeCompare : string -> string -> Z)
    (now : string) :
  let out := buildExportModel localeCompare now fallback_scenario in
  json_path ["tokensResolved"; "color"] out
  = Some (JObj [("base.ink", JObj [("default", JStr "#000000")]);
                ("ghost", JObj [("Light", JNull)]);
                ("themed.ink",
                 JObj [("Dark", JStr "#000000"); ("Light", JStr "#000000")])])
  /\ json_path ["tokensRaw"; "color"; "ghost"] out
     = Some (JObj [("Light", JObj [("$ref", JStr "spacing.gap")])])
  /\ json_path ["errors"] out
     = Some (JArr [JObj [("tokenPath", JStr "ghost");
                         ("requestedModeName", JStr "Light");
                         ("reason", JStr "missing token");
                         ("chain", JArr [JStr "ghost"; JStr "spacing.gap"])]]).
Proof. vm_compute. repeat split. Qed.


(** ** Path normalizer *)

Module NormalizeFacts.

Ltac all_chars c :=
  destruct c as [[] [] [] [] [] [] [] []]; vm_compute; try reflexivity;
  try discriminate; auto.

Lemma lower_char_clean c :
  no_slash c = true -> Str.is_ws (Str.lower_char c) = false ->
  clean_char (Str.lower_char c) = true.
Proof. all_chars c. Qed.

Lemma clean_char_lower c : clean_char c = true -> Str.lower_char c = c.
Proof. all_chars c. Qed.

Lemma clean_char_ws c : clean_char c = true -> Str.is_ws c = false.
Proof. all_chars c. Qed.

Lemma clean_char_slash c : clean_char c = true -> Ascii.eqb c "/" = false.
Proof. all_chars c. Qed.

Lemma all_app p (s1 s2 : string) :
  Str.all p (s1 ++ s2)%string = Str.all p s1 && Str.all p s2.
Proof.
  induction s1 as [|c s1 IH]; simpl; [reflexivity|].
  rewrite IH. apply andb_assoc.
Qed.

Lemma all_trimStart p s : Str.all p s = true -> Str.all p (Str.trimStart s) = true.
Proof.
  induction s as [|c s IH]; simpl; [reflexivity|].
  intros H. destruct (Str.is_ws c); [|exact H].
  apply andb_prop in H. apply IH, H.
Qed.

Lemma all_trimEnd p s : Str.all p s = true -> Str.all p (Str.trimEnd s) = true.
Proof.
  induction s as [|c s IH]; simpl; [reflexivity|].
  intros H. apply andb_prop in H. destruct H as [Hc Hs].
  specialize (IH Hs). destruct (Str.trimEnd s) as [|c' s'].
  - destruct (Str.is_ws c); simpl; [reflexivity|]. rewrite Hc. reflexivity.
  - simpl in *. rewrite Hc. exact IH.
Qed.

Lemma all_trim p s : Str.all p s = true -> Str.all p (Str.trim s) = true.
Proof. intros H. apply all_trimEnd, all_trimStart, H. Qed.

Lemma collapse_lower_clean b s :
  Str.all no_slash s = true ->
  Str.all clean_char (Str.collapse_ws b (Str.toLowerCase s)) = true.
Proof.
  revert b. induction s as [|c s IH]; intros b H; simpl; [reflexivity|].
  simpl in H. apply andb_prop in H. destruct H as [Hc Hs].
  destruct (Str.is_ws (Str.lower_char c)) eqn:Hws.
  - destruct b; simpl; auto.
  - simpl. rewrite (lower_char_clean c Hc Hws). simpl. auto.
Qed.

Lemma normalize_segment_clean seg :
  Str.all no_slash seg = true -> Str.all clean_char (normalize_segment seg) = true.
Proof.
  intros H. unfold normalize_segment, Str.replace_ws_runs.
  apply collapse_lower_clean, all_trim, H.
Qed.

Lemma split_no_slash s :
  Forall (fun seg => Str.all no_slash seg = true) (Str.split "/" s).
Proof.
  induction s as [|c s IH]; simpl.
  - constructor; [reflexivity|constructor].
  - destruct (Ascii.eqb c "/") eqn:Hc.
    + constructor; [reflexivity|exact IH].
    + destruct (Str.split "/" s) as [|h r].
      * constructor; [|constructor]. simpl. unfold no_slash. rewrite Hc. reflexivity.
      * inversion IH; subst. constructor; [|assumption].
        simpl. unfold no_slash at 1. rewrite Hc. simpl. assumption.
Qed.

Lemma join_clean l :
  Forall (fun seg => Str.all clean_char seg = true) l ->
  Str.all clean_char (Str.join "." l) = true.
Proof.
  unfold Str.join. induction 1 as [|x l Hx Hl IH]; simpl; [reflexivity|].
  destruct l as [|y l]; [exact Hx|].
  rewrite all_app, Hx. simpl. exact IH.
Qed.

(** The normalizer's output has no separator, no whitespace and no
    upper-case letter. *)
Lemma nameToTokenPath_clean name :
  Str.all clean_char (nameToTokenPath name) = true.
Proof.
  unfold nameToTokenPath. apply join_clean.
  apply List.Forall_forall. intros seg Hin.
  apply List.filter_In in Hin. destruct Hin as [Hin _].
  apply List.in_map_iff in Hin. destruct Hin as [s0 [<- Hin]].
  apply normalize_segment_clean.
  pose proof (split_no_slash name) as HF.
  rewrite List.Forall_forall in HF. apply HF, Hin.
Qed.

Lemma split_clean s : Str.all clean_char s = true -> Str.split "/" s = [s].
Proof.
  induction s as [|c s IH]; simpl; [reflexivity|].
  intros H. apply andb_prop in H. destruct H as [Hc Hs].
  rewrite (clean_char_slash c Hc), (IH Hs). reflexivity.
Qed.

Lemma trimStart_clean s : Str.all clean_char s = true -> Str.trimStart s = s.
Proof.
  destruct s as [|c s]; simpl; [reflexivity|].
  intros H. apply andb_prop in H. destruct H as [Hc _].
  rewrite (clean_char_ws c Hc). reflexivity.
Qed.

Lemma trimEnd_clean s : Str.all clean_char s = true -> Str.trimEnd s = s.
Proof.
  induction s as [|c s IH]; simpl; [reflexivity|].
  intros H. apply andb_prop in H. destruct H as [Hc Hs].
  rewrite (IH Hs). destruct s; [|reflexivity].
  rewrite (clean_char_ws c Hc). reflexivity.
Qed.

Lemma toLowerCase_clean s : Str.all clean_char s = true -> Str.toLowerCase s = s.
Proof.
  induction s as [|c s IH]; simpl; [reflexivity|].
  intros H. apply andb_prop in H. destruct H as [Hc Hs].
  rewrite (clean_char_lower c Hc), (IH Hs). reflexivity.
Qed.

Lemma collapse_ws_clean s :
  Str.all clean_char s = true -> Str.collapse_ws false s = s.
Proof.
  induction s as [|c s IH]; simpl; [reflexivity|].
  intros H. apply andb_prop in H. destruct H as [Hc Hs].
  rewrite (clean_char_ws c Hc), (IH Hs). reflexivity.
Qed.

Lemma normalize_segment_fixed s :
  Str.all clean_char s = true -> normalize_segment s = s.
Proof.
  intros H. unfold normalize_segment, Str.replace_ws_runs, Str.trim.
  rewrite (trimStart_clean s H), (trimEnd_clean s H), (toLowerCase_clean s H).
  apply collapse_ws_clean, H.
Qed.

Lemma nameToTokenPath_fixed s :
  Str.all clean_char s = true -> nameToTokenPath s = s.
Proof.
  intros H. unfold nameToTokenPath.
  rewrite (split_clean s H). simpl. rewrite (normalize_segment_fixed s H).
  destruct s; reflexivity.
Qed.

End NormalizeFacts.

(** C9.  The path normalizer is a total function; its result has no "/",
    no whitespace and no upper-case letter, it is the result itself when
    the name is already such a string, and so normalizing a normalized
    path returns it unchanged. *)
Theorem nameToTokenPath_idempotent (name : string) :
  Str.all clean_char (nameToTokenPath name) = true
  /\ nameToTokenPath (nameToTokenPath name) = nameToTokenPath name.
Proof.
  split; [apply NormalizeFacts.nameToTokenPath_clean|].
  apply NormalizeFacts.nameToTokenPath_fixed,
    NormalizeFacts.nameToTokenPath_clean.
Qed.

Example nameToTokenPath_twice :
  nameToTokenPath (nameToTokenPath " Brand  Colors / / Deep   Blue ")
  = "brand-colors.deep-blue".
Proof. reflexivity. Qed.

(** ** Hexadecimal colours *)

Module HexFacts.

Lemma pad_byte_table :
  forallb (fun n => String.eqb (pad (Z.of_nat n)) (hex2 (Z.of_nat n)))
    (List.seq 0 256) = true.
Proof. vm_compute. reflexivity. Qed.

(** On a byte, [pad] is the two-digit lower-case hexadecimal spelling. *)
Lemma pad_byte n : (0 <= n <= 255)%Z -> pad n = hex2 n.
Proof.
  intros Hn. pose proof pad_byte_table as H.
  rewrite List.forallb_forall in H.
  specialize (H (Z.to_nat n)).
  rewrite Z2Nat.id in H by lia.
  apply String.eqb_eq, H, List.in_seq. lia.
Qed.

Lemma last2_length s : (2 <= String.length s)%nat -> String.length (Str.last2 s) = 2%nat.
Proof.
  induction s as [|c s IH]; simpl; [lia|].
  destruct s as [|c1 s]; simpl in *; [lia|].
  destruct s as [|c2 s]; [reflexivity|].
  intros _. apply IH. simpl. lia.
Qed.

Lemma hex_string_nonempty d :
  (1 <= String.length (HexadecimalString.NilZero.string_of_uint d))%nat.
Proof.
  unfold HexadecimalString.NilZero.string_of_uint.
  destruct d; simpl; lia.
Qed.

Lemma length_app (s1 s2 : string) :
  String.length (s1 ++ s2)%string = (String.length s1 + String.length s2)%nat.
Proof. induction s1 as [|c s1 IH]; simpl; [reflexivity|]. rewrite IH. reflexivity. Qed.

Lemma toString16_nonempty n : (1 <= String.length (toString16 n))%nat.
Proof.
  destruct n as [|p|p]; unfold toString16.
  - simpl. lia.
  - apply hex_string_nonempty.
  - rewrite length_app. simpl. lia.
Qed.

(** [pad] always yields exactly two characters. *)
Lemma pad_length n : String.length (pad n) = 2%nat.
Proof.
  unfold pad. apply last2_length.
  rewrite length_app. pose proof (toString16_nonempty n).
  change (String.length "0") with 1%nat. lia.
Qed.

(** A channel in [0,1] rounds to a byte. *)
Lemma math_round_byte (x : Q) :
  (0 <= x)%Q -> (x <= 1)%Q -> (0 <= math_round (x * 255) <= 255)%Z.
Proof.
  intros H0 H1. unfold math_round. split.
  - apply (Z.le_trans _ (Qfloor (1 # 2))); [discriminate|].
    apply Qfloor_resp_le. lra.
  - apply (Z.le_trans _ (Qfloor (511 # 2))); [|discriminate].
    apply Qfloor_resp_le. lra.
Qed.

Lemma rgbaToHex_opaque_eq r g b a :
  (1 <= a)%Q ->
  rgbaToHex r g b a
  = ("#" ++ pad (math_round (r * 255)) ++ pad (math_round (g * 255))
         ++ pad (math_round (b * 255)))%string.
Proof.
  intros Ha. unfold rgbaToHex.
  apply Qle_bool_iff in Ha. rewrite Ha. reflexivity.
Qed.

Lemma rgbaToHex_alpha_eq r g b a :
  (a < 1)%Q ->
  rgbaToHex r g b a
  = ("#" ++ pad (math_round (r * 255)) ++ pad (math_round (g * 255))
         ++ pad (math_round (b * 255)) ++ pad (math_round (a * 255)))%string.
Proof.
  intros Ha. unfold rgbaToHex.
  destruct (Qle_bool 1 a) eqn:E; [|reflexivity].
  apply Qle_bool_iff in E. lra.
Qed.

End HexFacts.

(** C7.  A literal colour of declared type COLOR with [r], [g], [b] in
    [0,1] (and [a] defaulting to 1) classifies to its RGBA with the hex
    string ["#" RR GG BB] followed by an alpha pair exactly when [a < 1]:
    7 characters when [a >= 1], 9 when [a < 1], two lower-case hex digits
    per channel (for the alpha pair when [0 <= a]). *)
Theorem rgbaToHex_alpha_iff_below_one
    (r g b : Q) (a : option Q) (ids : gmap string string) :
  (0 <= r)%Q /\ (r <= 1)%Q -> (0 <= g)%Q /\ (g <= 1)%Q ->
  (0 <= b)%Q /\ (b <= 1)%Q ->
  let alpha := default 1%Q a in
  let R := math_round (r * 255) in
  let G := math_round (g * 255) in
  let B := math_round (b * 255) in
  let A := math_round (alpha * 255) in
  exists hex,
    buildTokenValueRaw (VColor r g b a) false ids "COLOR"
    = Some (TVColor (r, g, b, alpha) hex)
    /\ hex = rgbaToHex r g b alpha
    /\ (0 <= R <= 255)%Z /\ (0 <= G <= 255)%Z /\ (0 <= B <= 255)%Z
    /\ ((1 <= alpha)%Q ->
        hex = ("#" ++ hex2 R ++ hex2 G ++ hex2 B)%string
        /\ String.length hex = 7%nat)
    /\ ((alpha < 1)%Q ->
        hex = ("#" ++ hex2 R ++ hex2 G ++ hex2 B ++ pad A)%string
        /\ String.length hex = 9%nat
        /\ ((0 <= alpha)%Q -> (0 <= A <= 255)%Z /\ pad A = hex2 A))
    /\ (String.length hex = 9%nat <-> (alpha < 1)%Q).
Proof.
  intros [Hr0 Hr1] [Hg0 Hg1] [Hb0 Hb1] alpha R G B A.
  pose proof (HexFacts.math_round_byte r Hr0 Hr1) as HR.
  pose proof (HexFacts.math_round_byte g Hg0 Hg1) as HG.
  pose proof (HexFacts.math_round_byte b Hb0 Hb1) as HB.
  fold R in HR. fold G in HG. fold B in HB.
  exists (rgbaToHex r g b alpha).
  assert (Hop : (1 <= alpha)%Q ->
                rgbaToHex r g b alpha
                = ("#" ++ hex2 R ++ hex2 G ++ hex2 B)%string
                /\ String.length (rgbaToHex r g b alpha) = 7%nat).
  { intros Ha. rewrite (HexFacts.rgbaToHex_opaque_eq r g b alpha Ha).
    fold R G B.
    rewrite !HexFacts.pad_byte by assumption. split; reflexivity. }
  assert (Hal : (alpha < 1)%Q ->
                rgbaToHex r g b alpha
                = ("#" ++ hex2 R ++ hex2 G ++ hex2 B ++ pad A)%string
                /\ String.length (rgbaToHex r g b alpha) = 9%nat).
  { intros Ha. rewrite (HexFacts.rgbaToHex_alpha_eq r g b alpha Ha).
    fold R G B A.
    rewrite !(HexFacts.pad_byte R), !(HexFacts.pad_byte G),
      !(HexFacts.pad_byte B) by assumption.
    split; [reflexivity|].
    rewrite !HexFacts.length_app, (HexFacts.pad_length A). reflexivity. }
  split; [reflexivity|]. split; [reflexivity|].
  split; [exact HR|]. split; [exact HG|]. split; [exact HB|].
  split; [exact Hop|]. split.
  - intros Ha. destruct (Hal Ha) as [E L].
    split; [exact E|]. split; [exact L|].
    intros Ha0.
    assert (HA : (0 <= A <= 255)%Z)
      by (apply HexFacts.math_round_byte; [exact Ha0 | lra]).
    split; [exact HA | apply HexFacts.pad_byte, HA].
  - split.
    + intros L. destruct (Qlt_le_dec alpha 1) as [Hlt|Hge]; [exact Hlt|].
      destruct (Hop Hge) as [_ L7]. rewrite L7 in L. discriminate.
    + intros Ha. apply (Hal Ha).
Qed.

Lemma rgbaToHex_alpha_iff_below_one_witness :
  exists hex,
    buildTokenValueRaw (VColor (88 # 100) (95 # 100) 1 (Some (1 # 2))) false ∅
      "COLOR"
    = Some (TVColor (88 # 100, 95 # 100, 1%Q, 1 # 2) hex)
    /\ hex = "#e0f2ff80".
Proof.
  destruct (rgbaToHex_alpha_iff_below_one (88 # 100) (95 # 100) 1 (Some (1 # 2)) ∅)
    as [hex [H1 [H2 _]]].
  - split; [discriminate | discriminate].
  - split; discriminate.
  - split; discriminate.
  - exists hex. split; [exact H1|]. rewrite H2. vm_compute. reflexivity.
Defined.

(** ** Plain objects *)

Module ObjFacts.
Section facts.
Context {V : Type}.
Implicit Types (o : jsobj V) (k : string) (v : V).

Lemma get_None_keys o k : Obj.get k o = None <-> k ∉ Obj.keys o.
Proof.
  induction o as [|[k' v'] o IH]; simpl.
  - split; [intros _; apply not_elem_of_nil | reflexivity].
  - rewrite not_elem_of_cons. case_decide; subst.
    + split; [discriminate | intros [? _]; congruence].
    + rewrite IH. split; [intros ?; split; congruence | intros [_ ?]; assumption].
Qed.

Lemma get_Some_keys o k : is_Some (Obj.get k o) <-> k ∈ Obj.keys o.
Proof.
  rewrite <- not_eq_None_Some, get_None_keys.
  split; [apply dec_stable | intros ? ?; contradiction].
Qed.

Lemma get_elem_of o k v : Obj.get k o = Some v -> (k, v) ∈ o.
Proof.
  induction o as [|[k' v'] o IH]; simpl; [discriminate|].
  case_decide; subst.
  - intros [= ->]. left.
  - intros H'. right. apply IH, H'.
Qed.

Lemma get_replace_eq o k v :
  is_Some (Obj.get k o) -> Obj.get k (Obj.replace k v o) = Some v.
Proof.
  induction o as [|[k' v'] o IH]; simpl; [intros [? [=]]|].
  case_decide; subst; simpl.
  - intros _. rewrite decide_True; reflexivity.
  - intros Hs. rewrite decide_False by assumption. apply IH, Hs.
Qed.

Lemma get_replace_ne o k k' v :
  k ≠ k' -> Obj.get k' (Obj.replace k v o) = Obj.get k' o.
Proof.
  intros Hne. induction o as [|[k0 v0] o IH]; simpl; [reflexivity|].
  destruct (decide (k0 = k)) as [->|Hk0]; simpl.
  - rewrite !decide_False by assumption. reflexivity.
  - rewrite IH. reflexivity.
Qed.

Lemma keys_replace o k v : Obj.keys (Obj.replace k v o) = Obj.keys o.
Proof.
  induction o as [|[k0 v0] o IH]; simpl; [reflexivity|].
  destruct (decide (k0 = k)) as [->|Hk0]; [reflexivity|].
  change (k0 :: Obj.keys (Obj.replace k v o) = k0 :: Obj.keys o).
  rewrite IH. reflexivity.
Qed.

Lemma get_insert_index_eq o n k v :
  Obj.get k o = None -> Obj.get k (Obj.insert_index n k v o) = Some v.
Proof.
  induction o as [|[k0 v0] o IH]; simpl.
  - intros _. rewrite decide_True; reflexivity.
  - destruct (decide (k0 = k)) as [->|Hk0]; [discriminate|].
    intros Hn. destruct (Obj.array_index k0) as [n'|].
    + destruct (N.ltb n' n); simpl.
      * rewrite decide_False by assumption. apply IH, Hn.
      * rewrite decide_True; reflexivity.
    + simpl. rewrite decide_True; reflexivity.
Qed.

Lemma get_insert_index_ne o n k k' v :
  k ≠ k' -> Obj.get k' (Obj.insert_index n k v o) = Obj.get k' o.
Proof.
  intros Hne. induction o as [|[k0 v0] o IH]; simpl.
  - rewrite decide_False by assumption. reflexivity.
  - destruct (Obj.array_index k0) as [n'|].
    + destruct (N.ltb n' n); simpl.
      * rewrite IH. reflexivity.
      * rewrite (decide_False (P := k = k')) by assumption. reflexivity.
    + simpl. rewrite (decide_False (P := k = k')) by assumption. reflexivity.
Qed.

Lemma keys_insert_index o n k v :
  Obj.keys (Obj.insert_index n k v o) ≡ₚ k :: Obj.keys o.
Proof.
  induction o as [|[k0 v0] o IH]; simpl; [reflexivity|].
  destruct (Obj.array_index k0) as [n'|]; [|reflexivity].
  destruct (N.ltb n' n); [|reflexivity].
  change (k0 :: Obj.keys (Obj.insert_index n k v o) ≡ₚ k :: k0 :: Obj.keys o).
  rewrite IH. apply perm_swap.
Qed.

Lemma get_app o1 o2 k :
  Obj.get k (o1 ++ o2)
  = match Obj.get k o1 with Some v => Some v | None => Obj.get k o2 end.
Proof.
  induction o1 as [|[k0 v0] o1 IH]; simpl; [reflexivity|].
  case_decide; [reflexivity | apply IH].
Qed.

(** Reading back an assignment. *)
Lemma get_set_eq o k v : Obj.get k (Obj.set k v o) = Some v.
Proof.
  unfold Obj.set. destruct (Obj.get k o) eqn:Hg.
  - apply get_replace_eq. rewrite Hg. eauto.
  - destruct (Obj.array_index k).
    + apply get_insert_index_eq, Hg.
    + rewrite get_app, Hg. simpl. rewrite decide_True; reflexivity.
Qed.

Lemma get_set_ne o k k' v : k ≠ k' -> Obj.get k' (Obj.set k v o) = Obj.get k' o.
Proof.
  intros Hne. unfold Obj.set. destruct (Obj.get k o) eqn:Hg.
  - apply get_replace_ne, Hne.
  - destruct (Obj.array_index k).
    + apply get_insert_index_ne, Hne.
    + rewrite get_app. destruct (Obj.get k' o); [reflexivity|].
      simpl. rewrite decide_False by assumption. reflexivity.
Qed.

Lemma get_set o k k' v :
  Obj.get k' (Obj.set k v o) = if decide (k = k') then Some v else Obj.get k' o.
Proof.
  case_decide; subst; [apply get_set_eq | apply get_set_ne; assumption].
Qed.

(** An assignment to a present key keeps the key list; to an absent key
    it adds that key. *)
Lemma keys_set_present o k v :
  is_Some (Obj.get k o) -> Obj.keys (Obj.set k v o) = Obj.keys o.
Proof.
  intros [x Hx]. unfold Obj.set. rewrite Hx. apply keys_replace.
Qed.

Lemma keys_set_absent o k v :
  Obj.get k o = None -> Obj.keys (Obj.set k v o) ≡ₚ k :: Obj.keys o.
Proof.
  intros Hn. unfold Obj.set. rewrite Hn. destruct (Obj.array_index k).
  - apply keys_insert_index.
  - unfold Obj.keys. rewrite List.map_app. simpl.
    symmetry. apply Permutation_cons_append.
Qed.

Lemma elem_of_keys_set o k k' v :
  k' ∈ Obj.keys (Obj.set k v o) <-> k' = k \/ k' ∈ Obj.keys o.
Proof.
  rewrite <- !get_Some_keys, get_set. case_decide; subst.
  - split; [intros _; left; reflexivity | intros _; eauto].
  - split; [intros ?; right; assumption | intros [->|?]; [contradiction|assumption]].
Qed.

Lemma NoDup_keys_set o k v : NoDup (Obj.keys o) -> NoDup (Obj.keys (Obj.set k v o)).
Proof.
  intros Hnd. destruct (Obj.get k o) eqn:Hg.
  - rewrite keys_set_present by (rewrite Hg; eauto). exact Hnd.
  - rewrite (keys_set_absent o k v Hg). apply NoDup_cons. split; [|exact Hnd].
    apply get_None_keys, Hg.
Qed.

(** Assigning the value a key already has changes nothing. *)
Lemma replace_same o k v : Obj.get k o = Some v -> Obj.replace k v o = o.
Proof.
  induction o as [|[k0 v0] o IH]; simpl; [reflexivity|].
  case_decide; subst.
  - intros [= ->]. reflexivity.
  - intros Hg. rewrite (IH Hg). reflexivity.
Qed.

Lemma set_same o k v : Obj.get k o = Some v -> Obj.set k v o = o.
Proof. intros Hg. unfold Obj.set. rewrite Hg. apply replace_same, Hg. Qed.

Lemma replace_replace o k v v' :
  Obj.replace k v' (Obj.replace k v o) = Obj.replace k v' o.
Proof.
  induction o as [|[k0 v0] o IH]; simpl; [reflexivity|].
  destruct (decide (k0 = k)) as [->|Hk0]; simpl.
  - rewrite decide_True; reflexivity.
  - rewrite decide_False by assumption. rewrite IH. reflexivity.
Qed.

End facts.
End ObjFacts.

(** ** Alias resolver *)

Module ResolveFacts.

Lemma unwind_marked key p vis ch errs :
  key ∉ vis ->
  unwind key (mkRState ({[key]} ∪ vis) (ch ++ [p]) errs) = mkRState vis ch errs.
Proof.
  intros Hk. unfold unwind. simpl. f_equal.
  - apply set_eq. intros x.
    rewrite elem_of_difference, elem_of_union, !elem_of_singleton.
    split; [intros [[?|?] ?]; [contradiction|assumption]|].
    intros Hx. split; [right; assumption | intros ->; contradiction].
  - apply removelast_last.
Qed.

Lemma size_list_to_set_le (l : list string) :
  size (list_to_set l : gset string) <= length l.
Proof.
  unfold size, set_size. simpl.
  apply submseteq_length, NoDup_submseteq; [apply NoDup_elements|].
  intros x. rewrite elem_of_elements, elem_of_list_to_set. auto.
Qed.

Lemma unvisited_le raw bucket m vis :
  size (unvisited raw bucket m vis) <= size (token_paths raw bucket).
Proof. apply subseteq_size. unfold unvisited, token_paths. set_solver. Qed.

Lemma token_paths_le raw bucket :
  size (token_paths raw bucket) <= length (Obj.keys (bucket_get raw bucket)).
Proof. apply size_list_to_set_le. Qed.

(** Marking the triple of a present, unmarked token path strictly shrinks
    the set of unmarked token paths. *)
Lemma unvisited_mark raw bucket m vis p :
  is_Some (Obj.get p (bucket_get raw bucket)) ->
  pathKey bucket p m ∉ vis ->
  size (unvisited raw bucket m ({[pathKey bucket p m]} ∪ vis))
  < size (unvisited raw bucket m vis).
Proof.
  intros Hp Hk. apply subset_size. unfold unvisited.
  apply ObjFacts.get_Some_keys in Hp.
  split.
  - intros q. rewrite !elem_of_filter. set_solver.
  - intros Hsub. specialize (Hsub p).
    rewrite !elem_of_filter, !elem_of_list_to_set in Hsub.
    destruct Hsub as [Hc _]; [split; assumption|]. set_solver.
Qed.

(** Termination: one unit of fuel per unmarked token path of the bucket,
    plus one, is always enough. *)
Lemma resolveRef_fuel_enough raw bucket m fuel :
  forall p st,
    size (unvisited raw bucket m (visited st)) < fuel ->
    is_Some (resolveRef_fuel fuel p m raw bucket st).
Proof.
  induction fuel as [|fuel IH]; intros p st Hsz; [lia|].
  simpl. case_decide as Hvis; [eauto|].
  destruct (Obj.get p (bucket_get raw bucket)) as [entry|] eqn:Hp; [|eauto].
  destruct (getValueForMode entry m) as [[[rgba hex|n|refPath]|member]|]; eauto.
  destruct (Obj.get refPath (bucket_get raw bucket)) as [target|] eqn:Href;
    [|eauto].
  destruct (IH refPath
              (mkRState ({[pathKey bucket p m]} ∪ visited st)
                 (chain st ++ [p]) (errors st))) as [[r st2] Hr].
  - simpl.
    assert (Hlt := unvisited_mark raw bucket m (visited st) p
                     (mk_is_Some _ _ Hp) Hvis).
    lia.
  - rewrite Hr. eauto.
Qed.

(** More fuel never changes a result. *)
Lemma resolveRef_fuel_mono raw bucket m fuel :
  forall fuel' p st r,
    resolveRef_fuel fuel p m raw bucket st = Some r ->
    fuel <= fuel' ->
    resolveRef_fuel fuel' p m raw bucket st = Some r.
Proof.
  induction fuel as [|fuel IH]; intros fuel' p st r Hr Hle; [discriminate|].
  destruct fuel' as [|fuel']; [lia|].
  simpl in *. case_decide; [exact Hr|].
  destruct (Obj.get p (bucket_get raw bucket)) as [entry|]; [|exact Hr].
  destruct (getValueForMode entry m) as [[[rgba hex|n|refPath]|member]|]; try exact Hr.
  destruct (Obj.get refPath (bucket_get raw bucket)); [|exact Hr].
  destruct (resolveRef_fuel fuel refPath m raw bucket _) as [[r2 st2]|] eqn:E;
    [|discriminate].
  rewrite (IH fuel' _ _ _ E) by lia. exact Hr.
Qed.

(** The wrapper [resolveRef] agrees with every run that has enough fuel. *)
Lemma resolveRef_eq raw bucket m p st fuel r :
  resolveRef_fuel fuel p m raw bucket st = Some r ->
  resolveRef p m raw bucket st = r.
Proof.
  intros Hr. unfold resolveRef.
  destruct (resolveRef_fuel_enough raw bucket m (resolve_fuel raw bucket) p st)
    as [r' Hr'].
  - unfold resolve_fuel.
    pose proof (unvisited_le raw bucket m (visited st)).
    pose proof (token_paths_le raw bucket). lia.
  - rewrite Hr'.
    destruct (Nat.le_ge_cases fuel (resolve_fuel raw bucket)) as [Hle|Hge].
    + rewrite (resolveRef_fuel_mono _ _ _ _ _ _ _ _ Hr Hle) in Hr'. congruence.
    + rewrite (resolveRef_fuel_mono _ _ _ _ _ _ _ _ Hr' Hge) in Hr. congruence.
Qed.

(** Unwinding: whatever the outcome, [visited] and [chain] are returned as
    they were received, and errors are only appended. *)
Lemma resolveRef_fuel_unwinds raw bucket m fuel :
  forall p st r st',
    resolveRef_fuel fuel p m raw bucket st = Some (r, st') ->
    visited st' = visited st /\ chain st' = chain st
    /\ exists new, errors st' = errors st ++ new.
Proof.
  induction fuel as [|fuel IH]; intros p st r st' Hr; [discriminate|].
  destruct st as [vis ch errs]. simpl in Hr.
  case_decide as Hvis.
  { injection Hr as <- <-. simpl. eauto. }
  assert (Hun : forall e,
    unwind (pathKey bucket p m)
      (push_error e (mkRState ({[pathKey bucket p m]} ∪ vis) (ch ++ [p]) errs))
    = mkRState vis ch (errs ++ [e])).
  { intros e. unfold push_error. simpl.
    rewrite <- (unwind_marked (pathKey bucket p m) p vis ch (errs ++ [e]) Hvis).
    reflexivity. }
  destruct (Obj.get p (bucket_get raw bucket)) as [entry|].
  2:{ rewrite Hun in Hr. injection Hr as <- <-. simpl. eauto. }
  destruct (getValueForMode entry m) as [[[rgba hex|n|refPath]|member]|].
  - rewrite unwind_marked in Hr by assumption. injection Hr as <- <-.
    simpl. split; [reflexivity|]. split; [reflexivity|]. exists []. symmetry. apply app_nil_r.
  - rewrite unwind_marked in Hr by assumption. injection Hr as <- <-.
    simpl. split; [reflexivity|]. split; [reflexivity|]. exists []. symmetry. apply app_nil_r.
  - destruct (Obj.get refPath (bucket_get raw bucket)).
    2:{ rewrite Hun in Hr. injection Hr as <- <-. simpl. eauto. }
    destruct (resolveRef_fuel fuel refPath m raw bucket _) as [[r2 st2]|] eqn:E;
      [|discriminate].
    injection Hr as <- <-.
    destruct (IH _ _ _ _ E) as [Hv [Hc [new He]]].
    destruct st2 as [vis2 ch2 errs2].
    cbn [visited chain errors] in Hv, Hc, He. subst vis2 ch2 errs2.
    rewrite unwind_marked by assumption. cbn [visited chain errors]. eauto.
  - rewrite unwind_marked in Hr by assumption. injection Hr as <- <-.
    simpl. split; [reflexivity|]. split; [reflexivity|]. exists []. symmetry. apply app_nil_r.
  - rewrite Hun in Hr. injection Hr as <- <-. simpl. eauto.
Qed.

(** The error list is write-only: the outcome on a list [errs] is the
    outcome on the empty list with [errs] in front. *)
Lemma resolveRef_fuel_errors raw bucket m fuel :
  forall p vis ch errs,
    resolveRef_fuel fuel p m raw bucket (mkRState vis ch errs)
    = match resolveRef_fuel fuel p m raw bucket (mkRState vis ch []) with
      | Some (r, st') =>
          Some (r, mkRState (visited st') (chain st') (errs ++ errors st'))
      | None => None
      end.
Proof.
  induction fuel as [|fuel IH]; intros p vis ch errs; [reflexivity|].
  simpl. case_decide as Hvis; [reflexivity|].
  destruct (Obj.get p (bucket_get raw bucket)) as [entry|]; [|reflexivity].
  destruct (getValueForMode entry m) as [[[rgba hex|n|refPath]|member]|];
    try (unfold unwind; simpl; rewrite ?app_nil_r; reflexivity).
  destruct (Obj.get refPath (bucket_get raw bucket)); [|reflexivity].
  rewrite IH.
  destruct (resolveRef_fuel fuel refPath m raw bucket
              (mkRState ({[pathKey bucket p m]} ∪ vis) (ch ++ [p]) []))
    as [[r2 st2]|]; reflexivity.
Qed.

Lemma resolveRef_total raw bucket m p st :
  exists r,
    resolveRef_fuel (resolve_fuel raw bucket) p m raw bucket st = Some r
    /\ resolveRef p m raw bucket st = r.
Proof.
  destruct (resolveRef_fuel_enough raw bucket m (resolve_fuel raw bucket) p st)
    as [r Hr].
  - unfold resolve_fuel.
    pose proof (unvisited_le raw bucket m (visited st)).
    pose proof (token_paths_le raw bucket). lia.
  - exists r. split; [exact Hr | apply (resolveRef_eq _ _ _ _ _ _ _ Hr)].
Qed.

Lemma resolveRef_unwinds raw bucket m p st :
  visited (snd (resolveRef p m raw bucket st)) = visited st
  /\ chain (snd (resolveRef p m raw bucket st)) = chain st
  /\ exists new, errors (snd (resolveRef p m raw bucket st)) = errors st ++ new.
Proof.
  destruct (resolveRef_total raw bucket m p st) as [[r st'] [Hf ->]].
  apply (resolveRef_fuel_unwinds _ _ _ _ _ _ _ _ Hf).
Qed.

(** The resolved value does not depend on the errors collected so far. *)
Lemma resolveRef_value_errors raw bucket m p vis ch errs :
  fst (resolveRef p m raw bucket (mkRState vis ch errs))
  = fst (resolveRef p m raw bucket (mkRState vis ch [])).
Proof.
  destruct (resolveRef_total raw bucket m p (mkRState vis ch [])) as [[r st'] [Hf ->]].
  assert (H := resolveRef_fuel_errors raw bucket m (resolve_fuel raw bucket)
                 p vis ch errs).
  rewrite Hf in H. rewrite (resolveRef_eq _ _ _ _ _ _ _ H). reflexivity.
Qed.

Lemma append_inv_tail (s1 s2 t : string) :
  (s1 ++ t)%string = (s2 ++ t)%string -> s1 = s2.
Proof.
  revert s2. induction s1 as [|c s1 IH]; intros [|d s2] H.
  - reflexivity.
  - apply (f_equal String.length) in H.
    rewrite !HexFacts.length_app in H. simpl in H. lia.
  - apply (f_equal String.length) in H.
    rewrite !HexFacts.length_app in H. simpl in H. lia.
  - cbn in H. injection H as -> H. f_equal. apply IH, H.
Qed.

(** For a fixed bucket and mode, distinct token paths have distinct keys. *)
Lemma pathKey_inj bucket m p q : pathKey bucket p m = pathKey bucket q m -> p = q.
Proof.
  unfold pathKey. intros H.
  apply String.app_inj in H. apply String.app_inj in H.
  apply append_inv_tail in H. exact H.
Qed.

Lemma getValueForMode_exact entry m v :
  Obj.get m entry = Some v -> getValueForMode entry m = Some v.
Proof. intros H. unfold getValueForMode. rewrite H. reflexivity. Qed.

(** One step of the resolver on an unmarked triple whose token exists. *)
Lemma resolveRef_fuel_step raw bucket m fuel p st entry :
  pathKey bucket p m ∉ visited st ->
  Obj.get p (bucket_get raw bucket) = Some entry ->
  resolveRef_fuel (S fuel) p m raw bucket st
  = let key := pathKey bucket p m in
    let st1 := mkRState ({[key]} ∪ visited st) (chain st ++ [p]) (errors st) in
    match getValueForMode entry m with
    | None =>
        Some (None,
              mkRState (visited st) (chain st)
                (errors st ++ [mkResolutionError p m "mode mismatch" (chain st ++ [p])]))
    | Some (Stored (TVRef refPath)) =>
        match Obj.get refPath (bucket_get raw bucket) with
        | None =>
            Some (None,
                  mkRState (visited st) (chain st)
                    (errors st ++
                     [mkResolutionError p m "missing token"
                        ((chain st ++ [p]) ++ [refPath])]))
        | Some _ =>
            match resolveRef_fuel fuel refPath m raw bucket st1 with
            | Some (resolved, st2) => Some (resolved, unwind key st2)
            | None => None
            end
        end
    | Some (Stored (TVColor rgba _)) => Some (Some (RRgba rgba), st)
    | Some (Stored (TVNumber n)) => Some (Some (RValue n), st)
    | Some (Inherited _) => Some (None, st)
    end.
Proof.
  intros Hvis Hp. destruct st as [vis ch errs]. simpl in Hvis.
  simpl. rewrite decide_False by assumption. rewrite Hp.
  assert (Hun : forall e,
    unwind (pathKey bucket p m)
      (push_error e (mkRState ({[pathKey bucket p m]} ∪ vis) (ch ++ [p]) errs))
    = mkRState vis ch (errs ++ [e])).
  { intros e. unfold push_error. simpl.
    rewrite <- (unwind_marked (pathKey bucket p m) p vis ch (errs ++ [e]) Hvis).
    reflexivity. }
  destruct (getValueForMode entry m) as [[[rgba hex|n|refPath]|member]|].
  - rewrite unwind_marked by assumption. reflexivity.
  - rewrite unwind_marked by assumption. reflexivity.
  - destruct (Obj.get refPath (bucket_get raw bucket)); [reflexivity|].
    rewrite Hun. reflexivity.
  - rewrite unwind_marked by assumption. reflexivity.
  - rewrite Hun. reflexivity.
Qed.

End ResolveFacts.

(** ** Resolution pass *)

Module PassFacts.

Lemma get_set_cell_eq {V} (t : jsobj (jsobj V)) p m (v : V) row :
  Obj.get p t = Some row ->
  Obj.get p (set_cell p m v t) = Some (Obj.set m v row).
Proof. intros H. unfold set_cell. rewrite H. apply ObjFacts.get_set_eq. Qed.

Lemma get_set_cell_ne {V} (t : jsobj (jsobj V)) p q m (v : V) :
  p ≠ q -> Obj.get q (set_cell p m v t) = Obj.get q t.
Proof.
  intros H. unfold set_cell. destruct (Obj.get p t); [|reflexivity].
  apply ObjFacts.get_set_ne, H.
Qed.

Lemma keys_set_cell {V} (t : jsobj (jsobj V)) p m (v : V) :
  Obj.keys (set_cell p m v t) = Obj.keys t.
Proof.
  unfold set_cell. destruct (Obj.get p t) eqn:H; [|reflexivity].
  apply ObjFacts.keys_set_present. rewrite H. eauto.
Qed.

Lemma resolveModes_cons raw bucket p m M res errs :
  resolveModes raw bucket p (m :: M) (res, errs)
  = resolveModes raw bucket p M
      (set_cell p m
         (resolvedCell bucket
            (fst (resolveRef p m raw bucket (mkRState ∅ [] errs)))) res,
       errors (snd (resolveRef p m raw bucket (mkRState ∅ [] errs)))).
Proof.
  unfold resolveModes. simpl.
  destruct (resolveRef p m raw bucket (mkRState ∅ [] errs)) as [r st].
  reflexivity.
Qed.

(** The loop over the modes of [p] rewrites row [p] only, and writes
    there the clean-state cell of every listed mode. *)
Lemma resolveModes_spec raw bucket p M :
  forall res errs row0,
    Obj.get p res = Some row0 ->
    exists row1,
      Obj.get p (fst (resolveModes raw bucket p M (res, errs))) = Some row1
      /\ (forall m, Obj.get m row1
                    = if decide (m ∈ M) then Some (cell_of raw bucket p m)
                      else Obj.get m row0)
      /\ (forall q, q ≠ p ->
                    Obj.get q (fst (resolveModes raw bucket p M (res, errs)))
                    = Obj.get q res)
      /\ Obj.keys (fst (resolveModes raw bucket p M (res, errs))) = Obj.keys res.
Proof.
  induction M as [|m M IH]; intros res errs row0 Hrow.
  - exists row0. split; [exact Hrow|]. split; [|split; reflexivity].
    intros m. rewrite decide_False by apply not_elem_of_nil. reflexivity.
  - rewrite resolveModes_cons.
    set (c := resolvedCell bucket
                (fst (resolveRef p m raw bucket (mkRState ∅ [] errs)))).
    assert (Hc : c = cell_of raw bucket p m).
    { unfold c, cell_of. rewrite ResolveFacts.resolveRef_value_errors. reflexivity. }
    destruct (IH (set_cell p m c res)
                (errors (snd (resolveRef p m raw bucket (mkRState ∅ [] errs))))
                (Obj.set m c row0)) as [row1 [H1 [H2 [H3 H4]]]].
    { apply get_set_cell_eq, Hrow. }
    exists row1. split; [exact H1|]. split; [|split].
    + intros m'. rewrite H2. rewrite ObjFacts.get_set.
      destruct (decide (m' ∈ M)) as [Hin|Hnin].
      * rewrite decide_True by (right; exact Hin). reflexivity.
      * destruct (decide (m = m')) as [->|Hne].
        -- rewrite decide_True by left. rewrite Hc. reflexivity.
        -- rewrite decide_False; [reflexivity|].
           rewrite elem_of_cons. intros [->|?]; contradiction.
    + intros q Hq. rewrite H3 by exact Hq. apply get_set_cell_ne. congruence.
    + rewrite H4. apply keys_set_cell.
Qed.

Lemma elem_of_sorted_keys {V} (o : jsobj V) k : k ∈ sorted_keys o <-> k ∈ Obj.keys o.
Proof. unfold sorted_keys. rewrite merge_sort_Permutation. reflexivity. Qed.

Lemma pass_step_inv raw bucket L acc p :
  pass_inv raw bucket L (fst acc) ->
  pass_inv raw bucket (L ++ [p]) (fst (pass_step raw bucket acc p)).
Proof.
  intros Hinv. unfold pass_step.
  destruct (Obj.get p (bucket_get raw bucket)) as [entry|] eqn:Hp.
  - destruct (resolveModes_spec raw bucket p (sorted_keys entry)
                (Obj.set p [] (fst acc)) (snd acc) [])
      as [row1 [H1 [H2 [H3 _]]]].
    { apply ObjFacts.get_set_eq. }
    intros q. destruct (decide (q = p)) as [->|Hq].
    + rewrite H1. split; [apply elem_of_app; right; left|].
      exists entry. split; [exact Hp|]. intros m. rewrite H2.
      destruct (decide (m ∈ sorted_keys entry)) as [Hin|Hnin].
      * rewrite decide_True by (apply elem_of_sorted_keys, Hin). reflexivity.
      * rewrite decide_False; [reflexivity|].
        intros Hin. apply Hnin, elem_of_sorted_keys, Hin.
    + rewrite (H3 q Hq), ObjFacts.get_set_ne by congruence.
      specialize (Hinv q). destruct (Obj.get q (fst acc)) as [row|].
      * destruct Hinv as [Hin Hrest]. split; [apply elem_of_app; left; exact Hin|].
        exact Hrest.
      * destruct Hinv as [Hnin|Hnone]; [left|right; exact Hnone].
        rewrite elem_of_app, list_elem_of_singleton. intros [?|?]; contradiction.
  - intros q. specialize (Hinv q). destruct (Obj.get q (fst acc)) as [row|].
    + destruct Hinv as [Hin Hrest]. split; [apply elem_of_app; left; exact Hin|].
      exact Hrest.
    + destruct (decide (q = p)) as [->|Hq]; [right; exact Hp|].
      destruct Hinv as [Hnin|Hnone]; [left|right; exact Hnone].
      rewrite elem_of_app, list_elem_of_singleton. intros [?|?]; contradiction.
Qed.

Lemma pass_fold_inv raw bucket L2 :
  forall L1 acc,
    pass_inv raw bucket L1 (fst acc) ->
    pass_inv raw bucket (L1 ++ L2)
      (fst (fold_left (pass_step raw bucket) L2 acc)).
Proof.
  induction L2 as [|p L2 IH]; intros L1 acc Hinv; simpl.
  - rewrite app_nil_r. exact Hinv.
  - replace (L1 ++ p :: L2) with ((L1 ++ [p]) ++ L2)
      by (rewrite <- app_assoc; reflexivity).
    apply IH, pass_step_inv, Hinv.
Qed.

Lemma resolveBucket_inv raw bucket errs :
  pass_inv raw bucket (sorted_keys (bucket_get raw bucket))
    (fst (resolveBucket raw bucket errs)).
Proof.
  apply (pass_fold_inv raw bucket (sorted_keys (bucket_get raw bucket)) [] ([], errs)).
  intros p. simpl. left. apply not_elem_of_nil.
Qed.

(** Every row of the raw table has a row in the resolved table, with one
    cell per raw mode, holding the clean-state resolution of that cell. *)
Lemma resolveBucket_row raw bucket errs p entry :
  Obj.get p (bucket_get raw bucket) = Some entry ->
  exists row,
    Obj.get p (fst (resolveBucket raw bucket errs)) = Some row
    /\ forall m, Obj.get m row
                 = if decide (m ∈ Obj.keys entry)
                   then Some (cell_of raw bucket p m) else None.
Proof.
  intros Hp. pose proof (resolveBucket_inv raw bucket errs p) as H.
  destruct (Obj.get p (fst (resolveBucket raw bucket errs))) as [row|].
  - destruct H as [_ [entry' [He Hm]]]. rewrite Hp in He. injection He as <-.
    exists row. split; [reflexivity | exact Hm].
  - destruct H as [Hnin|Hnone]; [|congruence].
    exfalso. apply Hnin, elem_of_sorted_keys, ObjFacts.get_Some_keys.
    rewrite Hp. eauto.
Qed.

Lemma resolveBucket_absent raw bucket errs p :
  Obj.get p (bucket_get raw bucket) = None ->
  Obj.get p (fst (resolveBucket raw bucket errs)) = None.
Proof.
  intros Hp. pose proof (resolveBucket_inv raw bucket errs p) as H.
  destruct (Obj.get p (fst (resolveBucket raw bucket errs))) as [row|];
    [|reflexivity].
  destruct H as [_ [entry [He _]]]. congruence.
Qed.

End PassFacts.

(** ** Cycles *)

Module CycleFacts.

(** A two-token alias cycle, entered at [a]. *)
Lemma resolve_cycle raw bucket a b m ea eb errs :
  a ≠ b ->
  Obj.get a (bucket_get raw bucket) = Some ea -> Obj.get m ea = Some (TVRef b) ->
  Obj.get b (bucket_get raw bucket) = Some eb -> Obj.get m eb = Some (TVRef a) ->
  resolveRef a m raw bucket (mkRState ∅ [] errs)
  = (None, mkRState ∅ [] (errs ++ [mkResolutionError a m "cycle" [a; b; a]])).
Proof.
  intros Hab Ha Hma Hb Hmb.
  apply (ResolveFacts.resolveRef_eq raw bucket m a _ 3).
  assert (Hka : pathKey bucket a m ∉ (∅ : gset string)) by apply not_elem_of_empty.
  assert (Hkb : pathKey bucket b m ∉ ({[pathKey bucket a m]} ∪ ∅ : gset string)).
  { rewrite elem_of_union, elem_of_singleton. intros [Hk|Hk].
    - apply ResolveFacts.pathKey_inj in Hk. congruence.
    - revert Hk. apply not_elem_of_empty. }
  rewrite (ResolveFacts.resolveRef_fuel_step raw bucket m 2 a
             (mkRState ∅ [] errs) ea Hka Ha).
  cbn zeta. rewrite (ResolveFacts.getValueForMode_exact ea m _ Hma), Hb.
  cbn [visited chain errors].
  rewrite (ResolveFacts.resolveRef_fuel_step raw bucket m 1 b
             (mkRState ({[pathKey bucket a m]} ∪ ∅) ([] ++ [a]) errs) eb Hkb Hb).
  cbn zeta. rewrite (ResolveFacts.getValueForMode_exact eb m _ Hmb), Ha.
  cbn [visited chain errors].
  cbn [resolveRef_fuel]. rewrite decide_True.
  2:{ cbn [visited]. rewrite !elem_of_union, !elem_of_singleton. auto. }
  unfold push_error. cbn [visited chain errors].
  rewrite (ResolveFacts.unwind_marked (pathKey bucket b m) b _ _ _ Hkb).
  rewrite (ResolveFacts.unwind_marked (pathKey bucket a m) a _ _ _ Hka).
  reflexivity.
Qed.

(** Frame: a set of token paths closed under alias-following resolves the
    same in two tables that agree on it. *)
Lemma resolve_frame_fuel raw raw' bucket m (T : string -> Prop) :
  (forall q, T q -> Obj.get q (bucket_get raw' bucket) = Obj.get q (bucket_get raw bucket)) ->
  (forall q entry r,
     T q -> Obj.get q (bucket_get raw bucket) = Some entry ->
     getValueForMode entry m = Some (TVRef r) -> T r) ->
  forall fuel p st,
    T p ->
    resolveRef_fuel fuel p m raw' bucket st = resolveRef_fuel fuel p m raw bucket st.
Proof.
  intros Hagree Hclosed. induction fuel as [|fuel IH]; intros p st Hp;
    [reflexivity|].
  cbn [resolveRef_fuel]. case_decide; [reflexivity|].
  rewrite (Hagree p Hp).
  destruct (Obj.get p (bucket_get raw bucket)) as [entry|] eqn:He; [|reflexivity].
  destruct (getValueForMode entry m) as [[[rgba hex|n|refPath]|member]|] eqn:Hv;
    try reflexivity.
  assert (Hr : T refPath) by (eapply Hclosed; eassumption).
  rewrite (Hagree refPath Hr).
  destruct (Obj.get refPath (bucket_get raw bucket)); [|reflexivity].
  rewrite (IH refPath _ Hr). reflexivity.
Qed.

Lemma resolve_frame raw raw' bucket m (T : string -> Prop) p st :
  (forall q, T q -> Obj.get q (bucket_get raw' bucket) = Obj.get q (bucket_get raw bucket)) ->
  (forall q entry r,
     T q -> Obj.get q (bucket_get raw bucket) = Some entry ->
     getValueForMode entry m = Some (TVRef r) -> T r) ->
  T p ->
  resolveRef p m raw' bucket st = resolveRef p m raw bucket st.
Proof.
  intros Hagree Hclosed Hp.
  destruct (ResolveFacts.resolveRef_total raw bucket m p st) as [r [Hf ->]].
  apply (ResolveFacts.resolveRef_eq raw' bucket m p st (resolve_fuel raw bucket)).
  rewrite (resolve_frame_fuel raw raw' bucket m T Hagree Hclosed _ p st Hp).
  exact Hf.
Qed.

End CycleFacts.

(** C2, as the code has it.  When [a] aliases [b] and [b] aliases [a] in
    mode [m], resolving
    [(a, m)] and [(b, m)] from a clean state each yields [null] and appends
    one "cycle" error carrying the chain walked; both cells of the resolved
    table are [null]; every cell of the table holds what resolving that
    pair alone from a clean state yields; and a set of token paths that is
    closed under alias-following and avoids [a] and [b] resolves the same,
    and gets the same cells, in every table that differs only at [a] and
    [b]. *)
Theorem cycle_detected_and_isolated
    (raw : TokensRaw) (bucket : Bucket) (a b m : string) (ea eb : RawEntry) :
  a <> b ->
  Obj.get a (bucket_get raw bucket) = Some ea -> Obj.get m ea = Some (TVRef b) ->
  Obj.get b (bucket_get raw bucket) = Some eb -> Obj.get m eb = Some (TVRef a) ->
  (forall errs,
     resolveRef a m raw bucket (mkRState ∅ [] errs)
     = (None, mkRState ∅ [] (errs ++ [mkResolutionError a m "cycle" [a; b; a]]))
     /\ resolveRef b m raw bucket (mkRState ∅ [] errs)
        = (None, mkRState ∅ [] (errs ++ [mkResolutionError b m "cycle" [b; a; b]])))
  /\ (forall errs,
        let res := fst (resolveBucket raw bucket errs) in
        (exists row, Obj.get a res = Some row /\ Obj.get m row = Some CellNull)
        /\ (exists row, Obj.get b res = Some row /\ Obj.get m row = Some CellNull)
        /\ forall p mode entry,
             Obj.get p (bucket_get raw bucket) = Some entry ->
             mode ∈ Obj.keys entry ->
             exists row,
               Obj.get p res = Some row
               /\ Obj.get mode row
                  = Some (resolvedCell bucket
                            (fst (resolveRef p mode raw bucket (mkRState ∅ [] [])))))
  /\ (forall (raw' : TokensRaw) (T : string -> Prop) (mode : string),
        (forall q, q <> a -> q <> b ->
                   Obj.get q (bucket_get raw' bucket) = Obj.get q (bucket_get raw bucket)) ->
        (forall q, T q -> q <> a /\ q <> b) ->
        (forall q entry r,
           T q -> Obj.get q (bucket_get raw bucket) = Some entry ->
           getValueForMode entry mode = Some (TVRef r) -> T r) ->
        forall p, T p ->
          (forall st,
             resolveRef p mode raw' bucket st = resolveRef p mode raw bucket st)
          /\ (forall entry errs errs',
                Obj.get p (bucket_get raw bucket) = Some entry ->
                mode ∈ Obj.keys entry ->
                exists row row',
                  Obj.get p (fst (resolveBucket raw bucket errs)) = Some row
                  /\ Obj.get p (fst (resolveBucket raw' bucket errs')) = Some row'
                  /\ Obj.get mode row' = Obj.get mode row)).
Proof.
  intros Hab Ha Hma Hb Hmb.
  assert (Hcell : forall (t : TokensRaw) errs p mode entry,
    Obj.get p (bucket_get t bucket) = Some entry ->
    mode ∈ Obj.keys entry ->
    exists row,
      Obj.get p (fst (resolveBucket t bucket errs)) = Some row
      /\ Obj.get mode row
         = Some (resolvedCell bucket
                   (fst (resolveRef p mode t bucket (mkRState ∅ [] []))))).
  { intros t errs p mode entry Hp Hin.
    destruct (PassFacts.resolveBucket_row t bucket errs p entry Hp)
      as [row [Hrow Hm]].
    exists row. split; [exact Hrow|]. rewrite Hm, decide_True by exact Hin.
    reflexivity. }
  split; [|split].
  - intros errs. split.
    + apply (CycleFacts.resolve_cycle raw bucket a b m ea eb); assumption.
    + apply (CycleFacts.resolve_cycle raw bucket b a m eb ea); auto.
  - intros errs res. split; [|split].
    + destruct (Hcell raw errs a m ea Ha) as [row [Hrow Hm]].
      { apply ObjFacts.get_Some_keys. rewrite Hma. eauto. }
      exists row. split; [exact Hrow|]. rewrite Hm.
      rewrite (CycleFacts.resolve_cycle raw bucket a b m ea eb) by assumption.
      destruct bucket; reflexivity.
    + destruct (Hcell raw errs b m eb Hb) as [row [Hrow Hm]].
      { apply ObjFacts.get_Some_keys. rewrite Hmb. eauto. }
      exists row. split; [exact Hrow|]. rewrite Hm.
      rewrite (CycleFacts.resolve_cycle raw bucket b a m eb ea) by auto.
      destruct bucket; reflexivity.
    + apply Hcell.
  - intros raw' T mode Hagree Hav Hclosed p Hp.
    assert (Hagree' : forall q, T q ->
              Obj.get q (bucket_get raw' bucket) = Obj.get q (bucket_get raw bucket)).
    { intros q Hq. destruct (Hav q Hq). apply Hagree; assumption. }
    assert (Hframe : forall st,
              resolveRef p mode raw' bucket st = resolveRef p mode raw bucket st).
    { intros st.
      apply (CycleFacts.resolve_frame raw raw' bucket mode T);
        [exact Hagree' | exact Hclosed | exact Hp]. }
    split; [exact Hframe|].
    intros entry errs errs' Hentry Hin.
    destruct (Hcell raw errs p mode entry Hentry Hin) as [row [Hrow Hm]].
    assert (Hentry' : Obj.get p (bucket_get raw' bucket) = Some entry)
      by (rewrite (Hagree' p Hp); exact Hentry).
    destruct (Hcell raw' errs' p mode entry Hentry' Hin) as [row' [Hrow' Hm']].
    exists row, row'. split; [exact Hrow|]. split; [exact Hrow'|].
    rewrite Hm, Hm', Hframe. reflexivity.
Qed.

Lemma cycle_detected_and_isolated_witness :
  resolveRef "a" "Light" cycle_table color (mkRState ∅ [] [])
  = (None,
     mkRState ∅ [] [mkResolutionError "a" "Light" "cycle" ["a"; "b"; "a"]])
  /\ resolveRef "c" "Light" acyclic_table color (mkRState ∅ [] [])
     = resolveRef "c" "Light" cycle_table color (mkRState ∅ [] []).
Proof.
  destruct (cycle_detected_and_isolated cycle_table color "a" "b" "Light"
              [("Light", TVRef "b")] [("Light", TVRef "a")])
    as [Hcycle [_ Hframe]];
    [discriminate | reflexivity | reflexivity | reflexivity | reflexivity |].
  split; [exact (proj1 (Hcycle []))|].
  assert (Hag : forall q, q <> "a" -> q <> "b" ->
                  Obj.get q (bucket_get acyclic_table color)
                  = Obj.get q (bucket_get cycle_table color)).
  { intros q Hqa Hqb. cbn. repeat case_decide; congruence. }
  assert (Hav : forall q, q = "c" -> q <> "a" /\ q <> "b")
    by (intros q ->; split; discriminate).
  assert (Hcl : forall q (entry : RawEntry) r,
                  q = "c" ->
                  Obj.get q (bucket_get cycle_table color) = Some entry ->
                  getValueForMode entry "Light" = Some (TVRef r) -> r = "c").
  { intros q entry r -> Hentry Hv. vm_compute in Hentry.
    injection Hentry as <-. vm_compute in Hv. discriminate Hv. }
  exact (proj1 (Hframe acyclic_table (fun q => q = "c") "Light" Hag Hav Hcl
                  "c" eq_refl) (mkRState ∅ [] [])).
Defined.

(** C2 as stated fails where it says that every other pair is
    unchanged by the presence of the cycle.  In [lasso_table] the token
    [top] aliases [a], which is on the cycle of [a] and [b]; in
    [lasso_cut_table], which differs from it at [a] only, there is no
    cycle.  [top] is neither [a] nor [b] and has the same entry in both,
    yet it resolves to null with the cycle and to a colour without it. *)
Lemma cycle_reaches_aliasing_token :
  ~ (forall (raw raw' : TokensRaw) (bucket : Bucket) (a b m : string)
            (ea eb : RawEntry),
       a <> b ->
       Obj.get a (bucket_get raw bucket) = Some ea ->
       Obj.get m ea = Some (TVRef b) ->
       Obj.get b (bucket_get raw bucket) = Some eb ->
       Obj.get m eb = Some (TVRef a) ->
       (forall q, q <> a -> q <> b ->
          Obj.get q (bucket_get raw' bucket) = Obj.get q (bucket_get raw bucket)) ->
       forall p mode,
         p <> a -> p <> b ->
         fst (resolveRef p mode raw' bucket (mkRState ∅ [] []))
         = fst (resolveRef p mode raw bucket (mkRState ∅ [] []))).
Proof.
  intros H.
  specialize (H lasso_table lasso_cut_table color "a" "b" "Light"
                [("Light", TVRef "b")] [("Light", TVRef "a")]).
  assert (Hq : forall q, q <> "a" -> q <> "b" ->
            Obj.get q (bucket_get lasso_cut_table color)
            = Obj.get q (bucket_get lasso_table color)).
  { intros q Hqa Hqb. cbn. repeat case_decide; congruence. }
  specialize (H ltac:(discriminate) eq_refl eq_refl eq_refl eq_refl Hq
                "top" "Light" ltac:(discriminate) ltac:(discriminate)).
  vm_compute in H. discriminate H.
Qed.

(** ** Mode lookup *)

(** The four cases of the mode lookup: the value stored under the
    requested mode name; else, when that name names an inherited member,
    the member, and the resolver returns null without an error; else the
    sole value of an entry that has exactly one mode key; else nothing, and
    the resolver reports a "mode mismatch". *)
Lemma getValueForMode_cases
    (tokenEntry : RawEntry) (requestedModeName : string) :
  (forall v, Obj.get requestedModeName tokenEntry = Some v ->
             getValueForMode tokenEntry requestedModeName = Some v)
  /\ (Obj.get requestedModeName tokenEntry = None ->
      Obj.proto_member requestedModeName = true ->
      getValueForMode tokenEntry requestedModeName
      = Some (Inherited requestedModeName)
      /\ forall (raw : TokensRaw) (bucket : Bucket) (tokenPath : string)
                (st : RState),
           Obj.get tokenPath (bucket_get raw bucket) = Some tokenEntry ->
           pathKey bucket tokenPath requestedModeName ∉ visited st ->
           resolveRef tokenPath requestedModeName raw bucket st = (None, st))
  /\ (Obj.get requestedModeName tokenEntry = None ->
      Obj.proto_member requestedModeName = false ->
      forall k, Obj.keys tokenEntry = [k] ->
      exists v, tokenEntry = [(k, v)]
                /\ getValueForMode tokenEntry requestedModeName = Some v)
  /\ (Obj.get requestedModeName tokenEntry = None ->
      Obj.proto_member requestedModeName = false ->
      length (Obj.keys tokenEntry) <> 1%nat ->
      getValueForMode tokenEntry requestedModeName = None
      /\ forall (raw : TokensRaw) (bucket : Bucket) (tokenPath : string)
                (st : RState),
           Obj.get tokenPath (bucket_get raw bucket) = Some tokenEntry ->
           pathKey bucket tokenPath requestedModeName ∉ visited st ->
           resolveRef tokenPath requestedModeName raw bucket st
           = (None,
              mkRState (visited st) (chain st)
                (errors st ++
                 [mkResolutionError tokenPath requestedModeName "mode mismatch"
                    (chain st ++ [tokenPath])]))).
Proof.
  split; [|split; [|split]].
  - intros v Hv. apply ResolveFacts.getValueForMode_exact, Hv.
  - intros Hnone Hm.
    assert (Hg : getValueForMode tokenEntry requestedModeName
                 = Some (Inherited requestedModeName)).
    { unfold getValueForMode. rewrite Hnone, Hm. reflexivity. }
    split; [exact Hg|].
    intros raw bucket tokenPath st Hp Hvis.
    apply (ResolveFacts.resolveRef_eq raw bucket requestedModeName tokenPath st 1).
    rewrite (ResolveFacts.resolveRef_fuel_step raw bucket requestedModeName 0
               tokenPath st tokenEntry Hvis Hp).
    cbn zeta. rewrite Hg. reflexivity.
  - intros Hnone Hm k Hk. destruct tokenEntry as [|[k0 v0] [|kv t]];
      try discriminate Hk.
    injection Hk as ->. exists v0. split; [reflexivity|].
    unfold getValueForMode. rewrite Hnone, Hm. simpl.
    rewrite decide_True; reflexivity.
  - intros Hnone Hm Hlen.
    assert (Hg : getValueForMode tokenEntry requestedModeName = None).
    { unfold getValueForMode. rewrite Hnone, Hm.
      destruct tokenEntry as [|[k0 v0] [|kv t]]; try reflexivity.
      exfalso. apply Hlen. reflexivity. }
    split; [exact Hg|].
    intros raw bucket tokenPath st Hp Hvis.
    apply (ResolveFacts.resolveRef_eq raw bucket requestedModeName tokenPath st 1).
    rewrite (ResolveFacts.resolveRef_fuel_step raw bucket requestedModeName 0
               tokenPath st tokenEntry Hvis Hp).
    cbn zeta. rewrite Hg. reflexivity.
Qed.

(** The fallback and the mismatch on [fallback_table]. *)
Example getValueForMode_fallback_table :
  getValueForMode [("default", TVNumber 8)] "Dark" = Some (TVNumber 8)
  /\ resolveRef "themed" "Dark" fallback_table spacing (mkRState ∅ [] [])
     = (Some (RValue 8), mkRState ∅ [] [])
  /\ resolveRef "split" "default" fallback_table spacing (mkRState ∅ [] [])
     = (None,
        mkRState ∅ []
          [mkResolutionError "split" "default" "mode mismatch" ["split"]]).
Proof. vm_compute. repeat split; reflexivity. Qed.

(** C3, at the input on which the code departs from it.  The entry of
    [base] has the single mode "default"; requested under the mode name
    "constructor", the lookup returns the member that the entry inherits
    under that name, not the sole value.  The resolver then returns null
    and records no error: in the export, the cell of the token that
    aliases [base] under the mode "constructor" is null and the error list
    is empty. *)
Theorem getValueForMode_inherited_name_skips_fallback :
  Obj.keys [("default", TVNumber 8)] = ["default"]
  /\ getValueForMode [("default", TVNumber 8)] "constructor"
     = Some (Inherited "constructor")
  /\ resolveRef "base" "constructor" constructor_mode_table spacing
       (mkRState ∅ [] [])
     = (None, mkRState ∅ [] [])
  /\ resolveRef "themed" "constructor" constructor_mode_table spacing
       (mkRState ∅ [] [])
     = (None, mkRState ∅ [] [])
  /\ (let out := buildExportModel (fun _ _ => 0%Z) "" constructor_mode_scenario in
      json_path ["tokensRaw"; "spacing"; "spacing.base"; "default"; "value"] out
      = Some (JNum 8)
      /\ json_path ["tokensRaw"; "spacing"; "spacing.themed"; "constructor"; "$ref"]
           out
         = Some (JStr "spacing.base")
      /\ json_path ["tokensResolved"; "spacing"; "spacing.themed"; "constructor"]
           out
         = Some JNull
      /\ export_errors out = []).
Proof. vm_compute. repeat split; reflexivity. Qed.

(** ** Termination *)

(** C5.  From an empty visited set the resolver returns after at most
    one invocation per token path of the bucket beyond the first one
    (every invocation consumes one unit of fuel); more fuel does not change
    the result.  From any state, one unit per unmarked token path plus one
    suffices, because every recursive call is made on a visited set that
    has one more unmarked token path of the bucket marked. *)
Theorem resolveRef_terminates
    (raw : TokensRaw) (bucket : Bucket) (tokenPath requestedModeName : string)
    (errs : list ResolutionError) :
  let n := size (token_paths raw bucket) in
  (exists r,
     resolveRef_fuel (S n) tokenPath requestedModeName raw bucket
       (mkRState ∅ [] errs) = Some r
     /\ (forall fuel, S n <= fuel ->
           resolveRef_fuel fuel tokenPath requestedModeName raw bucket
             (mkRState ∅ [] errs) = Some r)
     /\ resolveRef tokenPath requestedModeName raw bucket (mkRState ∅ [] errs) = r)
  /\ n <= length (Obj.keys (bucket_get raw bucket))
  /\ (forall st,
        is_Some
          (resolveRef_fuel
             (S (size (unvisited raw bucket requestedModeName (visited st))))
             tokenPath requestedModeName raw bucket st))
  /\ (forall fuel st entry refPath target,
        let key := pathKey bucket tokenPath requestedModeName in
        let st1 :=
          mkRState ({[key]} ∪ visited st) (chain st ++ [tokenPath]) (errors st) in
        key ∉ visited st ->
        Obj.get tokenPath (bucket_get raw bucket) = Some entry ->
        getValueForMode entry requestedModeName = Some (TVRef refPath) ->
        Obj.get refPath (bucket_get raw bucket) = Some target ->
        resolveRef_fuel (S fuel) tokenPath requestedModeName raw bucket st
        = match resolveRef_fuel fuel refPath requestedModeName raw bucket st1 with
          | Some (resolved, st2) => Some (resolved, unwind key st2)
          | None => None
          end
        /\ visited st ⊂ visited st1
        /\ size (unvisited raw bucket requestedModeName (visited st1))
           < size (unvisited raw bucket requestedModeName (visited st))).
Proof.
  intros n. split; [|split; [|split]].
  - destruct (ResolveFacts.resolveRef_fuel_enough raw bucket requestedModeName
                (S n) tokenPath (mkRState ∅ [] errs)) as [r Hr].
    { pose proof (ResolveFacts.unvisited_le raw bucket requestedModeName ∅).
      unfold n. simpl. lia. }
    exists r. split; [exact Hr|]. split.
    + intros fuel Hle.
      apply (ResolveFacts.resolveRef_fuel_mono _ _ _ _ _ _ _ _ Hr Hle).
    + apply (ResolveFacts.resolveRef_eq _ _ _ _ _ _ _ Hr).
  - apply ResolveFacts.token_paths_le.
  - intros st. apply ResolveFacts.resolveRef_fuel_enough. lia.
  - intros fuel st entry refPath target key st1 Hvis Hp Hv Ht.
    split; [|split].
    + rewrite (ResolveFacts.resolveRef_fuel_step raw bucket requestedModeName
                 fuel tokenPath st entry Hvis Hp).
      cbn zeta. rewrite Hv, Ht. reflexivity.
    + unfold st1. cbn [visited]. split.
      * apply union_subseteq_r.
      * intros Hsub. apply Hvis, Hsub, elem_of_union_l, elem_of_singleton.
        reflexivity.
    + apply ResolveFacts.unvisited_mark; [rewrite Hp; eauto | exact Hvis].
Qed.

Lemma resolveRef_terminates_witness :
  resolveRef_fuel 4 "a" "Light" cycle_table color (mkRState ∅ [] [])
  = Some (None,
          mkRState ∅ [] [mkResolutionError "a" "Light" "cycle" ["a"; "b"; "a"]]).
Proof.
  destruct (resolveRef_terminates cycle_table color "a" "Light" [])
    as [[r [H1 [H2 H3]]] _].
  rewrite (H2 4%nat) by (vm_compute; lia).
  rewrite <- H3. vm_compute. reflexivity.
Defined.

(** ** The concrete scenario *)

(** C8.  For "Accent/Primary/100" (COLOR, Light = rgba(0.88, 0.95, 1, 1))
    and "Button/Main" (COLOR, Light aliasing the former), the export has
    [tokensResolved.color["accent.primary.100"].Light = "#e0f2ff"] and
    [tokensResolved.color["button.main"].Light = "#e0f2ff"].  (The channel
    products 224.4, 242.25 and 255 are at least 0.1 away from a rounding
    boundary, so binary64 arithmetic rounds them to the same bytes.) *)
Theorem scenario_resolves_to_e0f2ff (localeCompare : string -> string -> Z)
    (now : string) :
  let out := buildExportModel localeCompare now scenario in
  json_path ["tokensResolved"; "color"; "accent.primary.100"; "Light"] out
  = Some (JStr "#e0f2ff")
  /\ json_path ["tokensResolved"; "color"; "button.main"; "Light"] out
     = Some (JStr "#e0f2ff").
Proof. vm_compute. split; reflexivity. Qed.

(** ** Collision detector *)

Module CollisionFacts.

Lemma replace_insert_index {V} (o : jsobj V) n k (v v' : V) :
  Obj.get k o = None ->
  Obj.replace k v' (Obj.insert_index n k v o) = Obj.insert_index n k v' o.
Proof.
  induction o as [|[k0 v0] o IH]; simpl.
  - intros _. rewrite decide_True; reflexivity.
  - destruct (decide (k0 = k)) as [->|Hk0]; [discriminate|]. intros Hn.
    destruct (Obj.array_index k0) as [n'|].
    + destruct (N.ltb n' n); simpl.
      * rewrite decide_False by assumption. rewrite (IH Hn). reflexivity.
      * rewrite decide_True; reflexivity.
    + simpl. rewrite decide_True; reflexivity.
Qed.

Lemma replace_app_new {V} (o : jsobj V) k (v v' : V) :
  Obj.get k o = None ->
  Obj.replace k v' (o ++ [(k, v)]) = o ++ [(k, v')].
Proof.
  induction o as [|[k0 v0] o IH]; simpl.
  - intros _. rewrite decide_True; reflexivity.
  - destruct (decide (k0 = k)) as [->|Hk0]; [discriminate|]. intros Hn.
    rewrite (IH Hn). reflexivity.
Qed.

(** A second assignment to the same key overrides the first in place. *)
Lemma set_set {V} (o : jsobj V) k (v v' : V) :
  Obj.set k v' (Obj.set k v o) = Obj.set k v' o.
Proof.
  unfold Obj.set at 1. rewrite ObjFacts.get_set_eq.
  unfold Obj.set. destruct (Obj.get k o) eqn:Hg.
  - apply ObjFacts.replace_replace.
  - destruct (Obj.array_index k) as [n|].
    + apply replace_insert_index, Hg.
    + apply replace_app_new, Hg.
Qed.

Lemma bucket_get_set {A} (t : Buckets A) b (x : A) :
  bucket_get (bucket_set b x t) b = x.
Proof. destruct b; reflexivity. Qed.

Lemma bucket_set_get {A} (t : Buckets A) b :
  bucket_set b (bucket_get t b) t = t.
Proof. destruct t, b; reflexivity. Qed.


(** The loop over the modes only rewrites the row of [tokenPath]. *)
Lemma fill_row col ids v tokenPath modeIds :
  forall (table : RawTable) (row : RawEntry),
    Obj.get tokenPath table = Some row ->
    fold_left
      (fun table modeId =>
         match Obj.get modeId (valuesPerMode v) with
         | Some mv =>
             let modeName := default modeId (modeIdToName col !! modeId) in
             let outputKey := getOutputModeKey col modeName in
             match buildTokenValueRaw (value mv) (isAlias mv) ids
                     (resolvedType v) with
             | Some tv => assign_cell tokenPath outputKey tv table
             | None => table
             end
         | None => table
         end) modeIds table
    = Obj.set tokenPath
        (fold_left
           (fun entry modeId =>
              match Obj.get modeId (valuesPerMode v) with
              | Some mv =>
                  let modeName := default modeId (modeIdToName col !! modeId) in
                  let outputKey := getOutputModeKey col modeName in
                  match buildTokenValueRaw (value mv) (isAlias mv) ids
                          (resolvedType v) with
                  | Some tv => Obj.assign outputKey tv entry
                  | None => entry
                  end
              | None => entry
              end) modeIds row)
        table.
Proof.
  induction modeIds as [|modeId modeIds IH]; intros table row Hrow;
    cbn [fold_left].
  - symmetry. apply ObjFacts.set_same, Hrow.
  - destruct (Obj.get modeId (valuesPerMode v)) as [mv|]; [|apply IH, Hrow].
    cbn zeta.
    destruct (buildTokenValueRaw (value mv) (isAlias mv) ids (resolvedType v))
      as [tv|]; [|apply IH, Hrow].
    unfold assign_cell, Obj.assign. case_decide; [apply IH, Hrow|].
    erewrite IH by (unfold set_cell; rewrite Hrow; apply ObjFacts.get_set_eq).
    unfold set_cell. rewrite Hrow. apply set_set.
Qed.

(** Filling the entry of a variable amounts to one assignment of the
    entry built from that variable alone. *)
Lemma addModeValues_eq col ids v tokenPath (table : RawTable) :
  addModeValues col ids v tokenPath table
  = Obj.set tokenPath (buildEntry col ids v) table.
Proof.
  unfold addModeValues, buildEntry.
  rewrite (fill_row col ids v tokenPath _ (Obj.set tokenPath [] table) []).
  - apply set_set.
  - apply ObjFacts.get_set_eq.
Qed.

End CollisionFacts.



(** The collision scenario end to end: one error, the first value kept. *)
Example collision_scenario_export (localeCompare : string -> string -> Z)
    (now : string) :
  let out := buildExportModel localeCompare now collision_scenario in
  json_path ["tokensResolved"; "color"] out
  = Some (JObj [("surface.1", JObj [("default", JStr "#ffffff")])])
  /\ json_path ["errors"] out
     = Some (JArr [JObj [("type", JStr "DuplicateTokenPath");
                         ("tokenPath", JStr "surface.1");
                         ("bucket", JStr "color");
                         ("existingVarId", JStr "V:1");
                         ("newVarId", JStr "V:2");
                         ("existingOriginalName", JStr "Surface/1");
                         ("newOriginalName", JStr "Surface/1");
                         ("existingCollectionName", JStr "Brand");
                         ("newCollectionName", JStr "Product");
                         ("suggestion", JStr duplicate_suggestion)]]).
Proof. vm_compute. split; reflexivity. Qed.

(** ** Error report *)

Module ErrorFacts.

Lemma resolveRef_fuel_errors_ok raw bucket m fuel :
  forall p st r st',
    resolveRef_fuel fuel p m raw bucket st = Some (r, st') ->
    Forall graph_error_ok (errors st) ->
    Forall graph_error_ok (errors st').
Proof.
  assert (Hnew : forall p reason ch errs,
            reason ∈ graph_reasons -> p ∈ ch ->
            Forall graph_error_ok errs ->
            Forall graph_error_ok (errs ++ [mkResolutionError p m reason ch])).
  { intros p reason ch errs Hr Hp He. apply Forall_app. split; [exact He|].
    constructor; [|constructor]. split; assumption. }
  assert (Hc : "cycle" ∈ graph_reasons) by (unfold graph_reasons; set_solver).
  assert (Hm : "missing token" ∈ graph_reasons) by (unfold graph_reasons; set_solver).
  assert (Hmm : "mode mismatch" ∈ graph_reasons) by (unfold graph_reasons; set_solver).
  induction fuel as [|fuel IH]; intros p st r st' Hr Hok; [discriminate|].
  cbn [resolveRef_fuel] in Hr. case_decide as Hvis.
  { injection Hr as <- <-. cbn. apply Hnew; [exact Hc | | exact Hok].
    apply elem_of_app. right. left. }
  destruct (Obj.get p (bucket_get raw bucket)) as [entry|].
  2:{ injection Hr as <- <-. cbn. apply Hnew; [exact Hm | | exact Hok].
      apply elem_of_app. right. left. }
  destruct (getValueForMode entry m) as [[[rgba hex|n|refPath]|member]|].
  - injection Hr as <- <-. exact Hok.
  - injection Hr as <- <-. exact Hok.
  - destruct (Obj.get refPath (bucket_get raw bucket)).
    2:{ injection Hr as <- <-. cbn. apply Hnew; [exact Hm | | exact Hok].
        apply elem_of_app. left. apply elem_of_app. right. left. }
    destruct (resolveRef_fuel fuel refPath m raw bucket _) as [[r2 st2]|] eqn:E;
      [|discriminate].
    injection Hr as <- <-. cbn. apply (IH _ _ _ _ E). exact Hok.
  - injection Hr as <- <-. exact Hok.
  - injection Hr as <- <-. cbn. apply Hnew; [exact Hmm | | exact Hok].
    apply elem_of_app. right. left.
Qed.

Lemma resolveRef_errors_ok raw bucket m p st :
  Forall graph_error_ok (errors st) ->
  Forall graph_error_ok (errors (snd (resolveRef p m raw bucket st))).
Proof.
  destruct (ResolveFacts.resolveRef_total raw bucket m p st) as [[r st'] [Hf ->]].
  apply (resolveRef_fuel_errors_ok _ _ _ _ _ _ _ _ Hf).
Qed.

Lemma resolveModes_errors_ok raw bucket p M :
  forall acc,
    Forall graph_error_ok (snd acc) ->
    Forall graph_error_ok (snd (resolveModes raw bucket p M acc)).
Proof.
  induction M as [|m M IH]; intros [res errs] Hok; [exact Hok|].
  rewrite PassFacts.resolveModes_cons. apply IH. cbn [snd].
  apply (resolveRef_errors_ok raw bucket m p (mkRState ∅ [] errs)). exact Hok.
Qed.

Lemma pass_fold_errors_ok raw bucket L :
  forall acc,
    Forall graph_error_ok (snd acc) ->
    Forall graph_error_ok (snd (fold_left (pass_step raw bucket) L acc)).
Proof.
  induction L as [|p L IH]; intros acc Hok; [exact Hok|].
  cbn [fold_left]. apply IH. unfold pass_step.
  destruct (Obj.get p (bucket_get raw bucket)); [|exact Hok].
  apply resolveModes_errors_ok. exact Hok.
Qed.

Lemma resolveBucket_errors_ok raw bucket errs :
  Forall graph_error_ok errs ->
  Forall graph_error_ok (snd (resolveBucket raw bucket errs)).
Proof.
  intros Hok.
  apply (pass_fold_errors_ok raw bucket (sorted_keys (bucket_get raw bucket))
           ([], errs)).
  exact Hok.
Qed.

Lemma buildTokensResolved_eq raw :
  buildTokensResolved raw
  = (mkBuckets
       (fst (resolveBucket raw color []))
       (fst (resolveBucket raw spacing (snd (resolveBucket raw color []))))
       (fst (resolveBucket raw radius
               (snd (resolveBucket raw spacing
                       (snd (resolveBucket raw color [])))))),
     snd (resolveBucket raw radius
            (snd (resolveBucket raw spacing
                    (snd (resolveBucket raw color [])))))).
Proof.
  unfold buildTokensResolved.
  destruct (resolveBucket raw color []) as [c e1]. cbn [fst snd].
  destruct (resolveBucket raw spacing e1) as [s e2]. cbn [fst snd].
  destruct (resolveBucket raw radius e2) as [r e3]. reflexivity.
Qed.

Lemma buildTokensResolved_errors_ok raw :
  Forall graph_error_ok (snd (buildTokensResolved raw)).
Proof.
  rewrite buildTokensResolved_eq. cbn [snd].
  repeat apply resolveBucket_errors_ok. constructor.
Qed.

(** The error array of the export: the duplicate errors, then the
    resolution errors. *)
Lemma export_errors_eq localeCompare now cols :
  export_errors (buildExportModel localeCompare now cols)
  = List.map DuplicateError_json (duplicateErrors (buildTokensRaw cols))
    ++ List.map ResolutionError_json
         (snd (buildTokensResolved (tokensRaw (buildTokensRaw cols)))).
Proof.
  unfold buildExportModel.
  destruct (buildTokensResolved (tokensRaw (buildTokensRaw cols))) as [res errs].
  reflexivity.
Qed.

End ErrorFacts.

(** ** Key normalization *)

Module SortFacts.

Lemma get_map_values {A B} (g : A -> B) (o : jsobj A) k :
  Obj.get k (map_values g o) = g <$> Obj.get k o.
Proof.
  induction o as [|[k0 v0] o IH]; simpl; [reflexivity|].
  case_decide; [reflexivity | exact IH].
Qed.

Lemma keys_map_values {A B} (g : A -> B) (o : jsobj A) :
  Obj.keys (map_values g o) = Obj.keys o.
Proof.
  unfold Obj.keys, map_values. rewrite List.map_map. reflexivity.
Qed.

(** [sortObjectKeys] on an object: normalize the values, then rebuild. *)
Lemma sortObjectKeys_obj o :
  sortObjectKeys (JObj o) = JObj (rebuild_sorted (map_values sortObjectKeys o)).
Proof.
  cbn [sortObjectKeys]. do 2 f_equal.
  induction o as [|[k x] o IH]; [reflexivity|].
  cbn [map_values List.map fst snd]. f_equal. exact IH.
Qed.

(** Arrays and scalars are returned as they are. *)
Lemma sortObjectKeys_arr l : sortObjectKeys (JArr l) = JArr l.
Proof. reflexivity. Qed.

Lemma get_rebuild_fold {V} (o : jsobj V) L :
  forall out k,
    Obj.get k (fold_left (rebuild_step o) L out)
    = match Obj.get k o with
      | Some v => if decide (k ∈ L) then Some v else Obj.get k out
      | None => Obj.get k out
      end.
Proof.
  induction L as [|k0 L IH]; intros out k; cbn [fold_left].
  - destruct (Obj.get k o); [|reflexivity].
    rewrite decide_False by apply not_elem_of_nil. reflexivity.
  - rewrite IH. unfold rebuild_step.
    destruct (Obj.get k o) as [v|] eqn:Hk.
    + destruct (decide (k ∈ L)) as [Hin|Hnin].
      * rewrite decide_True by (right; exact Hin). reflexivity.
      * destruct (decide (k0 = k)) as [->|Hne].
        -- rewrite Hk, ObjFacts.get_set_eq, decide_True by left. reflexivity.
        -- rewrite decide_False
             by (rewrite elem_of_cons; intros [?|?]; [congruence|contradiction]).
           destruct (Obj.get k0 o); [apply ObjFacts.get_set_ne, Hne | reflexivity].
    + destruct (Obj.get k0 o) as [v0|] eqn:Hk0; [|reflexivity].
      apply ObjFacts.get_set_ne. congruence.
Qed.

(** Rebuilding keeps every binding. *)
Lemma get_rebuild_sorted {V} (o : jsobj V) k :
  Obj.get k (rebuild_sorted o) = Obj.get k o.
Proof.
  unfold rebuild_sorted.
  rewrite get_rebuild_fold.
  destruct (Obj.get k o) as [v|] eqn:Hk; [|reflexivity].
  rewrite decide_True; [reflexivity|].
  apply PassFacts.elem_of_sorted_keys, ObjFacts.get_Some_keys. rewrite Hk. eauto.
Qed.

Lemma elem_of_keys_rebuild_sorted {V} (o : jsobj V) k :
  k ∈ Obj.keys (rebuild_sorted o) <-> k ∈ Obj.keys o.
Proof. rewrite <- !ObjFacts.get_Some_keys, get_rebuild_sorted. reflexivity. Qed.

(** The sorted key list depends on the key set only. *)
Lemma sorted_keys_perm {V W} (o1 : jsobj V) (o2 : jsobj W) :
  Obj.keys o1 ≡ₚ Obj.keys o2 -> sorted_keys o1 = sorted_keys o2.
Proof.
  intros Hp. unfold sorted_keys.
  apply (Sorted_unique String.le).
  - apply Sorted_merge_sort; apply _.
  - apply Sorted_merge_sort; apply _.
  - rewrite !merge_sort_Permutation. exact Hp.
Qed.

(** Two objects with the same keys and the same bindings rebuild to the
    same object, whatever order their keys were inserted in. *)
Lemma rebuild_sorted_canonical {V} (o1 o2 : jsobj V) :
  Obj.keys o1 ≡ₚ Obj.keys o2 ->
  (forall k, Obj.get k o1 = Obj.get k o2) ->
  rebuild_sorted o1 = rebuild_sorted o2.
Proof.
  intros Hp Hg. unfold rebuild_sorted.
  rewrite (sorted_keys_perm o1 o2 Hp).
  generalize (sorted_keys o2) ([] : jsobj V).
  intros L. induction L as [|k L IH]; intros out; [reflexivity|].
  cbn [fold_left]. unfold rebuild_step at 2 4. rewrite (Hg k). apply IH.
Qed.

Lemma NoDup_keys_perm {V W} (o1 : jsobj V) (o2 : jsobj W) :
  NoDup (Obj.keys o1) -> NoDup (Obj.keys o2) ->
  (forall k, k ∈ Obj.keys o1 <-> k ∈ Obj.keys o2) ->
  Obj.keys o1 ≡ₚ Obj.keys o2.
Proof. intros H1 H2 H. apply NoDup_Permutation; assumption. Qed.

End SortFacts.

(** ** Shape of the tables *)

Module ShapeFacts.

Lemma table_wf_nil {V} : table_wf ([] : jsobj (jsobj V)).
Proof. split; [constructor | intros p row H; discriminate H]. Qed.

Lemma table_wf_set {V} (t : jsobj (jsobj V)) p row :
  table_wf t -> NoDup (Obj.keys row) -> table_wf (Obj.set p row t).
Proof.
  intros [Hk Hrows] Hrow. split; [apply ObjFacts.NoDup_keys_set, Hk|].
  intros q r. rewrite ObjFacts.get_set. case_decide.
  - intros [= <-]. exact Hrow.
  - apply Hrows.
Qed.

Lemma table_wf_set_cell {V} (t : jsobj (jsobj V)) p m (v : V) :
  table_wf t -> table_wf (set_cell p m v t).
Proof.
  intros Hwf. unfold set_cell. destruct (Obj.get p t) as [row|] eqn:Hp;
    [|exact Hwf].
  apply table_wf_set; [exact Hwf|].
  apply ObjFacts.NoDup_keys_set. destruct Hwf as [_ Hrows]. apply (Hrows p row Hp).
Qed.

Lemma buildEntry_NoDup col ids v : NoDup (Obj.keys (buildEntry col ids v)).
Proof.
  unfold buildEntry. generalize (Obj.keys (valuesPerMode v)).
  assert (H0 : NoDup (Obj.keys ([] : RawEntry))) by constructor.
  revert H0. generalize ([] : RawEntry).
  intros entry Hentry L. revert entry Hentry.
  induction L as [|modeId L IH]; intros entry Hentry; [exact Hentry|].
  cbn [fold_left]. apply IH.
  destruct (Obj.get modeId (valuesPerMode v)) as [mv|]; [|exact Hentry].
  cbn zeta.
  destruct (buildTokenValueRaw (value mv) (isAlias mv) ids (resolvedType v));
    [|exact Hentry].
  unfold Obj.assign. case_decide; [exact Hentry|].
  apply ObjFacts.NoDup_keys_set, Hentry.
Qed.

Lemma raw_wf_set raw b (t : RawTable) :
  raw_wf raw -> table_wf t -> raw_wf (bucket_set b t raw).
Proof.
  intros Hwf Ht b'. destruct (decide (b' = b)) as [->|Hne].
  - rewrite CollisionFacts.bucket_get_set. exact Ht.
  - specialize (Hwf b'). destruct b, b'; try contradiction; exact Hwf.
Qed.

Lemma processVariable_wf col ids st v :
  raw_wf (tokensRaw st) -> raw_wf (tokensRaw (processVariable col ids st v)).
Proof.
  intros Hwf. unfold processVariable.
  destruct (routeBucket col v) as [bucket|]; [|exact Hwf].
  unfold claimAndAdd, checkCollisionAndAdd.
  destruct (bucket_get (tokenPathToFirst st) bucket !! _) as [existing|].
  - case_decide; [|exact Hwf].
    cbn [tokensRaw]. apply raw_wf_set; [exact Hwf|].
    rewrite CollisionFacts.addModeValues_eq.
    apply table_wf_set; [apply Hwf | apply buildEntry_NoDup].
  - destruct (Obj.proto_member _); [exact Hwf|].
    cbn [tokensRaw]. apply raw_wf_set; [exact Hwf|].
    rewrite CollisionFacts.addModeValues_eq.
    apply table_wf_set; [apply Hwf | apply buildEntry_NoDup].
Qed.

(** The raw tables of the builder never repeat a key. *)
Lemma buildTokensRaw_wf cols : raw_wf (tokensRaw (buildTokensRaw cols)).
Proof.
  unfold buildTokensRaw.
  generalize (buildVarIdToTokenPath cols). intros ids.
  assert (H0 : raw_wf (tokensRaw initBuildState))
    by (intros b; destruct b; apply table_wf_nil).
  revert H0. generalize initBuildState.
  induction cols as [|col cols IH]; intros st Hst; [exact Hst|].
  cbn [fold_left]. apply IH.
  generalize dependent st. generalize (variables col).
  intros vs. induction vs as [|v vs IHv]; intros st Hst; [exact Hst|].
  cbn [fold_left]. apply IHv, processVariable_wf, Hst.
Qed.

Lemma resolveModes_wf raw bucket p M :
  forall acc,
    table_wf (fst acc) -> table_wf (fst (resolveModes raw bucket p M acc)).
Proof.
  induction M as [|m M IH]; intros [res errs] Hwf; [exact Hwf|].
  rewrite PassFacts.resolveModes_cons. apply IH. cbn [fst].
  apply table_wf_set_cell, Hwf.
Qed.

(** Neither do the resolved tables. *)
Lemma resolveBucket_wf raw bucket errs :
  table_wf (fst (resolveBucket raw bucket errs)).
Proof.
  unfold resolveBucket.
  assert (H0 : table_wf (fst (([], errs) : ResolvedTable * list ResolutionError)))
    by apply table_wf_nil.
  revert H0. generalize (([], errs) : ResolvedTable * list ResolutionError).
  generalize (sorted_keys (bucket_get raw bucket)).
  intros L. induction L as [|p L IH]; intros acc Hacc; [exact Hacc|].
  cbn [fold_left]. apply IH. unfold pass_step.
  destruct (Obj.get p (bucket_get raw bucket)); [|exact Hacc].
  apply resolveModes_wf. cbn [fst]. apply table_wf_set; [exact Hacc|constructor].
Qed.

(** The key list an assignment produces depends on the key list only. *)
Lemma keys_insert_index_congr {V W} (o : jsobj V) (o' : jsobj W) n k v v' :
  Obj.keys o = Obj.keys o' ->
  Obj.keys (Obj.insert_index n k v o) = Obj.keys (Obj.insert_index n k v' o').
Proof.
  revert o'. induction o as [|[k0 v0] o IH]; intros [|[k0' v0'] o'] Hk;
    try discriminate Hk; [reflexivity|].
  injection Hk as -> Hk. cbn [Obj.insert_index].
  destruct (Obj.array_index k0') as [n'|].
  - destruct (N.ltb n' n).
    + change (k0' :: Obj.keys (Obj.insert_index n k v o)
              = k0' :: Obj.keys (Obj.insert_index n k v' o')).
      f_equal. apply IH, Hk.
    + change (k :: k0' :: Obj.keys o = k :: k0' :: Obj.keys o').
      rewrite Hk. reflexivity.
  - change (k :: k0' :: Obj.keys o = k :: k0' :: Obj.keys o').
    rewrite Hk. reflexivity.
Qed.

Lemma keys_set_congr {V W} (o : jsobj V) (o' : jsobj W) k v v' :
  Obj.keys o = Obj.keys o' ->
  Obj.keys (Obj.set k v o) = Obj.keys (Obj.set k v' o').
Proof.
  intros Hk.
  destruct (Obj.get k o) as [x|] eqn:Hg; destruct (Obj.get k o') as [x'|] eqn:Hg'.
  - rewrite !ObjFacts.keys_set_present by (rewrite ?Hg, ?Hg'; eauto). exact Hk.
  - exfalso. apply ObjFacts.get_None_keys in Hg'. apply Hg'. rewrite <- Hk.
    apply ObjFacts.get_Some_keys. rewrite Hg. eauto.
  - exfalso. apply ObjFacts.get_None_keys in Hg. apply Hg. rewrite Hk.
    apply ObjFacts.get_Some_keys. rewrite Hg'. eauto.
  - unfold Obj.set. rewrite Hg, Hg'. destruct (Obj.array_index k).
    + apply keys_insert_index_congr, Hk.
    + unfold Obj.keys in *. rewrite !List.map_app, Hk. reflexivity.
Qed.

(** The key list of a rebuilt object depends on the key set only. *)
Lemma keys_rebuild_sorted_perm {V W} (o1 : jsobj V) (o2 : jsobj W) :
  Obj.keys o1 ≡ₚ Obj.keys o2 ->
  Obj.keys (rebuild_sorted o1) = Obj.keys (rebuild_sorted o2).
Proof.
  intros Hp. unfold rebuild_sorted.
  rewrite (SortFacts.sorted_keys_perm o1 o2 Hp).
  assert (Hsome : forall k, is_Some (Obj.get k o1) <-> is_Some (Obj.get k o2)).
  { intros k. rewrite !ObjFacts.get_Some_keys, Hp. reflexivity. }
  assert (H0 : Obj.keys ([] : jsobj V) = Obj.keys ([] : jsobj W)) by reflexivity.
  revert H0. generalize ([] : jsobj V) ([] : jsobj W).
  generalize (sorted_keys o2). intros L.
  induction L as [|k L IH]; intros out1 out2 Hout; [exact Hout|].
  cbn [fold_left]. apply IH. unfold rebuild_step.
  destruct (Obj.get k o1) as [v1|] eqn:H1; destruct (Obj.get k o2) as [v2|] eqn:H2.
  - apply keys_set_congr, Hout.
  - exfalso. destruct (proj1 (Hsome k)) as [x Hx]; [rewrite H1; eauto|congruence].
  - exfalso. destruct (proj2 (Hsome k)) as [x Hx]; [rewrite H2; eauto|congruence].
  - exact Hout.
Qed.

End ShapeFacts.

Module ExportFacts.

Lemma map_values_compose {A B C} (g : B -> C) (h : A -> B) (o : jsobj A) :
  map_values g (map_values h o) = map_values (fun x => g (h x)) o.
Proof. unfold map_values. rewrite List.map_map. reflexivity. Qed.

Lemma table_json_eq {V} (f : V -> json) (t : jsobj (jsobj V)) :
  table_json f t = JObj (map_values (fun row => JObj (map_values f row)) t).
Proof. reflexivity. Qed.

Lemma sortObjectKeys_table {V} (f : V -> json) (t : jsobj (jsobj V)) :
  sortObjectKeys (table_json f t)
  = JObj (rebuild_sorted (map_values (sorted_row f) t)).
Proof.
  rewrite table_json_eq, SortFacts.sortObjectKeys_obj, map_values_compose.
  do 2 f_equal. unfold map_values. apply List.map_ext. intros [p row].
  cbn [fst snd]. f_equal.
  rewrite SortFacts.sortObjectKeys_obj.
  fold (map_values f row). rewrite map_values_compose. reflexivity.
Qed.

Lemma json_keys_sorted_table {V} (f : V -> json) (t : jsobj (jsobj V)) :
  json_keys (sortObjectKeys (table_json f t))
  = Obj.keys (rebuild_sorted (map_values (sorted_row f) t)).
Proof. rewrite sortObjectKeys_table. reflexivity. Qed.

Lemma json_get_sorted_table {V} (f : V -> json) (t : jsobj (jsobj V)) p :
  json_get p (sortObjectKeys (table_json f t)) = sorted_row f <$> Obj.get p t.
Proof.
  rewrite sortObjectKeys_table. cbn [json_get].
  rewrite SortFacts.get_rebuild_sorted, SortFacts.get_map_values. reflexivity.
Qed.

Lemma json_get_sorted_row {V} (f : V -> json) (row : jsobj V) m :
  json_get m (sorted_row f row)
  = (fun c => sortObjectKeys (f c)) <$> Obj.get m row.
Proof.
  unfold sorted_row. cbn [json_get].
  rewrite SortFacts.get_rebuild_sorted, SortFacts.get_map_values. reflexivity.
Qed.

(** Tables with the same key set normalize to the same key list. *)
Lemma json_keys_sorted_table_perm {V W} (f : V -> json) (g : W -> json)
    (t : jsobj (jsobj V)) (u : jsobj (jsobj W)) :
  Obj.keys t ≡ₚ Obj.keys u ->
  json_keys (sortObjectKeys (table_json f t))
  = json_keys (sortObjectKeys (table_json g u)).
Proof.
  intros Hp. rewrite !json_keys_sorted_table.
  apply ShapeFacts.keys_rebuild_sorted_perm.
  rewrite !SortFacts.keys_map_values. exact Hp.
Qed.

Lemma json_keys_sorted_row_perm {V W} (f : V -> json) (g : W -> json)
    (r : jsobj V) (s : jsobj W) :
  Obj.keys r ≡ₚ Obj.keys s ->
  json_keys (sorted_row f r) = json_keys (sorted_row g s).
Proof.
  intros Hp. unfold sorted_row. cbn [json_keys].
  apply ShapeFacts.keys_rebuild_sorted_perm.
  rewrite !SortFacts.keys_map_values. exact Hp.
Qed.

Lemma sorted_buckets_get {V} (f : V -> json) (t : Buckets (jsobj (jsobj V))) b :
  json_get (bucket_name b) (sortObjectKeys (buckets_json f t))
  = Some (sortObjectKeys (table_json f (bucket_get t b))).
Proof. destruct t as [c s r], b; reflexivity. Qed.

(** The two token tables of the export, per bucket. *)
Lemma export_tokensRaw localeCompare now cols b :
  json_path ["tokensRaw"; bucket_name b] (buildExportModel localeCompare now cols)
  = Some (sortObjectKeys
            (table_json TokenValueRaw_json
               (bucket_get (tokensRaw (buildTokensRaw cols)) b))).
Proof.
  unfold buildExportModel.
  destruct (buildTokensResolved (tokensRaw (buildTokensRaw cols))) as [res errs].
  cbn [json_path].
  change (json_get "tokensRaw" (JObj _))
    with (Some (sortObjectKeys
                  (buckets_json TokenValueRaw_json (tokensRaw (buildTokensRaw cols))))).
  cbv beta iota. rewrite sorted_buckets_get. reflexivity.
Qed.

Lemma export_tokensResolved localeCompare now cols b :
  json_path ["tokensResolved"; bucket_name b]
    (buildExportModel localeCompare now cols)
  = Some (sortObjectKeys
            (table_json ResolvedCell_json
               (bucket_get
                  (fst (buildTokensResolved (tokensRaw (buildTokensRaw cols)))) b))).
Proof.
  unfold buildExportModel.
  destruct (buildTokensResolved (tokensRaw (buildTokensRaw cols))) as [res errs].
  cbn [json_path fst].
  change (json_get "tokensResolved" (JObj _))
    with (Some (sortObjectKeys (buckets_json ResolvedCell_json res))).
  cbv beta iota. rewrite sorted_buckets_get. reflexivity.
Qed.

(** Each bucket of the resolved table is the result of the pass over that
    bucket, for some list of earlier errors. *)
Lemma buildTokensResolved_bucket raw b :
  exists errs,
    bucket_get (fst (buildTokensResolved raw)) b = fst (resolveBucket raw b errs).
Proof.
  rewrite ErrorFacts.buildTokensResolved_eq. cbn [fst].
  destruct b; cbn [bucket_get bk_color bk_spacing bk_radius]; eauto.
Qed.

End ExportFacts.

(** C10.  In every bucket of the export, [tokensResolved] has the same
    token-path keys as [tokensRaw], in the same order, and under every
    token path the same mode keys, in the same order; every raw cell has a
    resolved cell (possibly [null]). *)
Theorem resolved_mirrors_raw (localeCompare : string -> string -> Z)
    (now : string) (cols : list RawCollection) (bucket : Bucket) :
  let out := buildExportModel localeCompare now cols in
  exists rawT resT : json,
    json_path ["tokensRaw"; bucket_name bucket] out = Some rawT
    /\ json_path ["tokensResolved"; bucket_name bucket] out = Some resT
    /\ json_keys resT = json_keys rawT
    /\ (forall p,
          p ∈ json_keys rawT ->
          exists rawRow resRow : json,
            json_get p rawT = Some rawRow
            /\ json_get p resT = Some resRow
            /\ json_keys resRow = json_keys rawRow
            /\ forall m, m ∈ json_keys rawRow -> is_Some (json_get m resRow)).
Proof.
  intros out. unfold out.
  set (raw := tokensRaw (buildTokensRaw cols)).
  destruct (ExportFacts.buildTokensResolved_bucket raw bucket) as [errs Hres].
  pose proof (ShapeFacts.buildTokensRaw_wf cols bucket) as [HrawK HrawR].
  fold raw in HrawK, HrawR.
  pose proof (ShapeFacts.resolveBucket_wf raw bucket errs) as [HresK HresR].
  eexists. eexists.
  split; [apply ExportFacts.export_tokensRaw|].
  split; [apply ExportFacts.export_tokensResolved|].
  fold raw. rewrite Hres.
  assert (Hmem : forall p,
            p ∈ Obj.keys (fst (resolveBucket raw bucket errs))
            <-> p ∈ Obj.keys (bucket_get raw bucket)).
  { intros p. rewrite <- !ObjFacts.get_Some_keys.
    destruct (Obj.get p (bucket_get raw bucket)) as [entry|] eqn:Hp.
    - destruct (PassFacts.resolveBucket_row raw bucket errs p entry Hp)
        as [row [Hrow _]].
      rewrite Hrow. split; eauto.
    - rewrite (PassFacts.resolveBucket_absent raw bucket errs p Hp).
      split; intros [x Hx]; discriminate Hx. }
  split.
  - apply ExportFacts.json_keys_sorted_table_perm.
    apply NoDup_Permutation; assumption.
  - intros p Hp.
    rewrite ExportFacts.json_keys_sorted_table in Hp.
    apply (proj1 (SortFacts.elem_of_keys_rebuild_sorted _ _)) in Hp.
    rewrite SortFacts.keys_map_values in Hp.
    apply (proj2 (ObjFacts.get_Some_keys _ _)) in Hp.
    destruct Hp as [entry Hentry].
    destruct (PassFacts.resolveBucket_row raw bucket errs p entry Hentry)
      as [row [Hrow Hcells]].
    exists (sorted_row TokenValueRaw_json entry),
      (sorted_row ResolvedCell_json row).
    rewrite !ExportFacts.json_get_sorted_table, Hentry, Hrow.
    split; [reflexivity|]. split; [reflexivity|].
    assert (Hm : forall m, m ∈ Obj.keys row <-> m ∈ Obj.keys entry).
    { intros m. rewrite <- (ObjFacts.get_Some_keys row), Hcells.
      destruct (decide (m ∈ Obj.keys entry)) as [Hin|Hnin].
      - split; [intros _; exact Hin | intros _; eauto].
      - split; [intros [x Hx]; discriminate Hx | intros Hin; contradiction]. }
    split.
    + apply ExportFacts.json_keys_sorted_row_perm.
      apply NoDup_Permutation; [eapply HresR, Hrow | eapply HrawR, Hentry | exact Hm].
    + intros m Hin. unfold sorted_row in Hin. cbn [json_keys] in Hin.
      apply (proj1 (SortFacts.elem_of_keys_rebuild_sorted _ _)) in Hin.
      rewrite SortFacts.keys_map_values in Hin.
      rewrite ExportFacts.json_get_sorted_row, Hcells, decide_True by exact Hin.
      cbn. eauto.
Qed.

Lemma resolved_mirrors_raw_witness :
  exists rawT resT : json,
    json_path ["tokensRaw"; "color"]
      (buildExportModel (fun _ _ => 0%Z) "" cycle_scenario) = Some rawT
    /\ json_path ["tokensResolved"; "color"]
         (buildExportModel (fun _ _ => 0%Z) "" cycle_scenario) = Some resT
    /\ json_keys resT = json_keys rawT
    /\ exists rawRow resRow : json,
         json_get "loop.a" rawT = Some rawRow
         /\ json_get "loop.a" resT = Some resRow
         /\ json_keys resRow = json_keys rawRow
         /\ is_Some (json_get "Light" resRow).
Proof.
  destruct (resolved_mirrors_raw (fun _ _ => 0%Z) "" cycle_scenario color)
    as [rawT [resT [Hraw [Hres [Hkeys Hrows]]]]].
  exists rawT, resT.
  split; [exact Hraw|]. split; [exact Hres|]. split; [exact Hkeys|].
  assert (Hin : "loop.a" ∈ json_keys rawT).
  { vm_compute in Hraw. injection Hraw as <-. vm_compute. left. }
  destruct (Hrows "loop.a" Hin) as [rawRow [resRow [H1 [H2 [H3 H4]]]]].
  exists rawRow, resRow.
  split; [exact H1|]. split; [exact H2|]. split; [exact H3|].
  apply H4. rewrite <- H3.
  vm_compute in Hres. injection Hres as <-.
  vm_compute in H2. injection H2 as <-. vm_compute. left.
Defined.

(** ** Enumeration order of normalized objects *)

Module OrderFacts.

#[local] Instance js_key_le_trans : Transitive js_key_le.
Proof.
  intros a b c. unfold js_key_le.
  destruct (Obj.array_index a), (Obj.array_index b), (Obj.array_index c);
    try tauto; try lia.
  apply transitivity.
Qed.

Lemma js_key_le_index_any a b n :
  Obj.array_index a = Some n ->
  match Obj.array_index b with Some m => (n <= m)%N | None => True end ->
  js_key_le a b.
Proof.
  intros Ha Hb. unfold js_key_le. rewrite Ha.
  destruct (Obj.array_index b); exact Hb.
Qed.

(** Inserting an array index keeps the key list in enumeration order. *)
Lemma insert_index_sorted {V} (o : jsobj V) n k v :
  Obj.array_index k = Some n ->
  StronglySorted js_key_le (Obj.keys o) ->
  StronglySorted js_key_le (Obj.keys (Obj.insert_index n k v o)).
Proof.
  intros Hk. induction o as [|[k0 v0] o IH]; intros Hs.
  - repeat constructor.
  - change (Obj.keys ((k0, v0) :: o)) with (k0 :: Obj.keys o) in Hs.
    apply StronglySorted_cons in Hs. destruct Hs as [Hall Hs].
    assert (Hhead : js_key_le k k0 ->
              StronglySorted js_key_le (k :: k0 :: Obj.keys o)).
    { intros Hle. apply StronglySorted_cons. split.
      - constructor; [exact Hle|].
        eapply Forall_impl; [exact Hall|].
        intros x Hx. etransitivity; eassumption.
      - apply StronglySorted_cons. split; assumption. }
    cbn [Obj.insert_index].
    destruct (Obj.array_index k0) as [n'|] eqn:Hk0.
    + destruct (N.ltb n' n) eqn:Hlt.
      * change (StronglySorted js_key_le
                  (k0 :: Obj.keys (Obj.insert_index n k v o))).
        apply StronglySorted_cons. split; [|apply IH, Hs].
        rewrite (ObjFacts.keys_insert_index o n k v). constructor; [|exact Hall].
        apply (js_key_le_index_any k0 k n' Hk0). rewrite Hk.
        apply N.ltb_lt in Hlt. lia.
      * apply Hhead. apply (js_key_le_index_any k k0 n Hk). rewrite Hk0.
        apply N.ltb_ge in Hlt. exact Hlt.
    + apply Hhead. apply (js_key_le_index_any k k0 n Hk). rewrite Hk0. exact I.
Qed.

(** Appending a key that is not an array index and is above every other
    such key keeps the key list in enumeration order. *)
Lemma append_sorted {V} (o : jsobj V) k v :
  Obj.array_index k = None ->
  StronglySorted js_key_le (Obj.keys o) ->
  Forall (fun k' => Obj.array_index k' = None -> String.le k' k) (Obj.keys o) ->
  StronglySorted js_key_le (Obj.keys (o ++ [(k, v)])).
Proof.
  intros Hk Hs Hall. unfold Obj.keys. rewrite List.map_app.
  apply StronglySorted_app_2; [|exact Hs|repeat constructor].
  intros x1 x2 H1 H2. cbn [List.map fst] in H2.
  apply list_elem_of_singleton in H2. subst x2.
  rewrite Forall_forall in Hall. specialize (Hall x1 H1).
  unfold js_key_le. rewrite Hk.
  destruct (Obj.array_index x1); [exact I | apply Hall; reflexivity].
Qed.

Lemma set_sorted {V} (o : jsobj V) k v :
  StronglySorted js_key_le (Obj.keys o) ->
  Forall (fun k' => Obj.array_index k' = None -> String.le k' k) (Obj.keys o) ->
  StronglySorted js_key_le (Obj.keys (Obj.set k v o)).
Proof.
  intros Hs Hall. unfold Obj.set.
  destruct (Obj.get k o) eqn:Hg; [rewrite ObjFacts.keys_replace; exact Hs|].
  destruct (Obj.array_index k) as [n|] eqn:Hk.
  - apply insert_index_sorted; assumption.
  - apply append_sorted; assumption.
Qed.

(** The loop of [sortObjectKeys] over an ascending key list. *)
Lemma rebuild_fold_sorted {V} (o : jsobj V) L :
  forall out,
    StronglySorted String.le L ->
    StronglySorted js_key_le (Obj.keys out) ->
    Forall (fun k' => Obj.array_index k' = None -> Forall (String.le k') L)
      (Obj.keys out) ->
    StronglySorted js_key_le (Obj.keys (fold_left (rebuild_step o) L out)).
Proof.
  induction L as [|k L IH]; intros out HL Hs Hall; [exact Hs|].
  cbn [fold_left]. apply StronglySorted_cons in HL. destruct HL as [HkL HL].
  apply IH; [exact HL| |].
  - unfold rebuild_step. destruct (Obj.get k o); [|exact Hs].
    apply set_sorted; [exact Hs|].
    eapply Forall_impl; [exact Hall|]. intros k' Hk' Hnone.
    specialize (Hk' Hnone). apply Forall_cons in Hk'. apply Hk'.
  - unfold rebuild_step.
    assert (Hout : Forall (fun k' => Obj.array_index k' = None ->
                                     Forall (String.le k') L) (Obj.keys out)).
    { eapply Forall_impl; [exact Hall|]. intros k' Hk' Hnone.
      specialize (Hk' Hnone). apply Forall_cons in Hk'. apply Hk'. }
    destruct (Obj.get k o) as [v|]; [|exact Hout].
    apply Forall_forall. intros k' Hin Hnone.
    apply ObjFacts.elem_of_keys_set in Hin. destruct Hin as [->|Hin].
    + exact HkL.
    + rewrite Forall_forall in Hout. apply (Hout k' Hin Hnone).
Qed.

(** A rebuilt object has its keys in enumeration order. *)
Lemma rebuild_sorted_order {V} (o : jsobj V) :
  StronglySorted js_key_le (Obj.keys (rebuild_sorted o)).
Proof.
  unfold rebuild_sorted.
  apply rebuild_fold_sorted.
  - unfold sorted_keys. apply StronglySorted_merge_sort; apply _.
  - constructor.
  - constructor.
Qed.

(** The values of a rebuilt object are values of the object. *)
Lemma Forall_values_set {V} (P : V -> Prop) (o : jsobj V) k v :
  P v -> Forall (fun kv => P (snd kv)) o ->
  Forall (fun kv => P (snd kv)) (Obj.set k v o).
Proof.
  intros Hv Ho. unfold Obj.set. destruct (Obj.get k o).
  - induction Ho as [|[k0 x0] o Hx Ho IH]; [constructor|].
    cbn [Obj.replace]. case_decide; constructor; assumption.
  - destruct (Obj.array_index k) as [n|].
    + induction Ho as [|[k0 x0] o Hx Ho IH]; [repeat constructor; exact Hv|].
      cbn [Obj.insert_index]. destruct (Obj.array_index k0) as [n'|].
      * destruct (N.ltb n' n); repeat constructor; assumption.
      * repeat constructor; assumption.
    + apply Forall_app. split; [exact Ho | repeat constructor; exact Hv].
Qed.

Lemma Forall_values_rebuild {V} (P : V -> Prop) (o : jsobj V) :
  Forall (fun kv => P (snd kv)) o ->
  Forall (fun kv => P (snd kv)) (rebuild_sorted o).
Proof.
  intros Ho. unfold rebuild_sorted.
  assert (H0 : Forall (fun kv => P (snd kv)) ([] : jsobj V)) by constructor.
  revert H0. generalize ([] : jsobj V). generalize (sorted_keys o).
  intros L. induction L as [|k L IH]; intros out Hout; [exact Hout|].
  cbn [fold_left]. apply IH. unfold rebuild_step.
  destruct (Obj.get k o) as [v|] eqn:Hg; [|exact Hout].
  apply Forall_values_set; [|exact Hout].
  rewrite Forall_forall in Ho. apply (Ho (k, v)), ObjFacts.get_elem_of, Hg.
Qed.

(** Induction on JSON values, with the hypothesis on every field of an
    object. *)
Lemma json_obj_ind (P : json -> Prop) :
  P JNull -> (forall b, P (JBool b)) -> (forall n, P (JNum n)) ->
  (forall s, P (JStr s)) -> (forall l, P (JArr l)) ->
  (forall o, Forall (fun kv => P (snd kv)) o -> P (JObj o)) ->
  P JUndefined ->
  forall v, P v.
Proof.
  intros Hnull Hbool Hnum Hstr Harr Hobj Hundef.
  fix IH 1. intros [ | b | n | s | l | o | ].
  - exact Hnull.
  - apply Hbool.
  - apply Hnum.
  - apply Hstr.
  - apply Harr.
  - apply Hobj. induction o as [|[k x] o IHo]; constructor.
    + apply IH.
    + exact IHo.
  - exact Hundef.
Qed.

Lemma json_sorted_obj o :
  json_sorted (JObj o)
  <-> StronglySorted js_key_le (Obj.keys o)
      /\ Forall (fun kv => json_sorted (snd kv)) o.
Proof.
  cbn [json_sorted]. unfold Obj.keys.
  assert (H : (fix all (l : list (string * json)) : Prop :=
                 match l with
                 | [] => True
                 | (_, x) :: t => json_sorted x /\ all t
                 end) o
              <-> Forall (fun kv => json_sorted (snd kv)) o).
  { induction o as [|[k x] o IH].
    - split; [constructor | intros _; exact I].
    - rewrite Forall_cons, <- IH. reflexivity. }
  rewrite H. reflexivity.
Qed.

(** [sortObjectKeys] returns a value whose objects are recursively in
    enumeration order. *)
Lemma sortObjectKeys_sorted v : json_sorted (sortObjectKeys v).
Proof.
  induction v as [ | b | n | s | l | o IH | ] using json_obj_ind;
    try exact I.
  rewrite SortFacts.sortObjectKeys_obj. apply json_sorted_obj. split.
  - apply rebuild_sorted_order.
  - apply Forall_values_rebuild. unfold map_values.
    apply Forall_forall. intros [k x] Hin.
    apply list_elem_of_In, List.in_map_iff in Hin.
    destruct Hin as [[k0 x0] [[= <- <-] Hin0]].
    rewrite Forall_forall in IH. apply (IH (k0, x0)).
    apply list_elem_of_In, Hin0.
Qed.

End OrderFacts.

(** ** Determinism *)

Module DeterminismFacts.

Lemma obj_same_get {V} (r s : jsobj V) :
  obj_same r s -> forall m, Obj.get m r = Obj.get m s.
Proof.
  intros [Hp Hall] m. rewrite Forall_forall in Hall.
  destruct (decide (m ∈ Obj.keys r)) as [Hin|Hnin]; [apply Hall, Hin|].
  pose proof Hnin as Hnin'. rewrite Hp in Hnin'.
  apply ObjFacts.get_None_keys in Hnin, Hnin'. congruence.
Qed.

(** Rows with the same content normalize to the same row. *)
Lemma sorted_row_same {V} (f : V -> json) (r s : jsobj V) :
  obj_same r s -> sorted_row f r = sorted_row f s.
Proof.
  intros Hsame. unfold sorted_row. f_equal.
  apply SortFacts.rebuild_sorted_canonical.
  - rewrite !SortFacts.keys_map_values. apply Hsame.
  - intros m. rewrite !SortFacts.get_map_values, (obj_same_get r s Hsame m).
    reflexivity.
Qed.

(** Tables with the same content normalize to the same table. *)
Lemma sortObjectKeys_table_same {V} (f : V -> json) (t u : jsobj (jsobj V)) :
  table_same t u ->
  sortObjectKeys (table_json f t) = sortObjectKeys (table_json f u).
Proof.
  intros [Hp Hall]. rewrite !ExportFacts.sortObjectKeys_table. f_equal.
  apply SortFacts.rebuild_sorted_canonical.
  - rewrite !SortFacts.keys_map_values. exact Hp.
  - intros p. rewrite !SortFacts.get_map_values.
    rewrite Forall_forall in Hall.
    destruct (decide (p ∈ Obj.keys t)) as [Hin|Hnin].
    + specialize (Hall p Hin).
      destruct (Obj.get p t) as [r|], (Obj.get p u) as [s|]; try contradiction.
      cbn. f_equal. apply sorted_row_same, Hall.
    + pose proof Hnin as Hnin'. rewrite Hp in Hnin'.
      apply ObjFacts.get_None_keys in Hnin, Hnin'. rewrite Hnin, Hnin'.
      reflexivity.
Qed.

Lemma sortObjectKeys_buckets {V} (f : V -> json) (t : Buckets (jsobj (jsobj V))) :
  sortObjectKeys (buckets_json f t)
  = JObj (rebuild_sorted
            [("color", sortObjectKeys (table_json f (bk_color t)));
             ("spacing", sortObjectKeys (table_json f (bk_spacing t)));
             ("radius", sortObjectKeys (table_json f (bk_radius t)))]).
Proof. unfold buckets_json. rewrite SortFacts.sortObjectKeys_obj. reflexivity. Qed.

Lemma sortObjectKeys_buckets_same {V} (f : V -> json)
    (t u : Buckets (jsobj (jsobj V))) :
  (forall b, table_same (bucket_get t b) (bucket_get u b)) ->
  sortObjectKeys (buckets_json f t) = sortObjectKeys (buckets_json f u).
Proof.
  intros H. rewrite !sortObjectKeys_buckets.
  pose proof (H color) as Hc. pose proof (H spacing) as Hs.
  pose proof (H radius) as Hr. cbn [bucket_get] in Hc, Hs, Hr.
  rewrite (sortObjectKeys_table_same f _ _ Hc),
    (sortObjectKeys_table_same f _ _ Hs),
    (sortObjectKeys_table_same f _ _ Hr).
  reflexivity.
Qed.

End DeterminismFacts.

(** C1, as the code has it.  The export is the timestamp [meta.exportedAt]
    of the call plus a part that depends on the snapshot only: two calls
    on the same snapshot agree on everything else, key order included.
    [tokensRaw] and [tokensResolved] are the key-normalized token tables:
    their objects are recursively in enumeration order (array indices
    first, numerically, then the other keys in ascending order of code
    units); key normalization gives the same result for tables with the
    same content whatever the insertion order of their keys, and returns
    an array as it is. *)
Theorem export_deterministic_up_to_timestamp
    (localeCompare : string -> string -> Z) (cols : list RawCollection) :
  (exists rest : list (string * json),
     forall now,
       buildExportModel localeCompare now cols
       = JObj (("meta",
                JObj [("exportedAt", JStr now);
                      ("pluginVersion", JStr PLUGIN_VERSION)]) :: rest))
  /\ (forall now,
        exists rawJ resJ : json,
          json_get "tokensRaw" (buildExportModel localeCompare now cols)
          = Some rawJ
          /\ json_get "tokensResolved" (buildExportModel localeCompare now cols)
             = Some resJ
          /\ rawJ = sortObjectKeys
                      (buckets_json TokenValueRaw_json
                         (tokensRaw (buildTokensRaw cols)))
          /\ resJ = sortObjectKeys
                      (buckets_json ResolvedCell_json
                         (fst (buildTokensResolved (tokensRaw (buildTokensRaw cols)))))
          /\ json_sorted rawJ /\ json_sorted resJ)
  /\ (forall (t u : TokensRaw),
        (forall b, table_same (bucket_get t b) (bucket_get u b)) ->
        sortObjectKeys (buckets_json TokenValueRaw_json t)
        = sortObjectKeys (buckets_json TokenValueRaw_json u))
  /\ (forall (t u : Buckets ResolvedTable),
        (forall b, table_same (bucket_get t b) (bucket_get u b)) ->
        sortObjectKeys (buckets_json ResolvedCell_json t)
        = sortObjectKeys (buckets_json ResolvedCell_json u))
  /\ (forall items, sortObjectKeys (JArr items) = JArr items).
Proof.
  split; [|split; [|split; [|split]]].
  - unfold buildExportModel.
    destruct (buildTokensResolved (tokensRaw (buildTokensRaw cols))) as [res errs].
    eexists. intros now. reflexivity.
  - intros now. unfold buildExportModel.
    destruct (buildTokensResolved (tokensRaw (buildTokensRaw cols))) as [res errs].
    eexists. eexists.
    split; [reflexivity|]. split; [reflexivity|].
    split; [reflexivity|]. split; [reflexivity|].
    split; apply OrderFacts.sortObjectKeys_sorted.
  - intros t u. apply DeterminismFacts.sortObjectKeys_buckets_same.
  - intros t u. apply DeterminismFacts.sortObjectKeys_buckets_same.
  - intros items. reflexivity.
Qed.

Lemma export_deterministic_up_to_timestamp_witness :
  sortObjectKeys (buckets_json ResolvedCell_json table_ab)
  = sortObjectKeys (buckets_json ResolvedCell_json table_ba).
Proof.
  destruct (export_deterministic_up_to_timestamp (fun _ _ => 0%Z) scenario)
    as [_ [_ [_ [H _]]]].
  apply H. intros b. destruct b; cbn.
  - split; [apply perm_swap|].
    repeat constructor; cbn; try apply perm_swap; reflexivity.
  - split; [reflexivity | constructor].
  - split; [reflexivity | constructor].
Defined.

(** C1 as stated fails: two calls at different times differ in
    [meta.exportedAt]; and the normalized tables are not in ascending key
    order when keys are array indices ("9" comes before "10"). *)
Lemma export_differs_by_timestamp :
  buildExportModel (fun _ _ => 0%Z) "2026-01-01T00:00:00.000Z" scenario
  <> buildExportModel (fun _ _ => 0%Z) "2026-01-01T00:00:01.000Z" scenario
  /\ (json_keys <$>
        json_path ["tokensRaw"; "spacing"]
          (buildExportModel (fun _ _ => 0%Z) "" numeric_scenario))
     = Some ["9"; "10"]
  /\ ~ String.le "9" "10".
Proof.
  split; [|split].
  - vm_compute. discriminate.
  - vm_compute. reflexivity.
  - vm_compute. auto.
Qed.

(** * Further properties of the resolver *)

Module ResolverMore.

(** The wrapper [resolveRef] satisfies the equation of the source
    function: one step, then the recursive call. *)
Lemma resolveRef_unfold raw bucket m p st :
  resolveRef p m raw bucket st
  = let key := pathKey bucket p m in
    if decide (key ∈ visited st) then
      (None,
       push_error (mkResolutionError p m "cycle" (chain st ++ [p])) st)
    else
      match Obj.get p (bucket_get raw bucket) with
      | None =>
          (None,
           push_error (mkResolutionError p m "missing token" (chain st ++ [p])) st)
      | Some entry =>
          match getValueForMode entry m with
          | None =>
              (None,
               push_error
                 (mkResolutionError p m "mode mismatch" (chain st ++ [p])) st)
          | Some (Stored (TVRef refPath)) =>
              match Obj.get refPath (bucket_get raw bucket) with
              | None =>
                  (None,
                   push_error
                     (mkResolutionError p m "missing token"
                        ((chain st ++ [p]) ++ [refPath])) st)
              | Some _ =>
                  let r :=
                    resolveRef refPath m raw bucket
                      (mkRState ({[key]} ∪ visited st) (chain st ++ [p])
                         (errors st)) in
                  (fst r, unwind key (snd r))
              end
          | Some (Stored (TVColor rgba _)) => (Some (RRgba rgba), st)
          | Some (Stored (TVNumber n)) => (Some (RValue n), st)
          | Some (Inherited _) => (None, st)
          end
      end.
Proof.
  cbn zeta. destruct (decide (pathKey bucket p m ∈ visited st)) as [Hin|Hnin].
  - apply (ResolveFacts.resolveRef_eq raw bucket m p st 1). cbn [resolveRef_fuel].
    rewrite decide_True by exact Hin. reflexivity.
  - destruct (Obj.get p (bucket_get raw bucket)) as [entry|] eqn:Hp.
    + destruct (getValueForMode entry m) as [[[rgba hex|n|refPath]|member]|] eqn:Hv.
      * apply (ResolveFacts.resolveRef_eq raw bucket m p st 1).
        rewrite (ResolveFacts.resolveRef_fuel_step _ _ _ _ _ _ _ Hnin Hp).
        cbn zeta. rewrite Hv. reflexivity.
      * apply (ResolveFacts.resolveRef_eq raw bucket m p st 1).
        rewrite (ResolveFacts.resolveRef_fuel_step _ _ _ _ _ _ _ Hnin Hp).
        cbn zeta. rewrite Hv. reflexivity.
      * destruct (Obj.get refPath (bucket_get raw bucket)) as [target|] eqn:Ht.
        -- destruct (ResolveFacts.resolveRef_total raw bucket m refPath
                       (mkRState ({[pathKey bucket p m]} ∪ visited st)
                          (chain st ++ [p]) (errors st))) as [[r2 st2] [Hf Hr]].
           rewrite Hr. cbn [fst snd].
           apply (ResolveFacts.resolveRef_eq raw bucket m p st
                    (S (resolve_fuel raw bucket))).
           rewrite (ResolveFacts.resolveRef_fuel_step _ _ _ _ _ _ _ Hnin Hp).
           cbn zeta. rewrite Hv, Ht, Hf. reflexivity.
        -- apply (ResolveFacts.resolveRef_eq raw bucket m p st 1).
           rewrite (ResolveFacts.resolveRef_fuel_step _ _ _ _ _ _ _ Hnin Hp).
           cbn zeta. rewrite Hv, Ht. destruct st; reflexivity.
      * apply (ResolveFacts.resolveRef_eq raw bucket m p st 1).
        rewrite (ResolveFacts.resolveRef_fuel_step _ _ _ _ _ _ _ Hnin Hp).
        cbn zeta. rewrite Hv. reflexivity.
      * apply (ResolveFacts.resolveRef_eq raw bucket m p st 1).
        rewrite (ResolveFacts.resolveRef_fuel_step _ _ _ _ _ _ _ Hnin Hp).
        cbn zeta. rewrite Hv. destruct st; reflexivity.
    + apply (ResolveFacts.resolveRef_eq raw bucket m p st 1).
      cbn [resolveRef_fuel]. rewrite decide_False by exact Hnin. rewrite Hp.
      destruct st as [vis ch errs]. unfold push_error. cbn [visited chain errors].
      cbn [visited] in Hnin.
      rewrite <- (ResolveFacts.unwind_marked (pathKey bucket p m) p vis ch
                    (errs ++ [mkResolutionError p m "missing token" (ch ++ [p])]) Hnin).
      reflexivity.
Qed.


  (** Induction on the calls of [resolveRef]: a property of every exit,
      preserved by the recursive exit, holds of every call. *)
Section outcome.
Variables (raw : TokensRaw) (bucket : Bucket) (m : string).
Variable P : string -> RState -> option Resolved -> RState -> Prop.

Hypothesis P_cycle : forall p st,
  pathKey bucket p m ∈ visited st ->
  P p st None (push_error (mkResolutionError p m "cycle" (chain st ++ [p])) st).
Hypothesis P_missing : forall p st,
  pathKey bucket p m ∉ visited st ->
  Obj.get p (bucket_get raw bucket) = None ->
  P p st None
    (push_error (mkResolutionError p m "missing token" (chain st ++ [p])) st).
Hypothesis P_mismatch : forall p st entry,
  pathKey bucket p m ∉ visited st ->
  Obj.get p (bucket_get raw bucket) = Some entry ->
  getValueForMode entry m = None ->
  P p st None
    (push_error (mkResolutionError p m "mode mismatch" (chain st ++ [p])) st).
Hypothesis P_dangling : forall p st entry q,
  pathKey bucket p m ∉ visited st ->
  Obj.get p (bucket_get raw bucket) = Some entry ->
  getValueForMode entry m = Some (TVRef q) ->
  Obj.get q (bucket_get raw bucket) = None ->
  P p st None
    (push_error
       (mkResolutionError p m "missing token" ((chain st ++ [p]) ++ [q])) st).
Hypothesis P_inherited : forall p st entry member,
  pathKey bucket p m ∉ visited st ->
  Obj.get p (bucket_get raw bucket) = Some entry ->
  getValueForMode entry m = Some (Inherited member) ->
  P p st None st.
Hypothesis P_color : forall p st entry rgba hex,
  pathKey bucket p m ∉ visited st ->
  Obj.get p (bucket_get raw bucket) = Some entry ->
  getValueForMode entry m = Some (TVColor rgba hex) ->
  P p st (Some (RRgba rgba)) st.
Hypothesis P_number : forall p st entry n,
  pathKey bucket p m ∉ visited st ->
  Obj.get p (bucket_get raw bucket) = Some entry ->
  getValueForMode entry m = Some (TVNumber n) ->
  P p st (Some (RValue n)) st.
Hypothesis P_alias : forall p st entry q target r new,
  pathKey bucket p m ∉ visited st ->
  Obj.get p (bucket_get raw bucket) = Some entry ->
  getValueForMode entry m = Some (TVRef q) ->
  Obj.get q (bucket_get raw bucket) = Some target ->
  let st1 :=
    mkRState ({[pathKey bucket p m]} ∪ visited st) (chain st ++ [p]) (errors st) in
  let st2 :=
    mkRState ({[pathKey bucket p m]} ∪ visited st) (chain st ++ [p])
      (errors st ++ new) in
  resolveRef q m raw bucket st1 = (r, st2) ->
  P q st1 r st2 ->
  P p st r (mkRState (visited st) (chain st) (errors st ++ new)).

Lemma resolveRef_outcome_ind p st :
  P p st (fst (resolveRef p m raw bucket st)) (snd (resolveRef p m raw bucket st)).
Proof.
  remember (S (size (unvisited raw bucket m (visited st)))) as n eqn:Hn.
  assert (Hlt : size (unvisited raw bucket m (visited st)) < n) by lia.
  clear Hn. revert p st Hlt.
  induction n as [|n IH]; intros p st Hlt; [lia|].
  rewrite resolveRef_unfold. cbn zeta.
  destruct (decide (pathKey bucket p m ∈ visited st)) as [Hin|Hnin].
  { cbn [fst snd]. apply P_cycle, Hin. }
  destruct (Obj.get p (bucket_get raw bucket)) as [entry|] eqn:Hp.
  2:{ cbn [fst snd]. apply P_missing; assumption. }
  destruct (getValueForMode entry m) as [[[rgba hex|x|q]|member]|] eqn:Hv.
  - cbn [fst snd]. eapply P_color; eassumption.
  - cbn [fst snd]. eapply P_number; eassumption.
  - destruct (Obj.get q (bucket_get raw bucket)) as [target|] eqn:Hq.
    2:{ cbn [fst snd]. eapply P_dangling; eassumption. }
    cbn [fst snd].
    set (st1 := mkRState ({[pathKey bucket p m]} ∪ visited st) (chain st ++ [p])
                  (errors st)).
    assert (Hrec := IH q st1).
    destruct (ResolveFacts.resolveRef_unwinds raw bucket m q st1)
      as [Hvis [Hch [new Herr]]].
    destruct (resolveRef q m raw bucket st1) as [r [vis2 ch2 errs2]] eqn:Hr.
    cbn [fst snd visited chain errors] in *. subst vis2 ch2 errs2.
    assert (Hun := ResolveFacts.unwind_marked (pathKey bucket p m) p (visited st)
                     (chain st) (errors st ++ new) Hnin).
    unfold st1 in *. cbn [visited chain errors] in *.
    rewrite Hun.
    eapply (P_alias p st entry q target r new Hnin Hp Hv Hq).
    + exact Hr.
    + apply Hrec.
      pose proof (ResolveFacts.unvisited_mark raw bucket m (visited st) p
                    (ex_intro _ entry Hp) Hnin) as Hm.
      lia.
  - cbn [fst snd]. eapply P_inherited; eassumption.
  - cbn [fst snd]. eapply P_mismatch; eassumption.
Qed.

End outcome.

Lemma reports_error m p st reason suffix :
  reason ∈ graph_reasons ->
  reports m p st None
    (push_error (mkResolutionError p m reason (chain st ++ p :: suffix)) st).
Proof.
  intros Hr. eexists. split; [reflexivity|]. right.
  eexists. split; [reflexivity|]. exists suffix.
  repeat split; try reflexivity; [exact Hr|].
  cbn. apply elem_of_cons. left. reflexivity.
Qed.

Lemma reports_nothing m p st r :
  match r with Some _ => True | None => Obj.proto_member m = true end ->
  reports m p st r st.
Proof.
  intros Hr. exists []. split.
  - destruct st. cbn. rewrite app_nil_r. reflexivity.
  - destruct r; [reflexivity|]. left. split; [reflexivity|exact Hr].
Qed.

(** The lookup returns an inherited member only under the name of one. *)
Lemma getValueForMode_inherited entry m member :
  getValueForMode entry m = Some (Inherited member) ->
  member = m /\ Obj.get m entry = None /\ Obj.proto_member m = true.
Proof.
  unfold getValueForMode. destruct (Obj.get m entry) as [v|]; [discriminate|].
  destruct (Obj.proto_member m) eqn:Hm.
  - intros [= <-]. repeat split.
  - destruct (Obj.keys entry) as [|k [|k' l]]; try discriminate.
    destruct (Obj.get k entry); discriminate.
Qed.

(** A stored value returned by the lookup is a cell of the entry. *)
Lemma getValueForMode_stored entry m tv :
  getValueForMode entry m = Some (Stored tv) ->
  exists k, Obj.get k entry = Some tv.
Proof.
  unfold getValueForMode. destruct (Obj.get m entry) as [v|] eqn:E.
  - intros [= <-]. eauto.
  - destruct (Obj.proto_member m); [discriminate|].
    destruct (Obj.keys entry) as [|k [|k' l]]; try discriminate.
    destruct (Obj.get k entry) as [v|] eqn:Ek; [|discriminate].
    intros [= <-]. eauto.
Qed.

Lemma resolveRef_reports raw bucket m p st :
  reports m p st (fst (resolveRef p m raw bucket st))
    (snd (resolveRef p m raw bucket st)).
Proof.
  apply (resolveRef_outcome_ind raw bucket m (reports m)); clear p st.
  - intros p st _. apply (reports_error m p st "cycle" []).
    unfold graph_reasons. set_solver.
  - intros p st _ _. apply (reports_error m p st "missing token" []).
    unfold graph_reasons. set_solver.
  - intros p st entry _ _ _. apply (reports_error m p st "mode mismatch" []).
    unfold graph_reasons. set_solver.
  - intros p st entry q _ _ _ _. rewrite <- app_assoc.
    apply (reports_error m p st "missing token" [q]).
    unfold graph_reasons. set_solver.
  - intros p st entry member _ _ Hv. apply reports_nothing.
    apply getValueForMode_inherited in Hv. tauto.
  - intros. apply reports_nothing. exact I.
  - intros. apply reports_nothing. exact I.
  - intros p st entry q target r new _ _ _ _ st1 st2 _ [new' [Hst Hr]].
    exists new. split; [reflexivity|].
    unfold st1, st2 in Hst. cbn [visited chain errors] in Hst.
    injection Hst as Hnew. apply app_inv_head in Hnew. subst new'.
    destruct r as [v|]; [exact Hr|].
    destruct Hr as [Hr|(e & -> & suffix & Hm & Hreason & Hch & Hin)];
      [left; exact Hr|right].
    exists e. split; [reflexivity|]. exists (q :: suffix).
    repeat split; try assumption.
    + rewrite Hch. unfold st1. cbn [chain]. rewrite <- app_assoc. reflexivity.
    + apply elem_of_cons. right. exact Hin.
Qed.

(** The value does not depend on the chain or on the errors passed in. *)
Lemma resolveRef_value_visited raw bucket m p st :
  forall ch errs,
    fst (resolveRef p m raw bucket (mkRState (visited st) ch errs))
    = fst (resolveRef p m raw bucket st).
Proof.
  apply (resolveRef_outcome_ind raw bucket m
           (fun p st r _ => forall ch errs,
              fst (resolveRef p m raw bucket (mkRState (visited st) ch errs)) = r));
    clear p st.
  - intros p st Hin ch errs. rewrite resolveRef_unfold. cbn zeta.
    cbn [visited]. rewrite decide_True by exact Hin. reflexivity.
  - intros p st Hnin Hp ch errs. rewrite resolveRef_unfold. cbn zeta.
    cbn [visited]. rewrite decide_False by exact Hnin. rewrite Hp. reflexivity.
  - intros p st entry Hnin Hp Hv ch errs. rewrite resolveRef_unfold. cbn zeta.
    cbn [visited]. rewrite decide_False by exact Hnin. rewrite Hp, Hv. reflexivity.
  - intros p st entry q Hnin Hp Hv Hq ch errs. rewrite resolveRef_unfold. cbn zeta.
    cbn [visited]. rewrite decide_False by exact Hnin. rewrite Hp, Hv, Hq.
    reflexivity.
  - intros p st entry member Hnin Hp Hv ch errs. rewrite resolveRef_unfold.
    cbn zeta. cbn [visited]. rewrite decide_False by exact Hnin.
    rewrite Hp, Hv. reflexivity.
  - intros p st entry rgba hex Hnin Hp Hv ch errs. rewrite resolveRef_unfold.
    cbn zeta. cbn [visited]. rewrite decide_False by exact Hnin.
    rewrite Hp, Hv. reflexivity.
  - intros p st entry n Hnin Hp Hv ch errs. rewrite resolveRef_unfold.
    cbn zeta. cbn [visited]. rewrite decide_False by exact Hnin.
    rewrite Hp, Hv. reflexivity.
  - intros p st entry q target r new Hnin Hp Hv Hq st1 st2 Hr IH ch errs.
    rewrite resolveRef_unfold. cbn zeta.
    cbn [visited chain errors]. rewrite decide_False by exact Hnin.
    rewrite Hp, Hv, Hq. cbn [fst]. apply (IH (ch ++ [p]) errs).
Qed.

(** ** An alias has the value of its target *)

(** Marking the triple of an alias [p] of [q] does not change the value of
    a token [t] when the walk from [t] has passed [q] (or starts at it):
    if it reaches [p] it fails either way, at [p] or one step later at
    [q]. *)
Lemma resolveRef_mark_alias raw bucket m p q entry :
  Obj.get p (bucket_get raw bucket) = Some entry ->
  getValueForMode entry m = Some (TVRef q) ->
  forall n t vis ch1 errs1 ch2 errs2,
    size (unvisited raw bucket m vis) < n ->
    pathKey bucket p m ∉ vis ->
    pathKey bucket q m ∈ vis \/ t = q ->
    fst (resolveRef t m raw bucket
           (mkRState ({[pathKey bucket p m]} ∪ vis) ch1 errs1))
    = fst (resolveRef t m raw bucket (mkRState vis ch2 errs2)).
Proof.
  intros Hp Hv. induction n as [|n IH]; intros t vis ch1 errs1 ch2 errs2 Hn Hpv Hq;
    [lia|].
  rewrite (resolveRef_unfold raw bucket m t (mkRState vis ch2 errs2)).
  rewrite (resolveRef_unfold raw bucket m t
             (mkRState ({[pathKey bucket p m]} ∪ vis) ch1 errs1)).
  cbn zeta. cbn [visited chain errors].
  destruct (decide (pathKey bucket t m ∈ vis)) as [Hin|Hnin].
  { rewrite decide_True by set_solver. reflexivity. }
  destruct (decide (t = p)) as [->|Htp].
  - rewrite decide_True by set_solver.
    rewrite Hp, Hv.
    destruct (Obj.get q (bucket_get raw bucket)) as [target|] eqn:Hqt;
      [|reflexivity].
    cbn [fst]. rewrite resolveRef_unfold. cbn zeta. cbn [visited].
    rewrite decide_True; [reflexivity|].
    destruct Hq as [Hq| ->]; set_solver.
  - assert (Hk : pathKey bucket t m <> pathKey bucket p m).
    { intros Hk. apply Htp. eapply ResolveFacts.pathKey_inj, Hk. }
    rewrite decide_False by set_solver.
    destruct (Obj.get t (bucket_get raw bucket)) as [et|] eqn:Ht; [|reflexivity].
    destruct (getValueForMode et m) as [[[rgba hex|x|r]|member]|] eqn:Hvt; try reflexivity.
    destruct (Obj.get r (bucket_get raw bucket)) as [target|] eqn:Hr;
      [|reflexivity].
    cbn [fst].
    replace ({[pathKey bucket t m]} ∪ ({[pathKey bucket p m]} ∪ vis))
      with ({[pathKey bucket p m]} ∪ ({[pathKey bucket t m]} ∪ vis))
      by set_solver.
    apply IH.
    + pose proof (ResolveFacts.unvisited_mark raw bucket m vis t
                    (ex_intro _ et Ht) Hnin). lia.
    + set_solver.
    + destruct Hq as [Hq| ->]; left; set_solver.
Qed.

Lemma resolveRef_alias raw bucket m p q entry st :
  Obj.get p (bucket_get raw bucket) = Some entry ->
  getValueForMode entry m = Some (TVRef q) ->
  pathKey bucket p m ∉ visited st ->
  fst (resolveRef p m raw bucket st) = fst (resolveRef q m raw bucket st).
Proof.
  intros Hp Hv Hnin.
  rewrite (resolveRef_unfold raw bucket m p st). cbn zeta.
  rewrite decide_False by exact Hnin. rewrite Hp, Hv.
  destruct (Obj.get q (bucket_get raw bucket)) as [target|] eqn:Hq.
  - cbn [fst]. destruct st as [vis ch errs]. cbn [visited chain errors] in *.
    apply (resolveRef_mark_alias raw bucket m p q entry Hp Hv
             (S (size (unvisited raw bucket m vis)))); [lia|exact Hnin|].
    right. reflexivity.
  - cbn [fst]. rewrite (resolveRef_unfold raw bucket m q st). cbn zeta.
    case_decide; [reflexivity|]. rewrite Hq. reflexivity.
Qed.

Lemma resolveRef_cycle_shown raw bucket m p st :
  chain_covers bucket m st ->
  forall e,
    e ∈ errors (snd (resolveRef p m raw bucket st)) ->
    e ∈ errors st \/ cycle_shown e.
Proof.
  apply (resolveRef_outcome_ind raw bucket m
           (fun p st _ st' =>
              chain_covers bucket m st ->
              forall e, e ∈ errors st' -> e ∈ errors st \/ cycle_shown e));
    clear p st.
  - intros p st Hin Hcov e He. cbn [push_error errors] in He.
    apply elem_of_app in He as [He|He]; [left; exact He|right].
    apply list_elem_of_singleton in He as ->. intros _.
    exists (chain st). split; [reflexivity|]. apply Hcov, Hin.
  - intros p st _ _ _ e He. cbn [push_error errors] in He.
    apply elem_of_app in He as [He|He]; [left; exact He|right].
    apply list_elem_of_singleton in He as ->. intros H. discriminate H.
  - intros p st entry _ _ _ _ e He. cbn [push_error errors] in He.
    apply elem_of_app in He as [He|He]; [left; exact He|right].
    apply list_elem_of_singleton in He as ->. intros H. discriminate H.
  - intros p st entry q _ _ _ _ _ e He. cbn [push_error errors] in He.
    apply elem_of_app in He as [He|He]; [left; exact He|right].
    apply list_elem_of_singleton in He as ->. intros H. discriminate H.
  - intros. left. assumption.
  - intros. left. assumption.
  - intros. left. assumption.
  - intros p st entry q target r new Hnin _ _ _ st1 st2 _ IH Hcov e He.
    cbn [errors] in He. apply (IH); [|exact He].
    intros t Ht. unfold st1 in *. cbn [visited chain] in *.
    apply elem_of_app.
    apply elem_of_union in Ht as [Ht|Ht].
    + right. apply elem_of_singleton in Ht.
      apply ResolveFacts.pathKey_inj in Ht as ->. apply list_elem_of_singleton.
      reflexivity.
    + left. apply Hcov, Ht.
Qed.

End ResolverMore.

(** X1 (resolveRef, code.ts 193-282; getValueForMode, code.ts 182-190).
    In a bucket where the walk reads no inherited member of the table,
    every call of the resolver, from any state, hands [visited] and
    [chain] back as it received them and adds at most one error: none with
    a value; with null either exactly one, which carries the requested
    mode, one of the three reasons, a chain that continues the caller's
    chain with the token path of the call, and a token path that is on
    that continuation; or none at all, which happens only when the
    requested mode names a member of [Object.prototype] (the walk then
    ended at the last exit of the function). *)
Theorem resolveRef_adds_at_most_one_error
    (raw : TokensRaw) (bucket : Bucket) (m p : string) (st : RState) :
  plain_paths raw bucket p = true ->
  exists new,
    snd (resolveRef p m raw bucket st)
    = mkRState (visited st) (chain st) (errors st ++ new)
    /\ match fst (resolveRef p m raw bucket st) with
       | Some _ => new = []
       | None =>
           (new = [] /\ Obj.proto_member m = true)
           \/ exists e suffix,
                new = [e]
                /\ re_requestedModeName e = m
                /\ re_reason e ∈ graph_reasons
                /\ re_chain e = chain st ++ p :: suffix
                /\ re_tokenPath e ∈ p :: suffix
       end.
Proof.
  intros _.
  destruct (ResolverMore.resolveRef_reports raw bucket m p st) as [new [Hst Hr]].
  exists new. split; [exact Hst|].
  destruct (fst (resolveRef p m raw bucket st)); [exact Hr|].
  destruct Hr as [Hr|(e & He & suffix & Hrest)]; [left; exact Hr|right].
  exists e, suffix. split; assumption.
Qed.

Lemma resolveRef_adds_at_most_one_error_witness :
  (exists new,
     snd (resolveRef "themed" "constructor" constructor_mode_table spacing
            (mkRState ∅ [] []))
     = mkRState ∅ [] ([] ++ new)
     /\ match fst (resolveRef "themed" "constructor" constructor_mode_table
                     spacing (mkRState ∅ [] [])) with
        | Some _ => new = []
        | None =>
            (new = [] /\ Obj.proto_member "constructor" = true)
            \/ exists e suffix,
                 new = [e]
                 /\ re_requestedModeName e = "constructor"
                 /\ re_reason e ∈ graph_reasons
                 /\ re_chain e = [] ++ "themed" :: suffix
                 /\ re_tokenPath e ∈ "themed" :: suffix
        end)
  /\ resolveRef "themed" "constructor" constructor_mode_table spacing
       (mkRState ∅ [] [])
     = (None, mkRState ∅ [] []).
Proof.
  split.
  - apply (resolveRef_adds_at_most_one_error constructor_mode_table spacing
             "constructor" "themed" (mkRState ∅ [] [])).
    reflexivity.
  - vm_compute. reflexivity.
Defined.

(** X2 (resolveRef, code.ts 193-282).  The value the resolver returns
    depends on the marked triples only: the chain and the errors passed in
    are written, never read. *)
Theorem resolveRef_value_ignores_chain_and_errors
    (raw : TokensRaw) (bucket : Bucket) (m p : string) (vis : gset string)
    (ch1 ch2 : list string) (errs1 errs2 : list ResolutionError) :
  fst (resolveRef p m raw bucket (mkRState vis ch1 errs1))
  = fst (resolveRef p m raw bucket (mkRState vis ch2 errs2)).
Proof.
  apply (ResolverMore.resolveRef_value_visited raw bucket m p
           (mkRState vis ch2 errs2) ch1 errs1).
Qed.

(** X3 (resolveRef, code.ts 193-282; getValueForMode, code.ts 182-190).
    An alias is transparent: when the value of token [p] for the requested
    mode (after the single-mode fallback) is a reference to [q], and the
    triple of [p] is not marked, resolving [p] gives what resolving [q]
    gives, a value or null.  This covers a missing [q] and a cycle through
    [p]. *)
Theorem resolveRef_alias_transparent
    (raw : TokensRaw) (bucket : Bucket) (m p q : string)
    (entry : RawEntry) (st : RState) :
  Obj.get p (bucket_get raw bucket) = Some entry ->
  getValueForMode entry m = Some (TVRef q) ->
  pathKey bucket p m ∉ visited st ->
  fst (resolveRef p m raw bucket st) = fst (resolveRef q m raw bucket st).
Proof. apply ResolverMore.resolveRef_alias. Qed.

Lemma resolveRef_alias_transparent_witness :
  fst (resolveRef "themed" "Dark" fallback_table spacing (mkRState ∅ [] []))
  = fst (resolveRef "base" "Dark" fallback_table spacing (mkRState ∅ [] []))
  /\ fst (resolveRef "base" "Dark" fallback_table spacing (mkRState ∅ [] []))
     = Some (RValue 8).
Proof.
  split.
  - apply (resolveRef_alias_transparent fallback_table spacing "Dark"
             "themed" "base" [("Light", TVRef "base"); ("Dark", TVRef "base")]).
    + reflexivity.
    + reflexivity.
    + cbn. set_solver.
  - vm_compute. reflexivity.
Defined.

(** X4 (resolveRef, code.ts 193-282).  A resolution started with nothing
    marked and an empty chain reports a cycle only with a chain that shows
    it: the chain ends with the token path the error names, and that token
    path occurs earlier on the chain. *)
Theorem resolveRef_cycle_chain_closes
    (raw : TokensRaw) (bucket : Bucket) (m p : string) (e : ResolutionError) :
  e ∈ errors (snd (resolveRef p m raw bucket (mkRState ∅ [] []))) ->
  re_reason e = "cycle" ->
  exists pre, re_chain e = pre ++ [re_tokenPath e] /\ re_tokenPath e ∈ pre.
Proof.
  intros He Hr.
  destruct (ResolverMore.resolveRef_cycle_shown raw bucket m p (mkRState ∅ [] []))
    with (e := e) as [Hin|Hc].
  - intros t Ht. cbn in Ht. set_solver.
  - exact He.
  - cbn in Hin. set_solver.
  - apply Hc, Hr.
Qed.

Lemma resolveRef_cycle_chain_closes_witness :
  exists pre,
    ["a"; "b"; "a"] = pre ++ ["a"] /\ "a" ∈ pre.
Proof.
  apply (resolveRef_cycle_chain_closes cycle_table color "Light" "a"
           (mkResolutionError "a" "Light" "cycle" ["a"; "b"; "a"])).
  - vm_compute. apply list_elem_of_singleton. reflexivity.
  - reflexivity.
Defined.

(** * Further properties of the key normalization *)

Module SortMore.

Lemma array_index_spelling k n :
  Obj.array_index k = Some n ->
  DecimalString.NilZero.string_of_uint (N.to_uint n) = k.
Proof.
  unfold Obj.array_index.
  destruct (DecimalString.NilZero.uint_of_string k) as [u|]; [|discriminate].
  destruct (String.eqb _ k) eqn:E; [|discriminate].
  destruct (N.ltb _ _); [|discriminate].
  intros H. injection H as <-. apply String.eqb_eq, E.
Qed.

Lemma js_key_le_antisym a b : js_key_le a b -> js_key_le b a -> a = b.
Proof.
  unfold js_key_le.
  destruct (Obj.array_index a) as [m|] eqn:Ha,
           (Obj.array_index b) as [n|] eqn:Hb; try contradiction.
  - intros H1 H2. assert (m = n) by lia. subst n.
    rewrite <- (array_index_spelling a m Ha). apply array_index_spelling, Hb.
  - intros H1 H2. apply (anti_symm String.le); assumption.
Qed.

Lemma NoDup_keys_rebuild_fold {V} (o : jsobj V) L :
  forall out, NoDup (Obj.keys out) ->
    NoDup (Obj.keys (fold_left (rebuild_step o) L out)).
Proof.
  induction L as [|k L IH]; intros out Hout; [exact Hout|].
  cbn [fold_left]. apply IH. unfold rebuild_step.
  destruct (Obj.get k o); [|exact Hout]. apply ObjFacts.NoDup_keys_set, Hout.
Qed.

Lemma NoDup_keys_rebuild_sorted {V} (o : jsobj V) :
  NoDup (Obj.keys (rebuild_sorted o)).
Proof. apply NoDup_keys_rebuild_fold. constructor. Qed.

(** Two objects with the same keys in the same order and the same
    lookups are equal. *)
Lemma obj_ext {V} (o1 o2 : jsobj V) :
  Obj.keys o1 = Obj.keys o2 ->
  NoDup (Obj.keys o1) ->
  (forall k, Obj.get k o1 = Obj.get k o2) ->
  o1 = o2.
Proof.
  revert o2. induction o1 as [|[k v] o1 IH]; intros [|[k' v'] o2] Hk Hnd Hget;
    try discriminate; [reflexivity|].
  cbn in Hk. injection Hk as <- Hk.
  cbn in Hnd. apply NoDup_cons in Hnd as [Hnin Hnd].
  assert (Hv := Hget k). cbn in Hv. rewrite !decide_True in Hv by reflexivity.
  injection Hv as <-. f_equal. apply IH; [exact Hk|exact Hnd|].
  intros k0. specialize (Hget k0). cbn in Hget.
  destruct (decide (k = k0)) as [<-|Hne]; [|exact Hget].
  assert (H1 : Obj.get k o1 = None) by (apply ObjFacts.get_None_keys, Hnin).
  assert (H2 : Obj.get k o2 = None).
  { apply ObjFacts.get_None_keys. unfold Obj.keys in *. rewrite <- Hk.
    exact Hnin. }
  congruence.
Qed.

(** An object whose keys are distinct and already in enumeration order
    is rebuilt as it is. *)
Lemma rebuild_sorted_fixed {V} (o : jsobj V) :
  NoDup (Obj.keys o) ->
  StronglySorted js_key_le (Obj.keys o) ->
  rebuild_sorted o = o.
Proof.
  intros Hnd Hs. apply obj_ext.
  - apply (StronglySorted_unique_strong js_key_le).
    + intros x1 x2 _ _. apply js_key_le_antisym.
    + apply OrderFacts.rebuild_sorted_order.
    + exact Hs.
    + apply NoDup_Permutation; [apply NoDup_keys_rebuild_sorted|exact Hnd|].
      apply SortFacts.elem_of_keys_rebuild_sorted.
  - apply NoDup_keys_rebuild_sorted.
  - apply SortFacts.get_rebuild_sorted.
Qed.

Lemma map_values_fixed {V} (g : V -> V) (o : jsobj V) :
  Forall (fun kv => g (snd kv) = snd kv) o -> map_values g o = o.
Proof.
  induction 1 as [|[k v] o Hv _ IH]; [reflexivity|].
  cbn in *. rewrite Hv. unfold map_values in IH. rewrite IH. reflexivity.
Qed.

Lemma Forall_values_map {V W} (g : V -> W) (P : W -> Prop) (o : jsobj V) :
  Forall (fun kv => P (g (snd kv))) o ->
  Forall (fun kv => P (snd kv)) (map_values g o).
Proof.
  induction 1 as [|[k v] o Hv _ IH]; [constructor|].
  cbn. constructor; [exact Hv|exact IH].
Qed.

Lemma sortObjectKeys_twice v : sortObjectKeys (sortObjectKeys v) = sortObjectKeys v.
Proof.
  induction v as [| | | | |o IH|] using OrderFacts.json_obj_ind; try reflexivity.
  rewrite SortFacts.sortObjectKeys_obj.
  set (R := rebuild_sorted (map_values sortObjectKeys o)).
  rewrite SortFacts.sortObjectKeys_obj.
  assert (HR : map_values sortObjectKeys R = R).
  { apply map_values_fixed. unfold R.
    apply (OrderFacts.Forall_values_rebuild
             (fun x => sortObjectKeys x = x)).
    apply (Forall_values_map sortObjectKeys (fun x => sortObjectKeys x = x)).
    exact IH. }
  rewrite HR. f_equal. apply rebuild_sorted_fixed.
  - apply NoDup_keys_rebuild_sorted.
  - apply OrderFacts.rebuild_sorted_order.
Qed.

Lemma json_get_sortObjectKeys k v :
  json_get k (sortObjectKeys v) = sortObjectKeys <$> json_get k v.
Proof.
  destruct v as [| | | | |o|]; try reflexivity.
  rewrite SortFacts.sortObjectKeys_obj. cbn [json_get].
  rewrite SortFacts.get_rebuild_sorted. apply SortFacts.get_map_values.
Qed.

Lemma json_path_sortObjectKeys ks :
  forall v, json_path ks (sortObjectKeys v) = sortObjectKeys <$> json_path ks v.
Proof.
  induction ks as [|k ks IH]; intros v; [reflexivity|].
  cbn [json_path]. rewrite json_get_sortObjectKeys.
  destruct (json_get k v) as [x|]; cbn; [apply IH|reflexivity].
Qed.



End SortMore.

(** X5 (sortObjectKeys, code.ts 716-727).  The key normalization is
    idempotent: normalizing a normalized value gives it back, key order
    included. *)
Theorem sortObjectKeys_idempotent (v : json) :
  sortObjectKeys (sortObjectKeys v) = sortObjectKeys v.
Proof. apply SortMore.sortObjectKeys_twice. Qed.


(** * Further properties of the path normalizer *)

Module NormalizeMore.

Import NormalizeFacts.

Lemma lower_char_slash c : Ascii.eqb (Str.lower_char c) "/" = Ascii.eqb c "/".
Proof. all_chars c. Qed.

Lemma lower_char_ws c : Str.is_ws (Str.lower_char c) = Str.is_ws c.
Proof. all_chars c. Qed.

Lemma lower_char_twice c : Str.lower_char (Str.lower_char c) = Str.lower_char c.
Proof. all_chars c. Qed.

Lemma toLowerCase_twice s : Str.toLowerCase (Str.toLowerCase s) = Str.toLowerCase s.
Proof.
  induction s as [|c s IH]; cbn; [reflexivity|].
  rewrite lower_char_twice, IH. reflexivity.
Qed.

Lemma split_toLowerCase s :
  Str.split "/" (Str.toLowerCase s) = List.map Str.toLowerCase (Str.split "/" s).
Proof.
  induction s as [|c s IH]; cbn; [reflexivity|].
  rewrite lower_char_slash. destruct (Ascii.eqb c "/").
  - cbn. rewrite IH. reflexivity.
  - rewrite IH. destruct (Str.split "/" s) as [|h r]; reflexivity.
Qed.

Lemma trimStart_toLowerCase s :
  Str.trimStart (Str.toLowerCase s) = Str.toLowerCase (Str.trimStart s).
Proof.
  induction s as [|c s IH]; cbn; [reflexivity|].
  rewrite lower_char_ws. destruct (Str.is_ws c); [exact IH|reflexivity].
Qed.

Lemma trimEnd_toLowerCase s :
  Str.trimEnd (Str.toLowerCase s) = Str.toLowerCase (Str.trimEnd s).
Proof.
  induction s as [|c s IH]; cbn; [reflexivity|].
  rewrite IH, lower_char_ws.
  destruct (Str.trimEnd s) as [|c' s']; cbn; [|reflexivity].
  destruct (Str.is_ws c); reflexivity.
Qed.

Lemma normalize_segment_toLowerCase s :
  normalize_segment (Str.toLowerCase s) = normalize_segment s.
Proof.
  unfold normalize_segment, Str.trim.
  rewrite trimStart_toLowerCase, trimEnd_toLowerCase, toLowerCase_twice.
  reflexivity.
Qed.

Lemma nameToTokenPath_toLowerCase name :
  nameToTokenPath (Str.toLowerCase name) = nameToTokenPath name.
Proof.
  unfold nameToTokenPath. rewrite split_toLowerCase, List.map_map.
  do 2 f_equal. apply List.map_ext. intros s. apply normalize_segment_toLowerCase.
Qed.

(** ** The empty path *)

Lemma trimStart_empty s : Str.trimStart s = "" <-> Str.all Str.is_ws s = true.
Proof.
  induction s as [|c s IH]; cbn; [tauto|].
  destruct (Str.is_ws c); cbn; [exact IH|].
  split; discriminate.
Qed.

Lemma trimEnd_empty s : Str.trimEnd s = "" <-> Str.all Str.is_ws s = true.
Proof.
  induction s as [|c s IH]; cbn; [tauto|].
  destruct (Str.trimEnd s) as [|c' s'].
  - destruct (Str.is_ws c); cbn.
    + split; [intros _; apply IH; reflexivity|reflexivity].
    + split; discriminate.
  - split; [discriminate|].
    intros H. apply andb_prop in H as [_ H]. apply IH in H. discriminate H.
Qed.

Lemma all_ws_trimStart s :
  Str.all Str.is_ws (Str.trimStart s) = true -> Str.all Str.is_ws s = true.
Proof.
  induction s as [|c s IH]; cbn; [tauto|].
  destruct (Str.is_ws c) eqn:Hc; cbn; [exact IH|].
  rewrite Hc. discriminate.
Qed.

Lemma trim_empty s : Str.trim s = "" <-> Str.all Str.is_ws s = true.
Proof.
  unfold Str.trim. rewrite trimEnd_empty. split.
  - apply all_ws_trimStart.
  - intros H. apply trimStart_empty in H. rewrite H. reflexivity.
Qed.

Lemma collapse_ws_empty s : Str.collapse_ws false s = "" <-> s = "".
Proof.
  destruct s as [|c s]; cbn; [tauto|].
  destruct (Str.is_ws c); split; discriminate.
Qed.

Lemma toLowerCase_empty s : Str.toLowerCase s = "" <-> s = "".
Proof. destruct s; cbn; [tauto|]. split; discriminate. Qed.

Lemma normalize_segment_empty s :
  normalize_segment s = "" <-> Str.all Str.is_ws s = true.
Proof.
  unfold normalize_segment, Str.replace_ws_runs.
  rewrite collapse_ws_empty, toLowerCase_empty. apply trim_empty.
Qed.

Lemma filter_truthy_nil l :
  List.filter Str.truthy (List.map normalize_segment l) = []
  <-> Forall (fun s => Str.all Str.is_ws s = true) l.
Proof.
  induction l as [|s l IH]; cbn.
  - split; [constructor|reflexivity].
  - destruct (normalize_segment s) as [|c t] eqn:E; cbn.
    + rewrite IH. split.
      * intros H. constructor; [apply normalize_segment_empty, E|exact H].
      * intros H. inversion H; assumption.
    + split; [discriminate|].
      intros H. inversion H as [|? ? Hs _]; subst.
      apply normalize_segment_empty in Hs. congruence.
Qed.

Lemma join_empty l :
  Forall (fun s => Str.truthy s = true) l -> Str.join "." l = "" <-> l = [].
Proof.
  intros H. destruct H as [|x l Hx Hl]; cbn; [tauto|].
  split; [|discriminate].
  destruct x as [|c x]; [discriminate Hx|].
  destruct l; cbn; discriminate.
Qed.

Lemma Forall_filter_truthy l :
  Forall (fun s => Str.truthy s = true) (List.filter Str.truthy l).
Proof.
  apply List.Forall_forall. intros s Hs. apply List.filter_In in Hs. tauto.
Qed.

Lemma split_all_blank s :
  Forall (fun seg => Str.all Str.is_ws seg = true) (Str.split "/" s)
  <-> Str.all blank_char s = true.
Proof.
  induction s as [|c s IH]; cbn [Str.split Str.all].
  - split; [reflexivity|]. intros _. constructor; [reflexivity|constructor].
  - unfold blank_char at 1. rewrite andb_true_iff, <- IH. clear IH.
    destruct (Ascii.eqb c "/") eqn:Hc.
    + rewrite orb_true_r. split.
      * intros H. inversion H; auto.
      * intros [_ H]. constructor; [reflexivity|exact H].
    + rewrite orb_false_r.
      destruct (Str.split "/" s) as [|h r].
      * split.
        -- intros H. inversion H as [|? ? Hh _]; subst. cbn in Hh.
           rewrite andb_true_r in Hh. split; [exact Hh|constructor].
        -- intros [H _].
           constructor; [cbn; rewrite H; reflexivity|constructor].
      * split.
        -- intros H. inversion H as [|? ? Hh Hr]; subst. cbn in Hh.
           apply andb_prop in Hh as [Hc' Hh]. split; [exact Hc'|].
           constructor; assumption.
        -- intros [Hc' H].
           inversion H as [|? ? Hh Hr]; subst.
           constructor; [cbn; rewrite Hc', Hh; reflexivity|exact Hr].
Qed.

Lemma nameToTokenPath_empty name :
  nameToTokenPath name = "" <-> Str.all blank_char name = true.
Proof.
  unfold nameToTokenPath.
  rewrite (join_empty _ (Forall_filter_truthy _)).
  rewrite filter_truthy_nil. apply split_all_blank.
Qed.

(** ** Names joined by the separator *)

Lemma split_nonempty sep s : Str.split sep s <> [].
Proof.
  destruct s as [|c s]; cbn; [discriminate|].
  destruct (Ascii.eqb c sep); [discriminate|].
  destruct (Str.split sep s); discriminate.
Qed.

Lemma app_empty (s : string) : ("" ++ s)%string = s.
Proof. reflexivity. Qed.

Lemma app_String c (a s : string) :
  (String c a ++ s)%string = String c (a ++ s)%string.
Proof. reflexivity. Qed.

Lemma split_sep sep (a b : string) :
  Str.split sep (a ++ String sep b)%string = Str.split sep a ++ Str.split sep b.
Proof.
  induction a as [|c a IH].
  - rewrite app_empty. cbn. rewrite Ascii.eqb_refl. reflexivity.
  - rewrite app_String. cbn [Str.split].
    destruct (Ascii.eqb c sep); [rewrite IH; reflexivity|].
    rewrite IH.
    pose proof (split_nonempty sep a) as Hne.
    destruct (Str.split sep a) as [|h r]; [contradiction|]. reflexivity.
Qed.

Lemma string_app_assoc (a b c : string) :
  ((a ++ b) ++ c)%string = (a ++ (b ++ c))%string.
Proof.
  induction a as [|x a IH]; [reflexivity|].
  rewrite !app_String, IH. reflexivity.
Qed.

Lemma join_app l1 l2 :
  l1 <> [] -> l2 <> [] ->
  Str.join "." (l1 ++ l2)
  = (Str.join "." l1 ++ "." ++ Str.join "." l2)%string.
Proof.
  intros H1 H2. induction l1 as [|x l1 IH]; [contradiction|].
  destruct l1 as [|y l1].
  - destruct l2 as [|z l2]; [contradiction|]. reflexivity.
  - change (Str.join "." ((x :: y :: l1) ++ l2))
      with (x ++ "." ++ Str.join "." ((y :: l1) ++ l2))%string.
    rewrite IH by discriminate.
    change (Str.join "." (x :: y :: l1))
      with (x ++ "." ++ Str.join "." (y :: l1))%string.
    rewrite !string_app_assoc. reflexivity.
Qed.

Lemma join_two l1 l2 :
  Forall (fun s => Str.truthy s = true) l1 ->
  Forall (fun s => Str.truthy s = true) l2 ->
  Str.join "." (l1 ++ l2)
  = Str.join "." (List.filter Str.truthy [Str.join "." l1; Str.join "." l2]).
Proof.
  intros H1 H2.
  assert (Ht : forall l, Forall (fun s => Str.truthy s = true) l ->
             Str.truthy (Str.join "." l) = match l with [] => false | _ => true end).
  { intros l Hl. destruct l as [|x l]; [reflexivity|].
    destruct (Str.join "." (x :: l)) eqn:E; [|reflexivity].
    apply (join_empty _ Hl) in E. discriminate E. }
  cbn [List.filter]. rewrite (Ht l1 H1), (Ht l2 H2).
  destruct l1 as [|x l1], l2 as [|y l2]; cbn [app].
  - reflexivity.
  - reflexivity.
  - rewrite app_nil_r. reflexivity.
  - change (x :: l1 ++ y :: l2) with ((x :: l1) ++ (y :: l2)).
    rewrite join_app by discriminate. reflexivity.
Qed.

Lemma nameToTokenPath_sep (a b : string) :
  nameToTokenPath (a ++ "/" ++ b)%string
  = Str.join "."
      (List.filter Str.truthy [nameToTokenPath a; nameToTokenPath b]).
Proof.
  unfold nameToTokenPath at 1.
  change ("/" ++ b)%string with (String "/" b).
  rewrite split_sep, List.map_app, List.filter_app.
  apply join_two; apply Forall_filter_truthy.
Qed.

End NormalizeMore.

(** X7 (nameToTokenPath, code.ts 54-59).  The path normalizer does not see
    letter case: two variable names that are equal once lower-cased have
    the same token path. *)
Theorem nameToTokenPath_case_insensitive (n1 n2 : string) :
  Str.toLowerCase n1 = Str.toLowerCase n2 ->
  nameToTokenPath n1 = nameToTokenPath n2.
Proof.
  intros H.
  rewrite <- (NormalizeMore.nameToTokenPath_toLowerCase n1), H.
  apply NormalizeMore.nameToTokenPath_toLowerCase.
Qed.

Lemma nameToTokenPath_case_insensitive_witness :
  nameToTokenPath "Surface/Raised" = nameToTokenPath "SURFACE/raised".
Proof.
  apply (nameToTokenPath_case_insensitive "Surface/Raised" "SURFACE/raised").
  reflexivity.
Defined.

(** X8 (nameToTokenPath, code.ts 54-59).  The token path is empty exactly
    for the names that consist of separators and whitespace only. *)
Theorem nameToTokenPath_empty_iff_blank (name : string) :
  nameToTokenPath name = "" <-> Str.all blank_char name = true.
Proof. apply NormalizeMore.nameToTokenPath_empty. Qed.

(** X9 (nameToTokenPath, code.ts 54-59).  The normalizer works group by
    group: the token path of [a/b] is the token path of [a], a dot, and the
    token path of [b], where an empty part (and its dot) is left out. *)
Theorem nameToTokenPath_of_group (a b : string) :
  nameToTokenPath (a ++ "/" ++ b)%string
  = Str.join "."
      (List.filter Str.truthy [nameToTokenPath a; nameToTokenPath b]).
Proof. apply NormalizeMore.nameToTokenPath_sep. Qed.

(** * Further properties of the hexadecimal conversion *)

Module HexMore.

Lemma rgbaToHex_length r g b a :
  String.length (rgbaToHex r g b a) = if Qle_bool 1 a then 7%nat else 9%nat.
Proof.
  unfold rgbaToHex. destruct (Qle_bool 1 a).
  - rewrite !HexFacts.length_app, !HexFacts.pad_length. reflexivity.
  - rewrite !HexFacts.length_app, !HexFacts.pad_length. reflexivity.
Qed.

Lemma rgbaToHex_hash r g b a : exists t, rgbaToHex r g b a = String "#" t.
Proof.
  unfold rgbaToHex. destruct (Qle_bool 1 a); eexists; reflexivity.
Qed.

Lemma hex2_inj_table :
  forallb (fun m =>
    forallb (fun n =>
      implb (String.eqb (hex2 (Z.of_nat m)) (hex2 (Z.of_nat n))) (Nat.eqb m n))
      (List.seq 0 256))
    (List.seq 0 256) = true.
Proof. vm_compute. reflexivity. Qed.

(** Distinct bytes have distinct spellings. *)
Lemma hex2_inj m n :
  (0 <= m <= 255)%Z -> (0 <= n <= 255)%Z -> hex2 m = hex2 n -> m = n.
Proof.
  intros Hm Hn H. pose proof hex2_inj_table as T.
  rewrite List.forallb_forall in T.
  specialize (T (Z.to_nat m)). rewrite List.forallb_forall in T.
  specialize (T ltac:(apply List.in_seq; lia) (Z.to_nat n)
                ltac:(apply List.in_seq; lia)).
  rewrite !Z2Nat.id in T by lia. rewrite H, String.eqb_refl in T.
  cbn in T. apply Nat.eqb_eq in T. lia.
Qed.

Lemma app_inv_length (s1 s2 t1 t2 : string) :
  String.length s1 = String.length s2 ->
  (s1 ++ t1)%string = (s2 ++ t2)%string -> s1 = s2 /\ t1 = t2.
Proof.
  revert s2. induction s1 as [|c s1 IH]; intros [|d s2] Hl H;
    try discriminate Hl.
  - split; [reflexivity|exact H].
  - change (String c (s1 ++ t1)%string = String d (s2 ++ t2)%string) in H.
    injection H as -> H. cbn in Hl. injection Hl as Hl.
    destruct (IH s2 Hl H) as [-> ->]. split; reflexivity.
Qed.

Lemma pad_app_inv m n (t1 t2 : string) :
  (pad m ++ t1)%string = (pad n ++ t2)%string -> pad m = pad n /\ t1 = t2.
Proof. apply app_inv_length. rewrite !HexFacts.pad_length. reflexivity. Qed.

End HexMore.

(** X10 (rgbaToHex, code.ts 44-51).  Whatever the four numbers are, in
    range or not, the result starts with "#" and has seven characters when
    [a >= 1] and nine otherwise: [pad] always yields two characters. *)
Theorem rgbaToHex_shape_any_input (r g b a : Q) :
  (exists t, rgbaToHex r g b a = String "#" t)
  /\ String.length (rgbaToHex r g b a) = (if Qle_bool 1 a then 7 else 9)%nat.
Proof.
  split; [apply HexMore.rgbaToHex_hash|apply HexMore.rgbaToHex_length].
Qed.

(** X11 (rgbaToHex, code.ts 44-51).  On colours in range the hex string is
    a faithful spelling of the rounded bytes: two colours get the same
    string exactly when their red, green and blue bytes agree and either
    both are opaque ([a >= 1]) or both are not and their alpha bytes
    agree. *)
Theorem rgbaToHex_equal_iff_same_bytes (r g b a r' g' b' a' : Q) :
  (0 <= r <= 1)%Q -> (0 <= g <= 1)%Q -> (0 <= b <= 1)%Q -> (0 <= a <= 1)%Q ->
  (0 <= r' <= 1)%Q -> (0 <= g' <= 1)%Q -> (0 <= b' <= 1)%Q -> (0 <= a' <= 1)%Q ->
  rgbaToHex r g b a = rgbaToHex r' g' b' a'
  <-> math_round (r * 255) = math_round (r' * 255)
      /\ math_round (g * 255) = math_round (g' * 255)
      /\ math_round (b * 255) = math_round (b' * 255)
      /\ (((1 <= a)%Q /\ (1 <= a')%Q)
          \/ ((a < 1)%Q /\ (a' < 1)%Q
              /\ math_round (a * 255) = math_round (a' * 255))).
Proof.
  intros [Hr0 Hr1] [Hg0 Hg1] [Hb0 Hb1] [Ha0 Ha1]
         [Hr0' Hr1'] [Hg0' Hg1'] [Hb0' Hb1'] [Ha0' Ha1'].
  pose proof (HexFacts.math_round_byte r Hr0 Hr1) as HR.
  pose proof (HexFacts.math_round_byte g Hg0 Hg1) as HG.
  pose proof (HexFacts.math_round_byte b Hb0 Hb1) as HB.
  pose proof (HexFacts.math_round_byte a Ha0 Ha1) as HA.
  pose proof (HexFacts.math_round_byte r' Hr0' Hr1') as HR'.
  pose proof (HexFacts.math_round_byte g' Hg0' Hg1') as HG'.
  pose proof (HexFacts.math_round_byte b' Hb0' Hb1') as HB'.
  pose proof (HexFacts.math_round_byte a' Ha0' Ha1') as HA'.
  assert (Hpad : forall m n, (0 <= m <= 255)%Z -> (0 <= n <= 255)%Z ->
                   pad m = pad n -> m = n).
  { intros m n Hm Hn H. rewrite !HexFacts.pad_byte in H by assumption.
    apply HexMore.hex2_inj; assumption. }
  split.
  - intros H.
    assert (Hlen := f_equal String.length H).
    rewrite !HexMore.rgbaToHex_length in Hlen.
    destruct (Qlt_le_dec a 1) as [Hlt|Hge]; destruct (Qlt_le_dec a' 1) as [Hlt'|Hge'].
    + rewrite !HexFacts.rgbaToHex_alpha_eq in H by assumption.
      injection H as H.
      apply HexMore.pad_app_inv in H as [H1 H].
      apply HexMore.pad_app_inv in H as [H2 H].
      apply HexMore.pad_app_inv in H as [H3 H].
      repeat split; try (apply Hpad; assumption).
      right. repeat split; try assumption. apply Hpad; assumption.
    + exfalso. destruct (Qle_bool 1 a) eqn:E1.
      { apply Qle_bool_iff in E1. lra. }
      destruct (Qle_bool 1 a') eqn:E2; [discriminate Hlen|].
      assert (Qle_bool 1 a' = true) by (apply Qle_bool_iff; exact Hge').
      congruence.
    + exfalso. destruct (Qle_bool 1 a') eqn:E1.
      { apply Qle_bool_iff in E1. lra. }
      destruct (Qle_bool 1 a) eqn:E2; [discriminate Hlen|].
      assert (Qle_bool 1 a = true) by (apply Qle_bool_iff; exact Hge).
      congruence.
    + rewrite !HexFacts.rgbaToHex_opaque_eq in H by assumption.
      injection H as H.
      apply HexMore.pad_app_inv in H as [H1 H].
      apply HexMore.pad_app_inv in H as [H2 H].
      repeat split; try (apply Hpad; assumption).
      left. split; assumption.
  - intros (H1 & H2 & H3 & [[Hge Hge']|(Hlt & Hlt' & H4)]).
    + rewrite !HexFacts.rgbaToHex_opaque_eq by assumption.
      rewrite H1, H2, H3. reflexivity.
    + rewrite !HexFacts.rgbaToHex_alpha_eq by assumption.
      rewrite H1, H2, H3, H4. reflexivity.
Qed.

Lemma rgbaToHex_equal_iff_same_bytes_witness :
  rgbaToHex (1 # 2) 0 1 1 = rgbaToHex (501 # 1000) 0 1 1.
Proof.
  apply (rgbaToHex_equal_iff_same_bytes (1 # 2) 0 1 1 (501 # 1000) 0 1 1);
    try (split; vm_compute; discriminate).
  repeat split. left. split; vm_compute; discriminate.
Defined.

(** * Further properties of the builder *)

Module BuilderMore.

(** ** The lookup from variable identifiers to token paths *)

Lemma ids_inner_lookup vs :
  forall (ids0 : gmap string string) id path,
    fold_left (fun ids v => <[var_id v := nameToTokenPath (var_name v)]> ids)
      vs ids0 !! id = Some path ->
    (exists v, v ∈ vs /\ var_id v = id /\ path = nameToTokenPath (var_name v))
    \/ ids0 !! id = Some path.
Proof.
  induction vs as [|v vs IH]; intros ids0 id path H; cbn in H; [right; exact H|].
  apply IH in H as [(w & Hw & Hid & Hp)|H].
  - left. exists w. split; [apply elem_of_cons; right; exact Hw|]. tauto.
  - destruct (decide (var_id v = id)) as [Heq|Hne].
    + rewrite <- Heq, lookup_insert_eq in H. injection H as <-.
      left. exists v. split; [apply elem_of_cons; left; reflexivity|]. tauto.
    + rewrite lookup_insert_ne in H by exact Hne. right. exact H.
Qed.

Lemma ids_inner_total vs :
  forall (ids0 : gmap string string) id,
    (is_Some (ids0 !! id) \/ exists v, v ∈ vs /\ var_id v = id) ->
    is_Some
      (fold_left (fun ids v => <[var_id v := nameToTokenPath (var_name v)]> ids)
         vs ids0 !! id).
Proof.
  induction vs as [|v vs IH]; intros ids0 id H; cbn.
  - destruct H as [H|(v & Hv & _)]; [exact H|]. inversion Hv.
  - apply IH. destruct H as [H|(w & Hw & Hid)].
    + left. destruct (decide (var_id v = id)) as [<-|Hne].
      * rewrite lookup_insert_eq. eauto.
      * rewrite lookup_insert_ne by exact Hne. exact H.
    + apply elem_of_cons in Hw as [->|Hw].
      * left. rewrite <- Hid, lookup_insert_eq. eauto.
      * right. eauto.
Qed.

Lemma ids_outer_lookup cols :
  forall (ids0 : gmap string string) id path,
    fold_left
      (fun ids col =>
         fold_left
           (fun ids v => <[var_id v := nameToTokenPath (var_name v)]> ids)
           (variables col) ids)
      cols ids0 !! id = Some path ->
    (exists col v, in_snapshot cols col v /\ var_id v = id
                   /\ path = nameToTokenPath (var_name v))
    \/ ids0 !! id = Some path.
Proof.
  induction cols as [|col cols IH]; intros ids0 id path H; cbn in H;
    [right; exact H|].
  apply IH in H as [(c & w & [Hc Hw] & Hid & Hp)|H].
  - left. exists c, w. split; [split; [apply elem_of_cons; right; exact Hc|exact Hw]|].
    tauto.
  - apply ids_inner_lookup in H as [(w & Hw & Hid & Hp)|H]; [|right; exact H].
    left. exists col, w.
    split; [split; [apply elem_of_cons; left; reflexivity|exact Hw]|]. tauto.
Qed.

Lemma ids_outer_total cols :
  forall (ids0 : gmap string string) id,
    (is_Some (ids0 !! id)
     \/ exists col v, in_snapshot cols col v /\ var_id v = id) ->
    is_Some
      (fold_left
         (fun ids col =>
            fold_left
              (fun ids v => <[var_id v := nameToTokenPath (var_name v)]> ids)
              (variables col) ids)
         cols ids0 !! id).
Proof.
  induction cols as [|col cols IH]; intros ids0 id H; cbn.
  - destruct H as [H|(c & v & [Hc _] & _)]; [exact H|]. inversion Hc.
  - apply IH. destruct H as [H|(c & w & [Hc Hw] & Hid)].
    + left. apply ids_inner_total. left. exact H.
    + apply elem_of_cons in Hc as [->|Hc].
      * left. apply ids_inner_total. right. eauto.
      * right. exists c, w. split; [split; assumption|exact Hid].
Qed.

Lemma ids_lookup cols id path :
  buildVarIdToTokenPath cols !! id = Some path ->
  exists col v, in_snapshot cols col v /\ var_id v = id
                /\ path = nameToTokenPath (var_name v).
Proof.
  intros H. apply ids_outer_lookup in H as [H|H]; [exact H|].
  rewrite lookup_empty in H. discriminate H.
Qed.

Lemma ids_total cols col v :
  in_snapshot cols col v -> is_Some (buildVarIdToTokenPath cols !! var_id v).
Proof. intros H. apply ids_outer_total. right. eauto. Qed.

(** ** Induction on the loop of step 2 *)

Lemma buildTokensRaw_inner_ind (I : BuildState -> Prop) col ids vs :
  (forall v st, v ∈ vs -> I st -> I (processVariable col ids st v)) ->
  forall st, I st -> I (fold_left (processVariable col ids) vs st).
Proof.
  induction vs as [|v vs IH]; intros Hstep st Hst; cbn; [exact Hst|].
  apply IH.
  - intros w s Hw. apply Hstep. apply elem_of_cons. right. exact Hw.
  - apply Hstep; [apply elem_of_cons; left; reflexivity|exact Hst].
Qed.

Lemma buildTokensRaw_outer_ind (I : BuildState -> Prop) ids cols :
  (forall col v st, in_snapshot cols col v -> I st ->
                    I (processVariable col ids st v)) ->
  forall st, I st ->
    I (fold_left
         (fun st col => fold_left (processVariable col ids) (variables col) st)
         cols st).
Proof.
  induction cols as [|col cols IH]; intros Hstep st Hst; cbn; [exact Hst|].
  apply IH.
  - intros c w s [Hc Hw]. apply Hstep. split; [|exact Hw].
    apply elem_of_cons. right. exact Hc.
  - apply buildTokensRaw_inner_ind; [|exact Hst].
    intros w s Hw. apply Hstep. split; [|exact Hw].
    apply elem_of_cons. left. reflexivity.
Qed.

(** A property of the initial state that every processed variable of the
    snapshot preserves holds of the result of step 2. *)
Lemma buildTokensRaw_ind (I : BuildState -> Prop) cols :
  I initBuildState ->
  (forall col v st, in_snapshot cols col v -> I st ->
     I (processVariable col (buildVarIdToTokenPath cols) st v)) ->
  I (buildTokensRaw cols).
Proof.
  intros H0 Hstep. unfold buildTokensRaw.
  apply buildTokensRaw_outer_ind; assumption.
Qed.

(** The four ways [claimAndAdd] can go. *)
Lemma claimAndAdd_cases b col ids v p st :
  (exists c,
     bucket_get (tokenPathToFirst st) b !! p = Some c
     /\ fc_varId c <> var_id v
     /\ claimAndAdd b col ids v p st
        = mkBuildState (tokensRaw st) (tokenPathToFirst st)
            (duplicateErrors st ++ [duplicate_of b p c col v]))
  \/ (exists c,
        bucket_get (tokenPathToFirst st) b !! p = Some c
        /\ fc_varId c = var_id v
        /\ claimAndAdd b col ids v p st
           = mkBuildState
               (bucket_set b
                  (Obj.set p (buildEntry col ids v) (bucket_get (tokensRaw st) b))
                  (tokensRaw st))
               (tokenPathToFirst st) (duplicateErrors st))
  \/ (bucket_get (tokenPathToFirst st) b !! p = None
      /\ Obj.proto_member p = false
      /\ claimAndAdd b col ids v p st
         = mkBuildState
             (bucket_set b
                (Obj.set p (buildEntry col ids v) (bucket_get (tokensRaw st) b))
                (tokensRaw st))
             (bucket_set b
                (<[p := mkFirstClaim (var_id v) (var_name v) (col_name col)]>
                   (bucket_get (tokenPathToFirst st) b))
                (tokenPathToFirst st))
             (duplicateErrors st))
  \/ (bucket_get (tokenPathToFirst st) b !! p = None
      /\ Obj.proto_member p = true
      /\ claimAndAdd b col ids v p st
         = mkBuildState (tokensRaw st) (tokenPathToFirst st)
             (duplicateErrors st ++ [inherited_duplicate_of b p col v])).
Proof.
  unfold claimAndAdd, checkCollisionAndAdd.
  destruct (bucket_get (tokenPathToFirst st) b !! p) as [c|] eqn:Hc.
  - destruct (decide (fc_varId c = var_id v)) as [Heq|Hne].
    + right. left. exists c. split; [reflexivity|]. split; [exact Heq|].
      rewrite CollisionFacts.addModeValues_eq. reflexivity.
    + left. exists c. split; [reflexivity|]. split; [exact Hne|]. reflexivity.
  - destruct (Obj.proto_member p) eqn:Hm.
    + right. right. right. repeat split.
    + right. right. left. split; [reflexivity|]. split; [reflexivity|].
      cbn [tokensRaw tokenPathToFirst duplicateErrors].
      rewrite CollisionFacts.addModeValues_eq. reflexivity.
Qed.

Lemma bucket_get_set_ne {A} (t : Buckets A) b b' (x : A) :
  b <> b' -> bucket_get (bucket_set b x t) b' = bucket_get t b'.
Proof. destruct b, b'; intros H; try reflexivity; contradiction. Qed.

Lemma bucket_get_set_cases {A} (t : Buckets A) b b' (x : A) :
  bucket_get (bucket_set b x t) b' = if decide (b = b') then x else bucket_get t b'.
Proof.
  case_decide as H; [subst; apply CollisionFacts.bucket_get_set|].
  apply bucket_get_set_ne, H.
Qed.

(** ** The shape of the raw cells *)

Lemma routeBucket_type col v b :
  routeBucket col v = Some b ->
  (b = color /\ resolvedType v = "COLOR")
  \/ (b <> color /\ resolvedType v = "FLOAT").
Proof.
  unfold routeBucket.
  destruct (decide (resolvedType v = "COLOR")) as [Hc|Hc].
  - intros H. injection H as <-. left. split; [reflexivity|exact Hc].
  - destruct (decide (resolvedType v = "FLOAT")) as [Hf|Hf]; [|discriminate].
    intros H. right. split; [|exact Hf].
    destruct (Str.includes "spacing" (Str.toLowerCase (col_name col))).
    { injection H as <-. discriminate. }
    destruct (Str.includes "radius" (Str.toLowerCase (col_name col))).
    { injection H as <-. discriminate. }
    destruct (Str.includes "spacing" (Str.toLowerCase (var_name v))).
    { injection H as <-. discriminate. }
    destruct (Str.includes "radius" (Str.toLowerCase (var_name v)));
      [|discriminate].
    injection H as <-. discriminate.
Qed.

Lemma truthy_nonempty s : Str.truthy s = true -> s <> "".
Proof. destruct s; [discriminate|]. intros _. discriminate. Qed.

Lemma buildTokenValueRaw_typed ids b value is_alias ty tv :
  (b = color /\ ty = "COLOR") \/ (b <> color /\ ty = "FLOAT") ->
  buildTokenValueRaw value is_alias ids ty = Some tv ->
  cell_typed ids b tv.
Proof.
  intros Hb. unfold buildTokenValueRaw. destruct is_alias.
  - destruct (getAliasVariableId value) as [tid|]; [|discriminate].
    destruct (Str.truthy tid); [|discriminate].
    destruct (ids !! tid) as [p|] eqn:Hp; [|discriminate].
    destruct (Str.truthy p) eqn:Ht; [|discriminate].
    intros H. injection H as <-. cbn.
    split; [apply truthy_nonempty, Ht|]. eauto.
  - destruct value as [x|s|n|r g bl a|id]; try discriminate.
    + case_decide as Hty; [|discriminate]. intros H. injection H as <-. cbn.
      destruct Hb as [[-> Hc]|[Hb _]]; [|exact Hb]. congruence.
    + case_decide as Hty; [|discriminate]. intros H. injection H as <-. cbn.
      destruct Hb as [[-> _]|[_ Hf]]; [|congruence].
      split; reflexivity.
Qed.

Lemma buildEntry_typed col ids v b :
  routeBucket col v = Some b ->
  Forall (fun kv => cell_typed ids b (snd kv)) (buildEntry col ids v).
Proof.
  intros Hb. apply routeBucket_type in Hb. unfold buildEntry.
  assert (H : forall L (entry : RawEntry),
    Forall (fun kv => cell_typed ids b (snd kv)) entry ->
    Forall (fun kv => cell_typed ids b (snd kv))
      (fold_left
         (fun entry modeId =>
            match Obj.get modeId (valuesPerMode v) with
            | Some mv =>
                let modeName := default modeId (modeIdToName col !! modeId) in
                let outputKey := getOutputModeKey col modeName in
                match buildTokenValueRaw (value mv) (isAlias mv) ids
                        (resolvedType v) with
                | Some tv => Obj.assign outputKey tv entry
                | None => entry
                end
            | None => entry
            end) L entry)).
  { induction L as [|k L IH]; intros entry He; cbn [fold_left]; [exact He|].
    apply IH. destruct (Obj.get k (valuesPerMode v)) as [mv|]; [|exact He].
    cbn zeta.
    destruct (buildTokenValueRaw (value mv) (isAlias mv) ids (resolvedType v))
      as [tv|] eqn:Htv; [|exact He].
    unfold Obj.assign. case_decide; [exact He|].
    apply (OrderFacts.Forall_values_set (cell_typed ids b)); [|exact He].
    eapply buildTokenValueRaw_typed; eassumption. }
  apply H. constructor.
Qed.

Lemma Forall_values_get {V} (P : V -> Prop) (o : jsobj V) k v :
  Forall (fun kv => P (snd kv)) o -> Obj.get k o = Some v -> P v.
Proof.
  intros HF Hg. apply ObjFacts.get_elem_of in Hg.
  rewrite Forall_forall in HF. apply (HF (k, v)), Hg.
Qed.

Lemma raw_typed_set ids raw b p entry :
  raw_typed ids raw ->
  Forall (fun kv => cell_typed ids b (snd kv)) entry ->
  raw_typed ids (bucket_set b (Obj.set p entry (bucket_get raw b)) raw).
Proof.
  intros Hraw He b' q e m tv Hq Hm.
  rewrite bucket_get_set_cases in Hq. case_decide as Hb.
  - subst b'. rewrite ObjFacts.get_set in Hq. case_decide as Hp.
    + injection Hq as <-. eapply Forall_values_get; eassumption.
    + eapply Hraw; eassumption.
  - eapply Hraw; eassumption.
Qed.

Lemma processVariable_typed col ids st v :
  raw_typed ids (tokensRaw st) ->
  raw_typed ids (tokensRaw (processVariable col ids st v)).
Proof.
  intros Hst. unfold processVariable.
  destruct (routeBucket col v) as [b|] eqn:Hb; [|exact Hst].
  destruct (claimAndAdd_cases b col ids v
              (default "undefined" (ids !! var_id v)) st)
    as [(c & _ & _ & ->)|[(c & _ & _ & ->)|[(_ & _ & ->)|(_ & _ & ->)]]];
    cbn [tokensRaw].
  - exact Hst.
  - apply raw_typed_set; [exact Hst|]. apply buildEntry_typed, Hb.
  - apply raw_typed_set; [exact Hst|]. apply buildEntry_typed, Hb.
  - exact Hst.
Qed.

Lemma buildTokensRaw_typed cols :
  raw_typed (buildVarIdToTokenPath cols) (tokensRaw (buildTokensRaw cols)).
Proof.
  apply (buildTokensRaw_ind
           (fun st => raw_typed (buildVarIdToTokenPath cols) (tokensRaw st))).
  - intros b p entry m tv Hp. destruct b; discriminate Hp.
  - intros col v st _. apply processVariable_typed.
Qed.

(** ** Claims, entries and duplicate errors *)

Lemma in_snapshot_variables cols col v :
  (col, v) ∈ snapshot_variables cols <-> in_snapshot cols col v.
Proof.
  unfold snapshot_variables, in_snapshot.
  rewrite list_elem_of_In, List.in_flat_map. split.
  - intros (c & Hc & Hv). apply List.in_map_iff in Hv as (w & Hw & Hv).
    injection Hw as <- <-. split; apply list_elem_of_In; assumption.
  - intros [Hc Hv]. exists col. split; [apply list_elem_of_In, Hc|].
    apply List.in_map_iff. exists v. split; [reflexivity|].
    apply list_elem_of_In, Hv.
Qed.

Lemma buildTokensRaw_flat_fold ids cols :
  forall st,
    fold_left
      (fun st col => fold_left (processVariable col ids) (variables col) st)
      cols st
    = fold_left (fun st cv => processVariable (fst cv) ids st (snd cv))
        (snapshot_variables cols) st.
Proof.
  induction cols as [|col cols IH]; intros st; [reflexivity|].
  cbn [fold_left snapshot_variables List.flat_map].
  rewrite fold_left_app, IH. f_equal.
  generalize (variables col) st. clear.
  induction l as [|v l IH]; intros st; [reflexivity|]. cbn. apply IH.
Qed.

(** Induction on step 2 that keeps track of the variables already
    visited. *)
Lemma buildTokensRaw_trace_ind
    (I : list (RawCollection * RawVariable) -> BuildState -> Prop) cols :
  I [] initBuildState ->
  (forall done col v st,
     in_snapshot cols col v -> I done st ->
     I (done ++ [(col, v)])
       (processVariable col (buildVarIdToTokenPath cols) st v)) ->
  I (snapshot_variables cols) (buildTokensRaw cols).
Proof.
  intros H0 Hstep. unfold buildTokensRaw. rewrite buildTokensRaw_flat_fold.
  assert (H : forall L done st,
    (forall cv, cv ∈ L -> in_snapshot cols (fst cv) (snd cv)) ->
    I done st ->
    I (done ++ L)
      (fold_left
         (fun st cv =>
            processVariable (fst cv) (buildVarIdToTokenPath cols) st (snd cv))
         L st)).
  { induction L as [|[col v] L IH]; intros done st HL Hst; cbn [fold_left].
    - rewrite app_nil_r. exact Hst.
    - change (done ++ (col, v) :: L) with (done ++ [(col, v)] ++ L).
      rewrite app_assoc. apply IH.
      + intros cv Hcv. apply HL. apply elem_of_cons. right. exact Hcv.
      + apply Hstep; [|exact Hst].
        apply (HL (col, v)). apply elem_of_cons. left. reflexivity. }
  apply (H (snapshot_variables cols) [] initBuildState); [|exact H0].
  intros [col v] Hcv. apply in_snapshot_variables, Hcv.
Qed.

Lemma is_Some_get_set {V} (o : jsobj V) k k' v :
  is_Some (Obj.get k' (Obj.set k v o)) <-> k' = k \/ is_Some (Obj.get k' o).
Proof.
  rewrite !ObjFacts.get_Some_keys. apply ObjFacts.elem_of_keys_set.
Qed.

Lemma build_inv_init cols : build_inv cols [] initBuildState.
Proof.
  split.
  - intros b p. destruct b; cbn; rewrite lookup_empty;
      split; intros [x H]; discriminate H.
  - intros b p c H. destruct b; cbn in H; rewrite lookup_empty in H;
      discriminate H.
  - intros b p [c H]. destruct b; cbn in H; rewrite lookup_empty in H;
      discriminate H.
  - intros b p entry H. destruct b; discriminate H.
  - intros d H. cbn in H. inversion H.
  - intros col v b H. inversion H.
Qed.

(** What is known of the duplicate errors and of the visited variables
    stays known when claims and errors are added and one more variable is
    visited. *)
Lemma build_inv_grow cols done st cv
    (claims' : Buckets (gmap string FirstClaim))
    (errs' : list DuplicateError) :
  build_inv cols done st ->
  (forall b q c,
     bucket_get (tokenPathToFirst st) b !! q = Some c ->
     bucket_get claims' b !! q = Some c) ->
  (forall d, d ∈ duplicateErrors st -> d ∈ errs') ->
  (forall d,
     d ∈ duplicateErrors st ->
     exists col v,
       (col, v) ∈ done ++ [cv]
       /\ routeBucket col v = Some (de_bucket d)
       /\ buildVarIdToTokenPath cols !! var_id v = Some (de_tokenPath d)
       /\ ((exists c,
              bucket_get claims' (de_bucket d) !! de_tokenPath d = Some c
              /\ fc_varId c <> var_id v
              /\ d = duplicate_of (de_bucket d) (de_tokenPath d) c col v)
           \/ (Obj.proto_member (de_tokenPath d) = true
               /\ d = inherited_duplicate_of (de_bucket d) (de_tokenPath d)
                        col v)))
  /\ (forall col v b,
        (col, v) ∈ done -> routeBucket col v = Some b ->
        exists p,
          buildVarIdToTokenPath cols !! var_id v = Some p
          /\ ((exists c,
                 bucket_get claims' b !! p = Some c
                 /\ (fc_varId c = var_id v
                     \/ duplicate_of b p c col v ∈ errs'))
              \/ (Obj.proto_member p = true
                  /\ inherited_duplicate_of b p col v ∈ errs'))).
Proof.
  intros Inv Hreg Herrs. split.
  - intros d Hd.
    destruct (inv_dup _ _ _ Inv d Hd) as (col & v & H0 & H1 & H2 & H3).
    exists col, v. split; [apply elem_of_app; left; exact H0|].
    split; [exact H1|]. split; [exact H2|].
    destruct H3 as [(c & Hc & Hrest)|H3]; [left|right; exact H3].
    exists c. split; [apply Hreg, Hc|exact Hrest].
  - intros col v b Hin Hr.
    destruct (inv_done _ _ _ Inv col v b Hin Hr) as (p & Hp & H).
    exists p. split; [exact Hp|].
    destruct H as [(c & Hc & [Hid|Hd])|[Hm Hd]].
    + left. exists c. split; [apply Hreg, Hc|]. left. exact Hid.
    + left. exists c. split; [apply Hreg, Hc|]. right. apply Herrs, Hd.
    + right. split; [exact Hm|apply Herrs, Hd].
Qed.

Lemma build_inv_step cols done col v st :
  in_snapshot cols col v ->
  build_inv cols done st ->
  build_inv cols (done ++ [(col, v)])
    (processVariable col (buildVarIdToTokenPath cols) st v).
Proof.
  intros Hin Inv. pose proof Inv as [Hkeys Hclaim Hplain Hentry Hdup Hdone].
  set (ids := buildVarIdToTokenPath cols) in *.
  destruct (ids_total cols col v Hin) as [p Hp]. fold ids in Hp.
  assert (Hold : forall cv, cv ∈ done -> cv ∈ done ++ [(col, v)]).
  { intros cv H. apply elem_of_app. left. exact H. }
  assert (Hnew : (col, v) ∈ done ++ [(col, v)]).
  { apply elem_of_app. right. apply list_elem_of_singleton. reflexivity. }
  assert (Hclaim' : forall b q c,
    bucket_get (tokenPathToFirst st) b !! q = Some c ->
    exists col0 v0,
      (col0, v0) ∈ done ++ [(col, v)] /\ c = claim_of col0 v0
      /\ routeBucket col0 v0 = Some b /\ ids !! var_id v0 = Some q).
  { intros b q c H. destruct (Hclaim b q c H) as (c0 & v0 & H0 & H1).
    exists c0, v0. split; [apply Hold, H0|exact H1]. }
  assert (Hentry' : forall (claims' : Buckets (gmap string FirstClaim)),
    (forall b q c,
       bucket_get (tokenPathToFirst st) b !! q = Some c ->
       bucket_get claims' b !! q = Some c) ->
    forall b q e,
      Obj.get q (bucket_get (tokensRaw st) b) = Some e ->
      exists col0 v0 c,
        (col0, v0) ∈ done ++ [(col, v)]
        /\ bucket_get claims' b !! q = Some c
        /\ fc_varId c = var_id v0
        /\ routeBucket col0 v0 = Some b
        /\ ids !! var_id v0 = Some q
        /\ e = buildEntry col0 ids v0).
  { intros claims' Hreg b q e H.
    destruct (Hentry b q e H) as (c0 & v0 & c & H0 & H1 & H2).
    exists c0, v0, c. split; [apply Hold, H0|]. split; [apply Hreg, H1|exact H2]. }
  assert (Hsame : forall b q (c : FirstClaim),
    bucket_get (tokenPathToFirst st) b !! q = Some c ->
    bucket_get (tokenPathToFirst st) b !! q = Some c) by auto.
  unfold processVariable. rewrite Hp.
  change (default "undefined" (Some p)) with p.
  destruct (routeBucket col v) as [b|] eqn:Hb.
  2:{ destruct (build_inv_grow cols done st (col, v) (tokenPathToFirst st)
                  (duplicateErrors st) Inv Hsame (fun d H => H)) as [Hd1 Hd2].
      split.
      - exact Hkeys.
      - exact Hclaim'.
      - exact Hplain.
      - apply (Hentry' _ Hsame).
      - exact Hd1.
      - intros c0 v0 b H Hr. apply elem_of_app in H as [H|H].
        + apply (Hd2 c0 v0 b H Hr).
        + apply list_elem_of_singleton in H. injection H as -> ->. congruence. }
  destruct (claimAndAdd_cases b col ids v p st)
    as [(c & Hc & Hne & ->)|[(c & Hc & Heq & ->)
        |[(Hc & Hm & ->)|(Hc & Hm & ->)]]].
  - (* the path is claimed by another variable *)
    destruct (build_inv_grow cols done st (col, v) (tokenPathToFirst st)
                (duplicateErrors st ++ [duplicate_of b p c col v]) Inv Hsame)
      as [Hd1 Hd2].
    { intros d H. apply elem_of_app. left. exact H. }
    split; cbn [tokensRaw tokenPathToFirst duplicateErrors].
    + exact Hkeys.
    + exact Hclaim'.
    + exact Hplain.
    + apply (Hentry' _ Hsame).
    + intros d H. apply elem_of_app in H as [H|H]; [apply Hd1, H|].
      apply list_elem_of_singleton in H. subst d.
      cbn [duplicate_of de_bucket de_tokenPath]. exists col, v.
      split; [exact Hnew|]. split; [exact Hb|]. split; [exact Hp|].
      left. exists c. repeat split; assumption.
    + intros c0 v0 b' H Hr. apply elem_of_app in H as [H|H];
        [apply (Hd2 c0 v0 b' H Hr)|].
      apply list_elem_of_singleton in H. injection H as -> ->.
      assert (b' = b) by congruence. subst b'.
      exists p. split; [exact Hp|]. left. exists c. split; [exact Hc|]. right.
      apply elem_of_app. right. apply list_elem_of_singleton. reflexivity.
  - (* the path is claimed by a variable with the same identifier *)
    destruct (build_inv_grow cols done st (col, v) (tokenPathToFirst st)
                (duplicateErrors st) Inv Hsame (fun d H => H)) as [Hd1 Hd2].
    split; cbn [tokensRaw tokenPathToFirst duplicateErrors].
    + intros b' q. rewrite bucket_get_set_cases. case_decide as Hbb.
      * subst b'. rewrite is_Some_get_set, Hkeys. split; [|tauto].
        intros [->|H]; [rewrite Hc; eauto|exact H].
      * apply Hkeys.
    + exact Hclaim'.
    + exact Hplain.
    + intros b' q e. rewrite bucket_get_set_cases. case_decide as Hbb.
      * subst b'. rewrite ObjFacts.get_set. case_decide as Hq.
        -- subst q. intros H. injection H as <-. exists col, v, c.
           repeat split; try assumption.
        -- apply (Hentry' _ Hsame).
      * apply (Hentry' _ Hsame).
    + exact Hd1.
    + intros c0 v0 b' H Hr. apply elem_of_app in H as [H|H];
        [apply (Hd2 c0 v0 b' H Hr)|].
      apply list_elem_of_singleton in H. injection H as -> ->.
      assert (b' = b) by congruence. subst b'.
      exists p. split; [exact Hp|]. left. exists c. split; [exact Hc|].
      left. exact Heq.
  - (* the path is free *)
    assert (Hreg : forall b' q c',
      bucket_get (tokenPathToFirst st) b' !! q = Some c' ->
      bucket_get
        (bucket_set b
           (<[p := claim_of col v]> (bucket_get (tokenPathToFirst st) b))
           (tokenPathToFirst st)) b' !! q = Some c').
    { intros b' q c' H. rewrite bucket_get_set_cases. case_decide as Hbb;
        [|exact H].
      subst b'. rewrite lookup_insert_ne; [exact H|]. intros ->. congruence. }
    fold (claim_of col v).
    destruct (build_inv_grow cols done st (col, v) _
                (duplicateErrors st) Inv Hreg (fun d H => H)) as [Hd1 Hd2].
    split; cbn [tokensRaw tokenPathToFirst duplicateErrors].
    + intros b' q. rewrite !bucket_get_set_cases. case_decide as Hbb.
      * subst b'. rewrite is_Some_get_set, Hkeys.
        destruct (decide (p = q)) as [->|Hpq].
        -- rewrite lookup_insert_eq. split; eauto.
        -- rewrite lookup_insert_ne by exact Hpq. split; [|tauto].
           intros [->|H]; [contradiction|exact H].
      * apply Hkeys.
    + intros b' q c'. rewrite bucket_get_set_cases. case_decide as Hbb.
      * subst b'. destruct (decide (p = q)) as [->|Hpq].
        -- rewrite lookup_insert_eq. intros H. injection H as <-.
           exists col, v. repeat split; assumption.
        -- rewrite lookup_insert_ne by exact Hpq. apply Hclaim'.
      * apply Hclaim'.
    + intros b' q. rewrite bucket_get_set_cases. case_decide as Hbb.
      * subst b'. destruct (decide (p = q)) as [->|Hpq].
        -- intros _. exact Hm.
        -- rewrite lookup_insert_ne by exact Hpq. apply Hplain.
      * apply Hplain.
    + intros b' q e. rewrite bucket_get_set_cases. case_decide as Hbb.
      * subst b'. rewrite ObjFacts.get_set. case_decide as Hq.
        -- subst q. intros H. injection H as <-. exists col, v, (claim_of col v).
           rewrite bucket_get_set_cases, decide_True by reflexivity.
           rewrite lookup_insert_eq. repeat split; assumption.
        -- apply (Hentry' _ Hreg).
      * apply (Hentry' _ Hreg).
    + exact Hd1.
    + intros c0 v0 b' H Hr. apply elem_of_app in H as [H|H];
        [apply (Hd2 c0 v0 b' H Hr)|].
      apply list_elem_of_singleton in H. injection H as -> ->.
      assert (b' = b) by congruence. subst b'.
      exists p. split; [exact Hp|]. left. exists (claim_of col v).
      rewrite bucket_get_set_cases, decide_True by reflexivity.
      rewrite lookup_insert_eq. split; [reflexivity|]. left. reflexivity.
  - (* the path names an inherited member *)
    destruct (build_inv_grow cols done st (col, v) (tokenPathToFirst st)
                (duplicateErrors st ++ [inherited_duplicate_of b p col v])
                Inv Hsame)
      as [Hd1 Hd2].
    { intros d H. apply elem_of_app. left. exact H. }
    split; cbn [tokensRaw tokenPathToFirst duplicateErrors].
    + exact Hkeys.
    + exact Hclaim'.
    + exact Hplain.
    + apply (Hentry' _ Hsame).
    + intros d H. apply elem_of_app in H as [H|H]; [apply Hd1, H|].
      apply list_elem_of_singleton in H. subst d.
      cbn [inherited_duplicate_of de_bucket de_tokenPath]. exists col, v.
      split; [exact Hnew|]. split; [exact Hb|]. split; [exact Hp|].
      right. split; [exact Hm|reflexivity].
    + intros c0 v0 b' H Hr. apply elem_of_app in H as [H|H];
        [apply (Hd2 c0 v0 b' H Hr)|].
      apply list_elem_of_singleton in H. injection H as -> ->.
      assert (b' = b) by congruence. subst b'.
      exists p. split; [exact Hp|]. right. split; [exact Hm|].
      apply elem_of_app. right. apply list_elem_of_singleton. reflexivity.
Qed.

Lemma buildTokensRaw_inv cols :
  build_inv cols (snapshot_variables cols) (buildTokensRaw cols).
Proof.
  apply (buildTokensRaw_trace_ind (build_inv cols)).
  - apply build_inv_init.
  - intros done col v st. apply build_inv_step.
Qed.

End BuilderMore.

(** * The error report of the export *)

(** C6, as the code has it.  Every entry of [errors] carries a token path.
    It is either a DuplicateTokenPath error, which carries the bucket and
    the identifier, name and collection of the later variable, and those of
    the first claimant whenever the token path has a registered claimant,
    but neither a requested mode nor a chain; or a graph error (cycle,
    missing token, mode mismatch), which carries the requested mode and
    the chain of token paths walked, the token path being on the chain. *)
Theorem export_errors_context (localeCompare : string -> string -> Z)
    (now : string) (cols : list RawCollection) (e : json) :
  e ∈ export_errors (buildExportModel localeCompare now cols) ->
  (exists d : DuplicateError,
     e = DuplicateError_json d
     /\ json_get "type" e = Some (JStr "DuplicateTokenPath")
     /\ json_get "tokenPath" e = Some (JStr (de_tokenPath d))
     /\ json_get "bucket" e = Some (JStr (bucket_name (de_bucket d)))
     /\ json_get "newVarId" e = Some (JStr (newVarId d))
     /\ json_get "newOriginalName" e = Some (JStr (newOriginalName d))
     /\ json_get "newCollectionName" e = Some (JStr (newCollectionName d))
     /\ (forall c,
           bucket_get (tokenPathToFirst (buildTokensRaw cols)) (de_bucket d)
             !! de_tokenPath d = Some c ->
           json_get "existingVarId" e = Some (JStr (fc_varId c))
           /\ json_get "existingOriginalName" e
              = Some (JStr (fc_originalName c))
           /\ json_get "existingCollectionName" e
              = Some (JStr (fc_collectionName c)))
     /\ json_get "requestedModeName" e = None
     /\ json_get "chain" e = None)
  \/ (exists r : ResolutionError,
        e = ResolutionError_json r
        /\ json_get "tokenPath" e = Some (JStr (re_tokenPath r))
        /\ json_get "requestedModeName" e = Some (JStr (re_requestedModeName r))
        /\ json_get "reason" e = Some (JStr (re_reason r))
        /\ json_get "chain" e = Some (strings_json (re_chain r))
        /\ re_reason r ∈ graph_reasons
        /\ re_tokenPath r ∈ re_chain r).
Proof.
  rewrite ErrorFacts.export_errors_eq, elem_of_app.
  intros [Hin|Hin].
  - left. apply list_elem_of_In, List.in_map_iff in Hin.
    destruct Hin as [d [<- Hd]]. exists d.
    repeat (split; [reflexivity|]).
    split; [|split; reflexivity].
    intros c Hc. apply list_elem_of_In in Hd.
    pose proof (BuilderMore.buildTokensRaw_inv cols) as Inv.
    destruct (inv_dup _ _ _ Inv d Hd)
      as (col & v & _ & _ & _ & [(c' & Hc' & _ & Heq)|[Hm _]]).
    + rewrite Hc in Hc'. injection Hc' as <-. rewrite Heq.
      repeat split; reflexivity.
    + rewrite (inv_plain _ _ _ Inv (de_bucket d) (de_tokenPath d)) in Hm;
        [discriminate|]. rewrite Hc. eauto.
  - right. apply list_elem_of_In, List.in_map_iff in Hin.
    destruct Hin as [r [<- Hr]]. exists r.
    pose proof (ErrorFacts.buildTokensResolved_errors_ok
                  (tokensRaw (buildTokensRaw cols))) as Hok.
    rewrite List.Forall_forall in Hok. destruct (Hok r Hr) as [H1 H2].
    repeat (split; [reflexivity|]). split; assumption.
Qed.

Lemma export_errors_context_witness :
  let e := JObj [("tokenPath", JStr "loop.a");
                 ("requestedModeName", JStr "Light");
                 ("reason", JStr "cycle");
                 ("chain", JArr [JStr "loop.a"; JStr "loop.b"; JStr "loop.a"])] in
  e ∈ export_errors (buildExportModel (fun _ _ => 0%Z) "" cycle_scenario)
  /\ exists r : ResolutionError,
       e = ResolutionError_json r /\ re_tokenPath r ∈ re_chain r.
Proof.
  intros e.
  assert (Hin : e ∈ export_errors
                      (buildExportModel (fun _ _ => 0%Z) "" cycle_scenario))
    by (vm_compute; left).
  split; [exact Hin|].
  destruct (export_errors_context (fun _ _ => 0%Z) "" cycle_scenario e Hin)
    as [[d [Hd _]] | [r [Hr [_ [_ [_ [_ [_ Hc]]]]]]]].
  - discriminate Hd.
  - exists r. split; assumption.
Defined.

(** C6 as stated fails: the DuplicateTokenPath error of the collision
    scenario has no requested mode. *)
Lemma duplicate_error_without_mode :
  ~ (forall e,
       e ∈ export_errors (buildExportModel (fun _ _ => 0%Z) "" collision_scenario) ->
       carries_path_and_mode e).
Proof.
  intros H.
  destruct (H (DuplicateError_json
                 (mkDuplicateError "surface.1" color (Some "V:1") "V:2"
                    (Some "Surface/1") "Surface/1" (Some "Brand") "Product"
                    duplicate_suggestion)))
    as [_ [x Hx]].
  - vm_compute. left.
  - vm_compute in Hx. discriminate Hx.
Qed.

(** * Further properties of the resolution pass *)

Module PassMore.

(** The errors passed in come back in front of the errors of the call. *)
Lemma resolveRef_errors_prefix raw bucket m p vis ch errs :
  snd (resolveRef p m raw bucket (mkRState vis ch errs))
  = mkRState vis ch
      (errs ++ errors (snd (resolveRef p m raw bucket (mkRState vis ch [])))).
Proof.
  destruct (ResolveFacts.resolveRef_total raw bucket m p (mkRState vis ch []))
    as [[r st'] [Hf ->]].
  assert (H := ResolveFacts.resolveRef_fuel_errors raw bucket m
                 (resolve_fuel raw bucket) p vis ch errs).
  rewrite Hf in H. rewrite (ResolveFacts.resolveRef_eq _ _ _ _ _ _ _ H).
  destruct (ResolveFacts.resolveRef_fuel_unwinds _ _ _ _ _ _ _ _ Hf)
    as [Hv [Hc _]].
  cbn [snd visited chain] in *. rewrite Hv, Hc. reflexivity.
Qed.

Lemma resolveModes_errors raw bucket p M :
  forall res errs,
    snd (resolveModes raw bucket p M (res, errs))
    = errs ++ List.flat_map (cell_errors raw bucket p) M.
Proof.
  induction M as [|m M IH]; intros res errs.
  - cbn. rewrite app_nil_r. reflexivity.
  - rewrite PassFacts.resolveModes_cons, IH.
    rewrite resolveRef_errors_prefix. cbn [errors List.flat_map].
    rewrite <- app_assoc. reflexivity.
Qed.

Lemma pass_step_errors raw bucket acc p :
  snd (pass_step raw bucket acc p) = snd acc ++ row_errors raw bucket p.
Proof.
  unfold pass_step, row_errors.
  destruct (Obj.get p (bucket_get raw bucket)) as [entry|].
  - apply resolveModes_errors.
  - rewrite app_nil_r. reflexivity.
Qed.

Lemma pass_fold_errors raw bucket L :
  forall acc,
    snd (fold_left (pass_step raw bucket) L acc)
    = snd acc ++ List.flat_map (row_errors raw bucket) L.
Proof.
  induction L as [|p L IH]; intros acc; cbn [fold_left List.flat_map].
  - rewrite app_nil_r. reflexivity.
  - rewrite IH, pass_step_errors, <- app_assoc. reflexivity.
Qed.

Lemma resolveBucket_errors raw bucket errs :
  snd (resolveBucket raw bucket errs) = errs ++ bucket_errors raw bucket.
Proof. unfold resolveBucket. apply pass_fold_errors. Qed.

Lemma buildTokensResolved_errors raw :
  snd (buildTokensResolved raw)
  = bucket_errors raw color ++ bucket_errors raw spacing
    ++ bucket_errors raw radius.
Proof.
  rewrite ErrorFacts.buildTokensResolved_eq. cbn [snd].
  rewrite !resolveBucket_errors. cbn [app]. rewrite app_assoc. reflexivity.
Qed.

(** The cell the pass writes. *)
Lemma resolved_cell_eq raw b p m :
  resolved_cell (fst (buildTokensResolved raw)) b p m
  = match Obj.get p (bucket_get raw b) with
    | Some entry =>
        if decide (m ∈ Obj.keys entry) then Some (cell_of raw b p m) else None
    | None => None
    end.
Proof.
  unfold resolved_cell.
  destruct (ExportFacts.buildTokensResolved_bucket raw b) as [errs ->].
  destruct (Obj.get p (bucket_get raw b)) as [entry|] eqn:Hp.
  - destruct (PassFacts.resolveBucket_row raw b errs p entry Hp) as [row [-> Hrow]].
    cbn. apply Hrow.
  - rewrite (PassFacts.resolveBucket_absent raw b errs p Hp). reflexivity.
Qed.

Lemma raw_cell_mode raw b p m tv :
  raw_cell raw b p m = Some tv ->
  exists entry,
    Obj.get p (bucket_get raw b) = Some entry
    /\ Obj.get m entry = Some tv
    /\ m ∈ Obj.keys entry
    /\ getValueForMode entry m = Some tv.
Proof.
  unfold raw_cell. destruct (Obj.get p (bucket_get raw b)) as [entry|];
    [|discriminate].
  cbn. intros H. exists entry. split; [reflexivity|]. split; [exact H|].
  split; [apply ObjFacts.get_Some_keys; eauto|].
  apply ResolveFacts.getValueForMode_exact, H.
Qed.

Lemma resolved_cell_of raw b p m tv :
  raw_cell raw b p m = Some tv ->
  resolved_cell (fst (buildTokensResolved raw)) b p m = Some (cell_of raw b p m).
Proof.
  intros H. destruct (raw_cell_mode raw b p m tv H) as (entry & Hp & _ & Hk & _).
  rewrite resolved_cell_eq, Hp. rewrite decide_True by exact Hk. reflexivity.
Qed.

Lemma cell_errors_in_bucket raw b p m tv e :
  raw_cell raw b p m = Some tv ->
  e ∈ cell_errors raw b p m -> e ∈ bucket_errors raw b.
Proof.
  intros H He. destruct (raw_cell_mode raw b p m tv H) as (entry & Hp & _ & Hk & _).
  unfold bucket_errors. apply list_elem_of_In, List.in_flat_map.
  exists p. split.
  - apply list_elem_of_In, PassFacts.elem_of_sorted_keys.
    apply ObjFacts.get_Some_keys. eauto.
  - unfold row_errors. rewrite Hp. apply List.in_flat_map. exists m. split.
    + apply list_elem_of_In, PassFacts.elem_of_sorted_keys, Hk.
    + apply list_elem_of_In, He.
Qed.

Lemma bucket_errors_in_all raw b e :
  e ∈ bucket_errors raw b -> e ∈ snd (buildTokensResolved raw).
Proof.
  intros H. rewrite buildTokensResolved_errors.
  destruct b; set_solver.
Qed.

(** In tables whose cells have the shape of their bucket, the resolver
    returns a colour in the colour bucket and a number elsewhere. *)
Lemma resolveRef_typed ids raw b m p st :
  raw_typed ids raw ->
  match fst (resolveRef p m raw b st) with
  | Some (RRgba _) => b = color
  | Some (RValue _) => b <> color
  | None => True
  end.
Proof.
  intros Hraw.
  apply (ResolverMore.resolveRef_outcome_ind raw b m
           (fun _ _ r _ =>
              match r with
              | Some (RRgba _) => b = color
              | Some (RValue _) => b <> color
              | None => True
              end)); clear p st; try (intros; exact I).
  - intros p st entry rgba hex _ Hp Hv.
    destruct (ResolverMore.getValueForMode_stored _ _ _ Hv) as [k Hk].
    specialize (Hraw b p entry k _ Hp Hk).
    destruct rgba as [[[r g] bl] a]. apply Hraw.
  - intros p st entry n _ Hp Hv.
    destruct (ResolverMore.getValueForMode_stored _ _ _ Hv) as [k Hk].
    apply (Hraw b p entry k _ Hp Hk).
  - intros p st entry q target r new _ _ _ _ st1 st2 _ H. exact H.
Qed.

Lemma cell_of_null ids raw b p m :
  raw_typed ids raw ->
  cell_of raw b p m = CellNull
  <-> fst (resolveRef p m raw b (mkRState ∅ [] [])) = None.
Proof.
  intros Hraw. unfold cell_of.
  pose proof (resolveRef_typed ids raw b m p (mkRState ∅ [] []) Hraw) as Ht.
  destruct (fst (resolveRef p m raw b (mkRState ∅ [] []))) as [[rgba|n]|].
  - subst b. destruct rgba as [[[r g] bl] a]. cbn. split; discriminate.
  - destruct b; [contradiction| |]; cbn; split; discriminate.
  - destruct b; cbn; tauto.
Qed.

Lemma cell_errors_spec raw b p m :
  match fst (resolveRef p m raw b (mkRState ∅ [] [])) with
  | Some _ => cell_errors raw b p m = []
  | None =>
      (cell_errors raw b p m = [] /\ Obj.proto_member m = true)
      \/ exists e suffix,
           cell_errors raw b p m = [e]
           /\ re_requestedModeName e = m
           /\ re_reason e ∈ graph_reasons
           /\ re_chain e = p :: suffix
           /\ re_tokenPath e ∈ p :: suffix
  end.
Proof.
  unfold cell_errors.
  destruct (ResolverMore.resolveRef_reports raw b m p (mkRState ∅ [] []))
    as [new [Hst Hr]].
  rewrite Hst. cbn [errors app chain] in *.
  destruct (fst (resolveRef p m raw b (mkRState ∅ [] []))); [exact Hr|].
  destruct Hr as [[-> Hm]|(e & -> & suffix & H)].
  - left. split; [reflexivity|exact Hm].
  - right. exists e, suffix. split; [reflexivity|]. exact H.
Qed.

(** A literal cell resolves to itself. *)
Lemma cell_of_color ids raw p m r g bl a hex :
  raw_typed ids raw ->
  raw_cell raw color p m = Some (TVColor (r, g, bl, a) hex) ->
  cell_of raw color p m = CellHex hex /\ cell_errors raw color p m = [].
Proof.
  intros Hraw H. destruct (raw_cell_mode _ _ _ _ _ H) as (entry & Hp & Hm & _ & Hv).
  destruct (Hraw color p entry m _ Hp Hm) as [_ ->].
  unfold cell_of, cell_errors. rewrite ResolverMore.resolveRef_unfold. cbn zeta.
  rewrite decide_False by (cbn; set_solver). rewrite Hp, Hv. split; reflexivity.
Qed.

Lemma cell_of_number raw b p m n :
  b <> color ->
  raw_cell raw b p m = Some (TVNumber n) ->
  cell_of raw b p m = CellObj (RValue n) /\ cell_errors raw b p m = [].
Proof.
  intros Hb H. destruct (raw_cell_mode _ _ _ _ _ H) as (entry & Hp & Hm & _ & Hv).
  unfold cell_of, cell_errors. rewrite ResolverMore.resolveRef_unfold. cbn zeta.
  rewrite decide_False by (cbn; set_solver). rewrite Hp, Hv.
  destruct b; [contradiction| |]; split; reflexivity.
Qed.

Lemma cell_of_alias raw b p m q :
  raw_cell raw b p m = Some (TVRef q) ->
  cell_of raw b p m = cell_of raw b q m.
Proof.
  intros H. destruct (raw_cell_mode _ _ _ _ _ H) as (entry & Hp & _ & _ & Hv).
  unfold cell_of. f_equal.
  apply (ResolverMore.resolveRef_alias raw b m p q entry _ Hp Hv).
  cbn. set_solver.
Qed.

(** ** Snapshots without aliases *)

Lemma buildTokenValueRaw_no_alias ids value ty tv :
  buildTokenValueRaw value false ids ty = Some tv -> is_ref tv = false.
Proof.
  unfold buildTokenValueRaw. destruct value; try discriminate.
  - case_decide; [|discriminate]. intros Htv. injection Htv as <-. reflexivity.
  - case_decide; [|discriminate]. intros Htv. injection Htv as <-. reflexivity.
Qed.

Lemma buildEntry_no_ref col ids v :
  (forall k mv, Obj.get k (valuesPerMode v) = Some mv -> isAlias mv = false) ->
  Forall (fun kv => is_ref (snd kv) = false) (buildEntry col ids v).
Proof.
  intros Hv. unfold buildEntry.
  assert (H : forall L (entry : RawEntry),
    Forall (fun kv => is_ref (snd kv) = false) entry ->
    Forall (fun kv => is_ref (snd kv) = false)
      (fold_left
         (fun entry modeId =>
            match Obj.get modeId (valuesPerMode v) with
            | Some mv =>
                let modeName := default modeId (modeIdToName col !! modeId) in
                let outputKey := getOutputModeKey col modeName in
                match buildTokenValueRaw (value mv) (isAlias mv) ids
                        (resolvedType v) with
                | Some tv => Obj.assign outputKey tv entry
                | None => entry
                end
            | None => entry
            end) L entry)).
  { induction L as [|k L IH]; intros entry He; cbn [fold_left]; [exact He|].
    apply IH. destruct (Obj.get k (valuesPerMode v)) as [mv|] eqn:Hk; [|exact He].
    cbn zeta.
    destruct (buildTokenValueRaw (value mv) (isAlias mv) ids (resolvedType v))
      as [tv|] eqn:Htv; [|exact He].
    unfold Obj.assign. case_decide; [exact He|].
    apply (OrderFacts.Forall_values_set (fun tv => is_ref tv = false));
      [|exact He].
    rewrite (Hv k mv Hk) in Htv. eapply buildTokenValueRaw_no_alias, Htv. }
  apply H. constructor.
Qed.

Lemma buildTokensRaw_no_ref cols :
  alias_free cols ->
  forall b p m tv,
    raw_cell (tokensRaw (buildTokensRaw cols)) b p m = Some tv ->
    is_ref tv = false.
Proof.
  intros Hfree.
  apply (BuilderMore.buildTokensRaw_ind
           (fun st => forall b p m tv,
              raw_cell (tokensRaw st) b p m = Some tv -> is_ref tv = false)).
  - intros b p m tv H. destruct b; discriminate H.
  - intros col v st Hin Hst b p m tv. unfold processVariable.
    destruct (routeBucket col v) as [b0|]; [|apply Hst].
    destruct (BuilderMore.claimAndAdd_cases b0 col (buildVarIdToTokenPath cols) v
                (default "undefined" (buildVarIdToTokenPath cols !! var_id v)) st)
      as [(c & _ & _ & ->)|[(c & _ & _ & ->)|[(_ & _ & ->)|(_ & _ & ->)]]];
      cbn [tokensRaw]; try apply Hst.
    + unfold raw_cell. rewrite BuilderMore.bucket_get_set_cases.
      case_decide as Hb; [|apply Hst]. subst b0.
      rewrite ObjFacts.get_set. case_decide as Hp; [|apply Hst].
      cbn. intros H.
      apply (BuilderMore.Forall_values_get (fun tv => is_ref tv = false)
               _ m tv (buildEntry_no_ref col _ v
                         (fun k mv => Hfree col v k mv Hin)) H).
    + unfold raw_cell. rewrite BuilderMore.bucket_get_set_cases.
      case_decide as Hb; [|apply Hst]. subst b0.
      rewrite ObjFacts.get_set. case_decide as Hp; [|apply Hst].
      cbn. intros H.
      apply (BuilderMore.Forall_values_get (fun tv => is_ref tv = false)
               _ m tv (buildEntry_no_ref col _ v
                         (fun k mv => Hfree col v k mv Hin)) H).
Qed.

Lemma flat_map_nil {A B} (f : A -> list B) l :
  (forall x, x ∈ l -> f x = []) -> List.flat_map f l = [].
Proof.
  induction l as [|x l IH]; intros H; [reflexivity|]. cbn.
  rewrite (H x) by (apply elem_of_cons; left; reflexivity).
  apply IH. intros y Hy. apply H. apply elem_of_cons. right. exact Hy.
Qed.

(** When every cell resolves to a value without an error, the pass
    reports nothing and writes no null. *)
Lemma clean_cells raw :
  (forall b p m tv,
     raw_cell raw b p m = Some tv ->
     cell_of raw b p m <> CellNull /\ cell_errors raw b p m = []) ->
  snd (buildTokensResolved raw) = []
  /\ forall b p m c,
       resolved_cell (fst (buildTokensResolved raw)) b p m = Some c ->
       c <> CellNull.
Proof.
  intros Hcell. split.
  - rewrite buildTokensResolved_errors.
    assert (Hb : forall b, bucket_errors raw b = []).
    { intros b. unfold bucket_errors. apply flat_map_nil.
      intros p Hp. unfold row_errors.
      destruct (Obj.get p (bucket_get raw b)) as [entry|] eqn:Hpe; [|reflexivity].
      apply flat_map_nil. intros m Hm.
      apply PassFacts.elem_of_sorted_keys, ObjFacts.get_Some_keys in Hm
        as [tv Htv].
      apply (Hcell b p m tv). unfold raw_cell. rewrite Hpe. exact Htv. }
    rewrite !Hb. reflexivity.
  - intros b p m c Hc. rewrite resolved_cell_eq in Hc.
    destruct (Obj.get p (bucket_get raw b)) as [entry|] eqn:Hpe; [|discriminate].
    case_decide as Hm; [|discriminate]. injection Hc as <-.
    apply ObjFacts.get_Some_keys in Hm as [tv Htv].
    apply (Hcell b p m tv). unfold raw_cell. rewrite Hpe. exact Htv.
Qed.

(** ** Snapshots whose names meet no inherited member *)

Lemma buildEntry_keys col ids v k :
  k ∈ Obj.keys (buildEntry col ids v) -> k ∈ outputKeys col v.
Proof.
  unfold buildEntry, outputKeys.
  assert (H : forall L (entry : RawEntry) (acc : list string),
    (forall k, k ∈ Obj.keys entry -> k ∈ acc) ->
    forall k,
      k ∈ Obj.keys
            (fold_left
               (fun entry modeId =>
                  match Obj.get modeId (valuesPerMode v) with
                  | Some mv =>
                      let modeName := default modeId (modeIdToName col !! modeId) in
                      let outputKey := getOutputModeKey col modeName in
                      match buildTokenValueRaw (value mv) (isAlias mv) ids
                              (resolvedType v) with
                      | Some tv => Obj.assign outputKey tv entry
                      | None => entry
                      end
                  | None => entry
                  end) L entry) ->
      k ∈ acc
          ++ List.map
               (fun modeId =>
                  getOutputModeKey col (default modeId (modeIdToName col !! modeId)))
               L).
  { induction L as [|x L IH]; intros entry acc He k0 Hk; cbn [fold_left] in Hk.
    - cbn. rewrite app_nil_r. apply He, Hk.
    - cbn [List.map].
      change (acc ++ ?y :: ?l) with (acc ++ [y] ++ l). rewrite app_assoc.
      eapply IH; [|exact Hk].
      intros k1 Hk1. apply elem_of_app.
      destruct (Obj.get x (valuesPerMode v)) as [mv|]; [|left; apply He, Hk1].
      cbn zeta in Hk1.
      destruct (buildTokenValueRaw (value mv) (isAlias mv) ids (resolvedType v))
        as [tv|]; [|left; apply He, Hk1].
      unfold Obj.assign in Hk1. case_decide; [left; apply He, Hk1|].
      apply ObjFacts.elem_of_keys_set in Hk1 as [->|Hk1].
      + right. apply list_elem_of_singleton. reflexivity.
      + left. apply He, Hk1. }
  intros Hk. apply (H _ [] [] (fun k0 H0 => H0) k Hk).
Qed.

Lemma plain_names_mode cols col v k :
  plain_names cols = true ->
  in_snapshot cols col v -> k ∈ outputKeys col v ->
  Obj.proto_member k = false.
Proof.
  unfold plain_names. intros H [Hc Hv] Hk.
  rewrite forallb_forall in H.
  specialize (H col (proj1 (list_elem_of_In _ _) Hc)).
  rewrite forallb_forall in H.
  specialize (H v (proj1 (list_elem_of_In _ _) Hv)).
  apply andb_true_iff in H as [_ H].
  rewrite forallb_forall in H.
  specialize (H k (proj1 (list_elem_of_In _ _) Hk)).
  apply negb_true_iff in H. exact H.
Qed.

(** In such a snapshot no mode key of the raw tables names an inherited
    member. *)
Lemma plain_names_raw_mode cols b p entry m :
  plain_names cols = true ->
  Obj.get p (bucket_get (tokensRaw (buildTokensRaw cols)) b) = Some entry ->
  m ∈ Obj.keys entry ->
  Obj.proto_member m = false.
Proof.
  intros Hplain Hp Hm.
  destruct (inv_entry _ _ _ (BuilderMore.buildTokensRaw_inv cols) b p entry Hp)
    as (col & v & c & Hin & _ & _ & _ & _ & ->).
  apply BuilderMore.in_snapshot_variables in Hin.
  apply (plain_names_mode cols col v m Hplain Hin).
  apply buildEntry_keys in Hm. exact Hm.
Qed.

End PassMore.

(** * Further properties of the export *)

Ltac list_member :=
  repeat first [apply list_elem_of_here | apply list_elem_of_further].

(** X12 (buildExportModel, step 1, code.ts 288-293).  The lookup from
    variable identifiers to token paths covers the snapshot: the identifier
    of every variable of the snapshot has a token path, and it is the
    normalized name of a snapshot variable with that identifier.  So the
    read [varIdToTokenPath[v.id]] of step 2 is never [undefined]. *)
Theorem varIdToTokenPath_covers_snapshot
    (cols : list RawCollection) (col : RawCollection) (v : RawVariable) :
  in_snapshot cols col v ->
  exists col' w,
    in_snapshot cols col' w
    /\ var_id w = var_id v
    /\ buildVarIdToTokenPath cols !! var_id v
       = Some (nameToTokenPath (var_name w)).
Proof.
  intros Hin. destruct (BuilderMore.ids_total cols col v Hin) as [p Hp].
  destruct (BuilderMore.ids_lookup cols _ _ Hp) as (col' & w & Hw & Hid & ->).
  exists col', w. split; [exact Hw|]. split; [exact Hid|exact Hp].
Qed.

Lemma varIdToTokenPath_covers_snapshot_witness :
  exists col' w,
    in_snapshot collision_scenario col' w
    /\ var_id w = "V:2"
    /\ buildVarIdToTokenPath collision_scenario !! "V:2"
       = Some (nameToTokenPath (var_name w)).
Proof.
  apply (varIdToTokenPath_covers_snapshot collision_scenario product_collection
           surface_product).
  split; list_member.
Defined.

(** X13 (buildExportModel, step 2, code.ts 345-404; buildTokenValueRaw,
    code.ts 155-179; getAliasVariableId, code.ts 62-73).  Every cell of the raw tables has the shape of its
    bucket: a colour only in the colour bucket, with the hex string that
    [rgbaToHex] gives for its RGBA; a number only in the spacing and radius
    buckets; a reference, in any bucket, to a non-empty token path held by
    the lookup. *)
Theorem tokensRaw_cell_shape
    (cols : list RawCollection) (b : Bucket) (p m : string)
    (tv : TokenValueRaw) :
  raw_cell (tokensRaw (buildTokensRaw cols)) b p m = Some tv ->
  match tv with
  | TVColor (r, g, bl, a) hex => b = color /\ hex = rgbaToHex r g bl a
  | TVNumber _ => b <> color
  | TVRef q => q <> "" /\ exists id, buildVarIdToTokenPath cols !! id = Some q
  end.
Proof.
  intros H. destruct (PassMore.raw_cell_mode _ _ _ _ _ H) as (entry & Hp & Hm & _).
  apply (BuilderMore.buildTokensRaw_typed cols b p entry m tv Hp Hm).
Qed.

Lemma tokensRaw_cell_shape_witness :
  "accent.primary.100" <> ""
  /\ exists id,
       buildVarIdToTokenPath scenario !! id = Some "accent.primary.100".
Proof.
  apply (tokensRaw_cell_shape scenario color "button.main" "Light"
           (TVRef "accent.primary.100")).
  vm_compute. reflexivity.
Defined.

(** X14 (buildExportModel, step 2, code.ts 345-404).  Every entry of the
    raw tables comes from one variable of the snapshot: a variable that
    routes to the bucket, whose token path in the lookup is the key of the
    entry and whose identifier is that of the registered first claimant;
    the entry is the one built from the modes of that variable, and its key
    is a normalized token path. *)
Theorem tokensRaw_entry_provenance
    (cols : list RawCollection) (b : Bucket) (p : string) (entry : RawEntry) :
  Obj.get p (bucket_get (tokensRaw (buildTokensRaw cols)) b) = Some entry ->
  exists col v c,
    in_snapshot cols col v
    /\ routeBucket col v = Some b
    /\ buildVarIdToTokenPath cols !! var_id v = Some p
    /\ bucket_get (tokenPathToFirst (buildTokensRaw cols)) b !! p = Some c
    /\ fc_varId c = var_id v
    /\ entry = buildEntry col (buildVarIdToTokenPath cols) v
    /\ nameToTokenPath p = p.
Proof.
  intros H.
  destruct (inv_entry _ _ _ (BuilderMore.buildTokensRaw_inv cols)
              b p entry H) as (col & v & c & Hin & Hc & Hid & Hr & Hp & He).
  exists col, v, c. apply BuilderMore.in_snapshot_variables in Hin.
  assert (Hfix : nameToTokenPath p = p).
  { destruct (BuilderMore.ids_lookup cols _ _ Hp) as (_ & w & _ & _ & ->).
    apply NormalizeFacts.nameToTokenPath_fixed,
      NormalizeFacts.nameToTokenPath_clean. }
  tauto.
Qed.

Lemma tokensRaw_entry_provenance_witness :
  exists col v c,
    in_snapshot collision_scenario col v
    /\ routeBucket col v = Some color
    /\ buildVarIdToTokenPath collision_scenario !! var_id v = Some "surface.1"
    /\ bucket_get (tokenPathToFirst (buildTokensRaw collision_scenario)) color
         !! "surface.1" = Some c
    /\ fc_varId c = var_id v
    /\ [("default", TVColor (1, 1, 1, 1)%Q "#ffffff")]
       = buildEntry col (buildVarIdToTokenPath collision_scenario) v
    /\ nameToTokenPath "surface.1" = "surface.1".
Proof.
  apply (tokensRaw_entry_provenance collision_scenario color "surface.1").
  vm_compute. reflexivity.
Defined.

(** X15 (checkCollisionAndAdd, code.ts 317-343).  Every duplicate error of
    step 2 names, in its fields [new...], a variable of the snapshot that
    routes to the bucket of the error and has its token path in the lookup.
    It arises in one of two ways.  Either the token path is held by another
    variable of the snapshot, with a different identifier, the same bucket
    and the same token path: that variable is the registered first
    claimant, its entry is in the raw table, and the fields [existing...]
    are its identifier, name and collection name.  Or the token path names
    a member of [Object.prototype]: then it has neither a claimant nor an
    entry, and the three fields [existing...] are [undefined]. *)
Theorem duplicate_errors_sound (cols : list RawCollection) (d : DuplicateError) :
  d ∈ duplicateErrors (buildTokensRaw cols) ->
  exists colN vN,
    in_snapshot cols colN vN
    /\ routeBucket colN vN = Some (de_bucket d)
    /\ buildVarIdToTokenPath cols !! var_id vN = Some (de_tokenPath d)
    /\ newVarId d = var_id vN
    /\ newOriginalName d = var_name vN
    /\ newCollectionName d = col_name colN
    /\ ((exists colE vE,
           in_snapshot cols colE vE
           /\ routeBucket colE vE = Some (de_bucket d)
           /\ buildVarIdToTokenPath cols !! var_id vE = Some (de_tokenPath d)
           /\ var_id vE <> var_id vN
           /\ bucket_get (tokenPathToFirst (buildTokensRaw cols)) (de_bucket d)
                !! de_tokenPath d = Some (claim_of colE vE)
           /\ is_Some (Obj.get (de_tokenPath d)
                         (bucket_get (tokensRaw (buildTokensRaw cols))
                            (de_bucket d)))
           /\ d = duplicate_of (de_bucket d) (de_tokenPath d)
                    (claim_of colE vE) colN vN)
        \/ (Obj.proto_member (de_tokenPath d) = true
            /\ bucket_get (tokenPathToFirst (buildTokensRaw cols)) (de_bucket d)
                 !! de_tokenPath d = None
            /\ Obj.get (de_tokenPath d)
                 (bucket_get (tokensRaw (buildTokensRaw cols)) (de_bucket d))
               = None
            /\ d = inherited_duplicate_of (de_bucket d) (de_tokenPath d)
                     colN vN)).
Proof.
  intros Hd. pose proof (BuilderMore.buildTokensRaw_inv cols) as Inv.
  destruct (inv_dup _ _ _ Inv d Hd) as (colN & vN & HinN & HrN & HpN & H).
  exists colN, vN. apply BuilderMore.in_snapshot_variables in HinN.
  split; [exact HinN|]. split; [exact HrN|]. split; [exact HpN|].
  assert (Hnew : newVarId d = var_id vN /\ newOriginalName d = var_name vN
                 /\ newCollectionName d = col_name colN).
  { destruct H as [(c & _ & _ & ->)|[_ ->]]; repeat split. }
  destruct Hnew as (H1 & H2 & H3).
  split; [exact H1|]. split; [exact H2|]. split; [exact H3|].
  destruct H as [(c & Hc & Hne & Heq)|[Hm Heq]].
  - left. destruct (inv_claim _ _ _ Inv _ _ _ Hc)
      as (colE & vE & HinE & -> & HrE & HpE).
    exists colE, vE. apply BuilderMore.in_snapshot_variables in HinE.
    assert (Hk : is_Some (Obj.get (de_tokenPath d)
                   (bucket_get (tokensRaw (buildTokensRaw cols)) (de_bucket d)))).
    { apply (inv_keys _ _ _ Inv). rewrite Hc. eauto. }
    cbn [claim_of fc_varId] in Hne. tauto.
  - right.
    assert (Hnone : bucket_get (tokenPathToFirst (buildTokensRaw cols))
                      (de_bucket d) !! de_tokenPath d = None).
    { destruct (bucket_get (tokenPathToFirst (buildTokensRaw cols))
                  (de_bucket d) !! de_tokenPath d) as [c|] eqn:Hc; [|reflexivity].
      rewrite (inv_plain _ _ _ Inv (de_bucket d) (de_tokenPath d)) in Hm;
        [discriminate|]. rewrite Hc. eauto. }
    split; [exact Hm|]. split; [exact Hnone|]. split; [|exact Heq].
    destruct (Obj.get (de_tokenPath d)
                (bucket_get (tokensRaw (buildTokensRaw cols)) (de_bucket d)))
      as [entry|] eqn:He; [|reflexivity].
    destruct (proj1 (inv_keys _ _ _ Inv (de_bucket d) (de_tokenPath d)))
      as [c Hc]; [rewrite He; eauto|].
    rewrite Hc in Hnone. discriminate Hnone.
Qed.

Lemma duplicate_errors_sound_witness :
  let d := mkDuplicateError "constructor" color None "V:1" None "Constructor"
             None "Theme" duplicate_suggestion in
  d ∈ duplicateErrors (buildTokensRaw constructor_scenario)
  /\ exists colN vN,
       in_snapshot constructor_scenario colN vN
       /\ var_id vN = "V:1"
       /\ Obj.proto_member "constructor" = true
       /\ bucket_get (tokenPathToFirst (buildTokensRaw constructor_scenario))
            color !! "constructor" = None
       /\ Obj.get "constructor"
            (bucket_get (tokensRaw (buildTokensRaw constructor_scenario)) color)
          = None.
Proof.
  intros d.
  assert (Hd : d ∈ duplicateErrors (buildTokensRaw constructor_scenario))
    by (vm_compute; list_member).
  split; [exact Hd|].
  destruct (duplicate_errors_sound constructor_scenario d Hd)
    as (colN & vN & Hin & _ & _ & Hid & _ & _ & H).
  exists colN, vN. split; [exact Hin|]. split; [symmetry; exact Hid|].
  destruct H as [(colE & vE & _ & _ & _ & _ & _ & _ & Heq)|H].
  - discriminate Heq.
  - cbn [de_tokenPath de_bucket d] in H. tauto.
Defined.

(** The genuine collision of the collision scenario. *)
Example duplicate_errors_collision_scenario :
  duplicateErrors (buildTokensRaw collision_scenario)
  = [duplicate_of color "surface.1" (claim_of brand_collection surface_brand)
       product_collection surface_product].
Proof. vm_compute. reflexivity. Qed.

(** X16 (buildExportModel, step 2, code.ts 345-404; checkCollisionAndAdd,
    code.ts 317-343).  No routed variable is lost without a trace.  For a
    variable of the snapshot that routes to a bucket and whose token path
    names no member of [Object.prototype], the token path has an entry in
    that bucket and a registered first claimant, and either the claimant
    has the identifier of the variable or the error list holds the
    duplicate error that names the variable against that claimant.  A
    variable whose token path names such a member ("constructor",
    "__proto__") never gets an entry or a claim: the error list holds a
    duplicate error for it that names no first claimant. *)
Theorem routed_variable_claims_or_is_reported
    (cols : list RawCollection) (col : RawCollection) (v : RawVariable)
    (b : Bucket) :
  in_snapshot cols col v ->
  routeBucket col v = Some b ->
  exists p,
    buildVarIdToTokenPath cols !! var_id v = Some p
    /\ if Obj.proto_member p
       then
         bucket_get (tokenPathToFirst (buildTokensRaw cols)) b !! p = None
         /\ Obj.get p (bucket_get (tokensRaw (buildTokensRaw cols)) b) = None
         /\ inherited_duplicate_of b p col v
            ∈ duplicateErrors (buildTokensRaw cols)
       else
         exists c,
           bucket_get (tokenPathToFirst (buildTokensRaw cols)) b !! p = Some c
           /\ is_Some (Obj.get p (bucket_get (tokensRaw (buildTokensRaw cols)) b))
           /\ (fc_varId c = var_id v
               \/ duplicate_of b p c col v
                  ∈ duplicateErrors (buildTokensRaw cols)).
Proof.
  intros Hin Hr. pose proof (BuilderMore.buildTokensRaw_inv cols) as Inv.
  apply BuilderMore.in_snapshot_variables in Hin.
  destruct (inv_done _ _ _ Inv col v b Hin Hr) as (p & Hp & H).
  exists p. split; [exact Hp|].
  destruct (Obj.proto_member p) eqn:Hm.
  - assert (Hnone : bucket_get (tokenPathToFirst (buildTokensRaw cols)) b !! p
                    = None).
    { destruct (bucket_get (tokenPathToFirst (buildTokensRaw cols)) b !! p)
        as [c|] eqn:Hc; [|reflexivity].
      rewrite (inv_plain _ _ _ Inv b p) in Hm; [discriminate|].
      rewrite Hc. eauto. }
    split; [exact Hnone|]. split.
    + destruct (Obj.get p (bucket_get (tokensRaw (buildTokensRaw cols)) b))
        as [entry|] eqn:He; [|reflexivity].
      destruct (proj1 (inv_keys _ _ _ Inv b p)) as [c Hc]; [rewrite He; eauto|].
      rewrite Hc in Hnone. discriminate Hnone.
    + destruct H as [(c & Hc & _)|[_ H]]; [|exact H].
      rewrite Hc in Hnone. discriminate Hnone.
  - destruct H as [(c & Hc & H)|[Hm' _]]; [|discriminate Hm'].
    exists c. split; [exact Hc|]. split; [|exact H].
    apply (inv_keys _ _ _ Inv). rewrite Hc. eauto.
Qed.

Lemma routed_variable_claims_or_is_reported_witness :
  (exists c,
     bucket_get (tokenPathToFirst (buildTokensRaw collision_scenario)) color
       !! "surface.1" = Some c
     /\ is_Some (Obj.get "surface.1"
                   (bucket_get (tokensRaw (buildTokensRaw collision_scenario))
                      color))
     /\ (fc_varId c = "V:2"
         \/ duplicate_of color "surface.1" c product_collection surface_product
            ∈ duplicateErrors (buildTokensRaw collision_scenario)))
  /\ inherited_duplicate_of color "constructor"
       (mkCollection "C:1" "Theme" [mkMode "1:0" "Light"]
          [constructor_variable])
       constructor_variable
     ∈ duplicateErrors (buildTokensRaw constructor_scenario).
Proof.
  split.
  - destruct (routed_variable_claims_or_is_reported collision_scenario
                product_collection surface_product color)
      as (p & Hp & H); [split; list_member|reflexivity|].
    vm_compute in Hp. injection Hp as <-. exact H.
  - destruct (routed_variable_claims_or_is_reported constructor_scenario
                (mkCollection "C:1" "Theme" [mkMode "1:0" "Light"]
                   [constructor_variable])
                constructor_variable color)
      as (p & Hp & H); [split; list_member|reflexivity|].
    vm_compute in Hp. injection Hp as <-. apply H.
Defined.

(** X17 (buildExportModel, steps 4 and 5, code.ts 407-456).  The [errors]
    array of the export is fixed by the raw tables: the duplicate errors
    first, in the order in which step 2 met them, then the resolution
    errors bucket by bucket (colour, spacing, radius), token paths
    ascending, mode names ascending, where the errors of a cell are those
    of resolving that cell alone from a clean state. *)
Theorem export_errors_order
    (localeCompare : string -> string -> Z) (now : string)
    (cols : list RawCollection) :
  let raw := tokensRaw (buildTokensRaw cols) in
  export_errors (buildExportModel localeCompare now cols)
  = List.map DuplicateError_json (duplicateErrors (buildTokensRaw cols))
    ++ List.map ResolutionError_json
         (bucket_errors raw color ++ bucket_errors raw spacing
          ++ bucket_errors raw radius).
Proof.
  intros raw. rewrite ErrorFacts.export_errors_eq.
  rewrite PassMore.buildTokensResolved_errors. reflexivity.
Qed.

(** X18 (buildExportModel, step 4, code.ts 407-438; resolveRef, code.ts
    193-282).  In the resolved tables of the export of a snapshot whose
    token paths and mode keys name no member of [Object.prototype], a cell
    is null exactly when resolving it reported an error: a null cell has
    exactly one error, which is in the error list, names the mode of the
    cell and has a chain that starts at the token path of the cell; a cell
    with a value has none. *)
Theorem resolved_cell_null_iff_error
    (cols : list RawCollection) (b : Bucket) (p m : string) (c : ResolvedCell) :
  plain_names cols = true ->
  let raw := tokensRaw (buildTokensRaw cols) in
  resolved_cell (fst (buildTokensResolved raw)) b p m = Some c ->
  match c with
  | CellNull =>
      exists e suffix,
        cell_errors raw b p m = [e]
        /\ e ∈ snd (buildTokensResolved raw)
        /\ re_requestedModeName e = m
        /\ re_chain e = p :: suffix
        /\ re_reason e ∈ graph_reasons
  | _ => cell_errors raw b p m = []
  end.
Proof.
  intros Hplain raw Hc. rewrite PassMore.resolved_cell_eq in Hc.
  destruct (Obj.get p (bucket_get raw b)) as [entry|] eqn:Hp; [|discriminate].
  case_decide as Hm; [|discriminate]. injection Hc as <-.
  pose proof (PassMore.plain_names_raw_mode cols b p entry m Hplain Hp Hm)
    as Hmode.
  assert (Hraw : exists tv, raw_cell raw b p m = Some tv).
  { unfold raw_cell. rewrite Hp. cbn. apply ObjFacts.get_Some_keys, Hm. }
  destruct Hraw as [tv Htv].
  pose proof (PassMore.cell_of_null _ raw b p m
                (BuilderMore.buildTokensRaw_typed cols)) as Hnull.
  pose proof (PassMore.cell_errors_spec raw b p m) as Hspec.
  destruct (fst (resolveRef p m raw b (mkRState ∅ [] []))) as [r|] eqn:Hr.
  - destruct (cell_of raw b p m) eqn:Hcell; try exact Hspec.
    destruct Hnull as [Hnull _]. discriminate (Hnull eq_refl).
  - destruct Hnull as [_ Hnull]. rewrite (Hnull eq_refl).
    destruct Hspec as [[_ Hinh]|(e & suffix & He & Hmode' & Hreason & Hch & _)].
    { rewrite Hmode in Hinh. discriminate Hinh. }
    exists e, suffix. split; [exact He|]. split; [|tauto].
    apply (PassMore.bucket_errors_in_all raw b).
    apply (PassMore.cell_errors_in_bucket raw b p m tv e Htv).
    rewrite He. apply list_elem_of_singleton. reflexivity.
Qed.

Lemma resolved_cell_null_iff_error_witness :
  exists e suffix,
    cell_errors (tokensRaw (buildTokensRaw cycle_scenario)) color "loop.a" "Light"
    = [e]
    /\ e ∈ snd (buildTokensResolved (tokensRaw (buildTokensRaw cycle_scenario)))
    /\ re_requestedModeName e = "Light"
    /\ re_chain e = "loop.a" :: suffix
    /\ re_reason e ∈ graph_reasons.
Proof.
  apply (resolved_cell_null_iff_error cycle_scenario color "loop.a" "Light"
           CellNull).
  - reflexivity.
  - vm_compute. reflexivity.
Defined.

(** X19 (buildExportModel, step 4, code.ts 407-438).  Literal cells pass
    through the resolution unchanged: a colour cell of the raw table
    resolves to the hex string stored beside its RGBA, and a number cell
    resolves to its number. *)
Theorem literal_cells_pass_through
    (cols : list RawCollection) (b : Bucket) (p m : string)
    (tv : TokenValueRaw) :
  let raw := tokensRaw (buildTokensRaw cols) in
  raw_cell raw b p m = Some tv ->
  match tv with
  | TVColor _ hex =>
      resolved_cell (fst (buildTokensResolved raw)) b p m = Some (CellHex hex)
  | TVNumber n =>
      resolved_cell (fst (buildTokensResolved raw)) b p m
      = Some (CellObj (RValue n))
  | TVRef _ => True
  end.
Proof.
  intros raw H. rewrite (PassMore.resolved_cell_of raw b p m tv H).
  destruct (PassMore.raw_cell_mode _ _ _ _ _ H) as (entry & Hp & Hm & _).
  pose proof (BuilderMore.buildTokensRaw_typed cols b p entry m tv Hp Hm) as Ht.
  destruct tv as [[[[r g] bl] a] hex|n|q]; [| |exact I].
  - destruct Ht as [-> _]. f_equal.
    apply (PassMore.cell_of_color _ raw p m r g bl a hex
             (BuilderMore.buildTokensRaw_typed cols) H).
  - f_equal. apply (PassMore.cell_of_number raw b p m n Ht H).
Qed.

Lemma literal_cells_pass_through_witness :
  resolved_cell
    (fst (buildTokensResolved (tokensRaw (buildTokensRaw numeric_scenario))))
    spacing "9" "default"
  = Some (CellObj (RValue 9)).
Proof.
  apply (literal_cells_pass_through numeric_scenario spacing "9" "default"
           (TVNumber 9)).
  vm_compute. reflexivity.
Defined.

(** X20 (buildExportModel, step 4, code.ts 407-438; resolveRef, code.ts
    193-282).  In the resolved tables a cell that is a reference has the
    content of the cell of its target for the same mode, whenever the
    target has a cell for that mode: the same value or, when the target
    does not resolve, null. *)
Theorem alias_cell_copies_target
    (raw : TokensRaw) (b : Bucket) (p m q : string) :
  raw_cell raw b p m = Some (TVRef q) ->
  is_Some (raw_cell raw b q m) ->
  resolved_cell (fst (buildTokensResolved raw)) b p m
  = resolved_cell (fst (buildTokensResolved raw)) b q m.
Proof.
  intros Hp [tv Hq].
  rewrite (PassMore.resolved_cell_of raw b p m _ Hp).
  rewrite (PassMore.resolved_cell_of raw b q m _ Hq).
  f_equal. apply PassMore.cell_of_alias, Hp.
Qed.

Lemma alias_cell_copies_target_witness :
  resolved_cell (fst (buildTokensResolved acyclic_table)) color "b" "Light"
  = resolved_cell (fst (buildTokensResolved acyclic_table)) color "a" "Light"
  /\ resolved_cell (fst (buildTokensResolved acyclic_table)) color "a" "Light"
     = Some (CellHex "#000000").
Proof.
  split.
  - apply (alias_cell_copies_target acyclic_table color "b" "Light" "a").
    + reflexivity.
    + eexists. reflexivity.
  - vm_compute. reflexivity.
Defined.

(** X21 (buildExportModel, code.ts 285-457).  A snapshot in which no mode
    value is flagged as an alias resolves cleanly: the resolution reports
    no error and no cell of the resolved tables is null. *)
Theorem alias_free_snapshot_resolves
    (cols : list RawCollection) :
  alias_free cols ->
  let raw := tokensRaw (buildTokensRaw cols) in
  snd (buildTokensResolved raw) = []
  /\ forall b p m c,
       resolved_cell (fst (buildTokensResolved raw)) b p m = Some c ->
       c <> CellNull.
Proof.
  intros Hfree raw.
  assert (Hcell : forall b p m tv,
    raw_cell raw b p m = Some tv ->
    cell_of raw b p m <> CellNull /\ cell_errors raw b p m = []).
  { intros b p m tv H.
    pose proof (PassMore.buildTokensRaw_no_ref cols Hfree b p m tv H) as Hnr.
    destruct (PassMore.raw_cell_mode _ _ _ _ _ H) as (entry & Hp & Hm & _).
    pose proof (BuilderMore.buildTokensRaw_typed cols b p entry m tv Hp Hm) as Ht.
    destruct tv as [[[[r g] bl] a] hex|n|q]; [| |discriminate Hnr].
    - destruct Ht as [-> _].
      destruct (PassMore.cell_of_color _ raw p m r g bl a hex
                  (BuilderMore.buildTokensRaw_typed cols) H) as [-> ->].
      split; [discriminate|reflexivity].
    - destruct (PassMore.cell_of_number raw b p m n Ht H) as [-> ->].
      split; [discriminate|reflexivity]. }
  apply (PassMore.clean_cells raw Hcell).
Qed.

Lemma alias_free_snapshot_resolves_witness :
  snd (buildTokensResolved (tokensRaw (buildTokensRaw numeric_scenario))) = []
  /\ forall b p m c,
       resolved_cell
         (fst (buildTokensResolved (tokensRaw (buildTokensRaw numeric_scenario))))
         b p m = Some c ->
       c <> CellNull.
Proof.
  apply (alias_free_snapshot_resolves numeric_scenario).
  intros col v k mv [Hcol Hv] Hk.
  apply list_elem_of_singleton in Hcol. subst col.
  cbn [variables] in Hv.
  apply elem_of_cons in Hv as [->|Hv].
  - cbn in Hk. case_decide; [|discriminate]. injection Hk as <-. reflexivity.
  - apply list_elem_of_singleton in Hv. subst v.
    cbn in Hk. case_decide; [|discriminate]. injection Hk as <-. reflexivity.
Defined.

(** * Properties of the collector and of the platform detection *)

Module CollectorFacts.

Lemma collect_fold_get (values : jsobj VariableValue) L :
  forall out k,
    Obj.get k
      (fold_left
         (fun out k =>
            match Obj.get k values with
            | Some v => Obj.set k (mkModeValue v (isVariableAlias v)) out
            | None => out
            end) L out)
    = match Obj.get k values with
      | Some v =>
          if decide (k ∈ L) then Some (mkModeValue v (isVariableAlias v))
          else Obj.get k out
      | None => Obj.get k out
      end.
Proof.
  induction L as [|k0 L IH]; intros out k; cbn [fold_left].
  - destruct (Obj.get k values); [|reflexivity].
    rewrite decide_False by (apply not_elem_of_nil). reflexivity.
  - rewrite IH. destruct (Obj.get k values) as [v|] eqn:Hk.
    + destruct (decide (k ∈ L)) as [HL|HL].
      * rewrite decide_True by (apply elem_of_cons; right; exact HL). reflexivity.
      * destruct (decide (k0 = k)) as [->|Hne].
        -- rewrite decide_True by (apply elem_of_cons; left; reflexivity).
           rewrite Hk. apply ObjFacts.get_set_eq.
        -- rewrite decide_False.
           2:{ intros H. apply elem_of_cons in H as [H|H]; congruence. }
           destruct (Obj.get k0 values); [|reflexivity].
           apply ObjFacts.get_set_ne, Hne.
    + destruct (Obj.get k0 values) as [v0|] eqn:Hk0; [|reflexivity].
      apply ObjFacts.get_set_ne. intros ->. congruence.
Qed.

(** The collected values: the same lookups, each value with its flag. *)
Lemma collectValuesPerMode_get values k :
  Obj.get k (collectValuesPerMode values)
  = (fun v => mkModeValue v (isVariableAlias v)) <$> Obj.get k values.
Proof.
  unfold collectValuesPerMode. rewrite collect_fold_get.
  destruct (Obj.get k values) as [v|] eqn:Hk; [|reflexivity].
  rewrite decide_True; [reflexivity|].
  apply ObjFacts.get_Some_keys. eauto.
Qed.

Lemma in_collected get cols col v :
  in_snapshot (logLocalVariableCollections get cols) col v ->
  exists c id fv,
    c ∈ cols /\ id ∈ variableIds c /\ get id = Some fv
    /\ col_id col = vc_id c /\ col_name col = vc_name c
    /\ v = mkVariable (fv_id fv) (fv_name fv) (fv_resolvedType fv)
             (collectValuesPerMode (valuesByMode fv)).
Proof.
  intros [Hcol Hv]. unfold logLocalVariableCollections in Hcol.
  apply list_elem_of_In, List.in_map_iff in Hcol as (c & <- & Hc).
  cbn [variables] in Hv. apply list_elem_of_omap in Hv as (id & Hid & Hv).
  unfold collectVariable in Hv. destruct (get id) as [fv|] eqn:Hg; [|discriminate].
  injection Hv as <-. exists c, id, fv.
  split; [apply list_elem_of_In, Hc|]. repeat split; assumption.
Qed.

Lemma scan_page_mobile page :
  forall acc,
    snd (fold_left scanNode page acc) = true
    <-> snd acc = true
        \/ exists node, node ∈ page /\ node_type node = "FRAME"
                        /\ mobile_width (node_width node) = true.
Proof.
  induction page as [|n page IH]; intros acc; cbn [fold_left].
  - split; [tauto|]. intros [H|(node & H & _)]; [exact H|inversion H].
  - rewrite IH. unfold scanNode. split.
    + intros [H|(node & Hn & Hf)].
      * case_decide as Ht; [|left; exact H]. cbn [snd] in H.
        apply orb_prop in H as [H|H]; [left; exact H|].
        right. exists n. split; [apply elem_of_cons; left; reflexivity|].
        split; assumption.
      * right. exists node. split; [apply elem_of_cons; right; exact Hn|exact Hf].
    + intros [H|(node & Hn & Ht & Hw)].
      * left. case_decide; [|exact H]. cbn [snd]. rewrite H. reflexivity.
      * apply elem_of_cons in Hn as [->|Hn].
        -- left. rewrite decide_True by exact Ht. cbn [snd].
           unfold mobile_width in Hw. rewrite Hw. apply orb_true_r.
        -- right. exists node. tauto.
Qed.

Lemma scan_page_web page :
  forall acc,
    fst (fold_left scanNode page acc) = true
    <-> fst acc = true
        \/ exists node, node ∈ page /\ node_type node = "FRAME"
                        /\ web_width (node_width node) = true.
Proof.
  induction page as [|n page IH]; intros acc; cbn [fold_left].
  - split; [tauto|]. intros [H|(node & H & _)]; [exact H|inversion H].
  - rewrite IH. unfold scanNode. split.
    + intros [H|(node & Hn & Hf)].
      * case_decide as Ht; [|left; exact H]. cbn [fst] in H.
        apply orb_prop in H as [H|H]; [left; exact H|].
        right. exists n. split; [apply elem_of_cons; left; reflexivity|].
        split; assumption.
      * right. exists node. split; [apply elem_of_cons; right; exact Hn|exact Hf].
    + intros [H|(node & Hn & Ht & Hw)].
      * left. case_decide; [|exact H]. cbn [fst]. rewrite H. reflexivity.
      * apply elem_of_cons in Hn as [->|Hn].
        -- left. rewrite decide_True by exact Ht. cbn [fst].
           unfold web_width in Hw. rewrite Hw. apply orb_true_r.
        -- right. exists node. tauto.
Qed.

Lemma scan_pages (sel : bool * bool -> bool) (p : Q -> bool) pages :
  (forall page acc,
     sel (fold_left scanNode page acc) = true
     <-> sel acc = true
         \/ exists node, node ∈ page /\ node_type node = "FRAME"
                         /\ p (node_width node) = true) ->
  forall acc,
    sel (fold_left (fun acc page => fold_left scanNode page acc) pages acc) = true
    <-> sel acc = true \/ has_frame p pages.
Proof.
  intros Hpage. induction pages as [|page pages IH]; intros acc; cbn [fold_left].
  - split; [tauto|]. intros [H|(pg & _ & H & _)]; [exact H|inversion H].
  - rewrite IH, Hpage. split.
    + intros [[H|(node & Hn & Hf)]|(pg & node & Hp & Hf)].
      * left. exact H.
      * right. exists page, node. split; [apply elem_of_cons; left; reflexivity|].
        tauto.
      * right. exists pg, node. split; [apply elem_of_cons; right; exact Hp|].
        exact Hf.
    + intros [H|(pg & node & Hp & Hf)].
      * left. left. exact H.
      * apply elem_of_cons in Hp as [->|Hp].
        -- left. right. exists node. exact Hf.
        -- right. exists pg, node. tauto.
Qed.

End CollectorFacts.

(** X22 (logLocalVariableCollections, code.ts 104-152; isVariableAlias,
    code.ts 75-84).  Every variable the collector returns is the copy of a
    variable that the document holds under an identifier listed by a
    collection: identifier, name and type are those of the document's
    variable, the collection keeps its identifier and name, and under every
    mode identifier the document's value is found again, flagged as an
    alias exactly when it is a VARIABLE_ALIAS.  Identifiers that the
    document does not know leave no trace. *)
Theorem collector_copies_and_flags
    (getVariableById : string -> option FigmaVariable)
    (collections : list VariableCollection)
    (col : RawCollection) (v : RawVariable) :
  in_snapshot (logLocalVariableCollections getVariableById collections) col v ->
  exists collection variableId variable,
    collection ∈ collections
    /\ variableId ∈ variableIds collection
    /\ getVariableById variableId = Some variable
    /\ col_id col = vc_id collection /\ col_name col = vc_name collection
    /\ var_id v = fv_id variable /\ var_name v = fv_name variable
    /\ resolvedType v = fv_resolvedType variable
    /\ forall k,
         Obj.get k (valuesPerMode v)
         = (fun x => mkModeValue x (isVariableAlias x))
             <$> Obj.get k (valuesByMode variable).
Proof.
  intros Hin.
  destruct (CollectorFacts.in_collected _ _ _ _ Hin)
    as (c & id & fv & Hc & Hid & Hg & Hci & Hcn & ->).
  exists c, id, fv. repeat split; try assumption.
  intros k. apply CollectorFacts.collectValuesPerMode_get.
Qed.

Lemma collector_copies_and_flags_witness :
  exists collection variableId variable,
    collection ∈ sample_collections
    /\ variableId ∈ variableIds collection
    /\ sample_document variableId = Some variable
    /\ "C:1" = vc_id collection /\ "Theme" = vc_name collection
    /\ "V:text" = fv_id variable /\ "Text/Body" = fv_name variable
    /\ "COLOR" = fv_resolvedType variable
    /\ forall k,
         Obj.get k [("1:0", mkModeValue (VAlias "V:ink") true)]
         = (fun x => mkModeValue x (isVariableAlias x))
             <$> Obj.get k (valuesByMode variable).
Proof.
  apply (collector_copies_and_flags sample_document sample_collections
           (mkCollection "C:1" "Theme" [mkMode "1:0" "Light"]
              [mkVariable "V:ink" "Ink" "COLOR"
                 [("1:0", mkModeValue (VColor 0 0 0 None) false)];
               mkVariable "V:text" "Text/Body" "COLOR"
                 [("1:0", mkModeValue (VAlias "V:ink") true)]])
           (mkVariable "V:text" "Text/Body" "COLOR"
              [("1:0", mkModeValue (VAlias "V:ink") true)])).
  split.
  - vm_compute. list_member.
  - cbn [variables]. list_member.
Defined.

(** X23 (logLocalVariableCollections, code.ts 104-152; buildExportModel,
    code.ts 285-457).  Collector and builder composed: when no value of a
    variable of the document is a VARIABLE_ALIAS, the export of the
    collected snapshot has no resolution error and no null cell. *)
Theorem document_without_aliases_resolves
    (getVariableById : string -> option FigmaVariable)
    (collections : list VariableCollection) :
  (forall id variable k x,
     getVariableById id = Some variable ->
     Obj.get k (valuesByMode variable) = Some x -> isVariableAlias x = false) ->
  let raw :=
    tokensRaw
      (buildTokensRaw (logLocalVariableCollections getVariableById collections)) in
  snd (buildTokensResolved raw) = []
  /\ forall b p m c,
       resolved_cell (fst (buildTokensResolved raw)) b p m = Some c ->
       c <> CellNull.
Proof.
  intros Hdoc raw.
  assert (Hfree : alias_free
                    (logLocalVariableCollections getVariableById collections)).
  { intros col v k mv Hin Hk.
    destruct (CollectorFacts.in_collected _ _ _ _ Hin)
      as (c & id & fv & _ & _ & Hg & _ & _ & ->).
    cbn [valuesPerMode] in Hk.
    rewrite CollectorFacts.collectValuesPerMode_get in Hk.
    destruct (Obj.get k (valuesByMode fv)) as [x|] eqn:Hx; [|discriminate].
    injection Hk as <-. cbn [isAlias]. apply (Hdoc id fv k x Hg Hx). }
  pose proof (PassMore.buildTokensRaw_no_ref _ Hfree) as Hnr.
  fold raw in Hnr.
  pose proof (BuilderMore.buildTokensRaw_typed
                (logLocalVariableCollections getVariableById collections))
    as Hty.
  fold raw in Hty.
  assert (Hcell : forall b p m tv,
    raw_cell raw b p m = Some tv ->
    cell_of raw b p m <> CellNull /\ cell_errors raw b p m = []).
  { intros b p m tv H. pose proof (Hnr b p m tv H) as Hr.
    destruct (PassMore.raw_cell_mode _ _ _ _ _ H) as (entry & Hp & Hm & _).
    pose proof (Hty b p entry m tv Hp Hm) as Ht.
    destruct tv as [[[[r g] bl] a] hex|n|q]; [| |discriminate Hr].
    - destruct Ht as [-> _].
      destruct (PassMore.cell_of_color _ raw p m r g bl a hex Hty H) as [-> ->].
      split; [discriminate|reflexivity].
    - destruct (PassMore.cell_of_number raw b p m n Ht H) as [-> ->].
      split; [discriminate|reflexivity]. }
  apply (PassMore.clean_cells raw Hcell).
Qed.

Lemma document_without_aliases_resolves_witness :
  let raw :=
    tokensRaw
      (buildTokensRaw (logLocalVariableCollections plain_document
                         sample_collections)) in
  snd (buildTokensResolved raw) = []
  /\ forall b p m c,
       resolved_cell (fst (buildTokensResolved raw)) b p m = Some c ->
       c <> CellNull.
Proof.
  apply (document_without_aliases_resolves plain_document sample_collections).
  intros id variable k x Hid Hk. unfold plain_document in Hid.
  destruct (String.eqb id "V:ink"); [|discriminate]. injection Hid as <-.
  cbn in Hk. case_decide; [|discriminate]. injection Hk as <-. reflexivity.
Defined.

(** X24 (detectTargetPlatforms, code.ts 86-102).  The detection reports
    mobile exactly when some page has a frame whose width is between 320
    and 430, and web exactly when some page has a frame at least 768 wide
    or no frame has a mobile width; so at least one of the two is always
    reported, and frames of other widths and nodes that are not frames do
    not count. *)
Theorem detectTargetPlatforms_spec (pages : list (list SceneNode)) :
  (mobile (detectTargetPlatforms pages) = true <-> has_frame mobile_width pages)
  /\ (web (detectTargetPlatforms pages) = true
      <-> has_frame web_width pages \/ ~ has_frame mobile_width pages)
  /\ web (detectTargetPlatforms pages) || mobile (detectTargetPlatforms pages)
     = true.
Proof.
  pose proof (CollectorFacts.scan_pages snd mobile_width pages
                CollectorFacts.scan_page_mobile (false, false)) as Hm.
  pose proof (CollectorFacts.scan_pages fst web_width pages
                CollectorFacts.scan_page_web (false, false)) as Hw.
  unfold detectTargetPlatforms. cbn [web mobile].
  destruct (fold_left (fun acc page => fold_left scanNode page acc) pages
              (false, false)) as [hasWeb hasMobile].
  cbn [fst snd] in *.
  assert (Hm' : hasMobile = true <-> has_frame mobile_width pages).
  { rewrite Hm. split; [intros [H|H]; [discriminate H|exact H]|tauto]. }
  assert (Hw' : hasWeb = true <-> has_frame web_width pages).
  { rewrite Hw. split; [intros [H|H]; [discriminate H|exact H]|tauto]. }
  split; [exact Hm'|]. split.
  - destruct hasWeb, hasMobile; cbn; split; intros H; try reflexivity.
    + left. apply Hw'. reflexivity.
    + left. apply Hw'. reflexivity.
    + discriminate H.
    + destruct H as [H|H]; [apply Hw' in H; discriminate H|].
      exfalso. apply H, Hm'. reflexivity.
    + right. intros Hf. apply Hm' in Hf. discriminate Hf.
  - destruct hasWeb, hasMobile; reflexivity.
Qed.

(** A phone frame alone reports mobile only; a frame of a width outside
    both ranges triggers the fallback. *)
Example detectTargetPlatforms_sample :
  detectTargetPlatforms sample_pages = mkPlatforms false true
  /\ detectTargetPlatforms [[mkSceneNode "FRAME" 600]] = mkPlatforms true false.
Proof. split; reflexivity. Qed.

(** The identifier that the sample document does not know is skipped. *)
Example logLocalVariableCollections_sample :
  logLocalVariableCollections sample_document sample_collections
  = [mkCollection "C:1" "Theme" [mkMode "1:0" "Light"]
       [mkVariable "V:ink" "Ink" "COLOR"
          [("1:0", mkModeValue (VColor 0 0 0 None) false)];
        mkVariable "V:text" "Text/Body" "COLOR"
          [("1:0", mkModeValue (VAlias "V:ink") true)]]].
Proof. reflexivity. Qed.

(** * Properties of the export message *)

Module MessageFacts.

Lemma rebuild_three {V} (x y z : V) :
  rebuild_sorted [("color", x); ("spacing", y); ("radius", z)]
  = [("color", x); ("radius", z); ("spacing", y)].
Proof. vm_compute. reflexivity. Qed.

(** The export model, field by field. *)
Lemma buildExportModel_fields localeCompare now cols :
  let st := buildTokensRaw cols in
  let res := fst (buildTokensResolved (tokensRaw st)) in
  buildExportModel localeCompare now cols
  = JObj [("meta",
           JObj [("exportedAt", JStr now);
                 ("pluginVersion", JStr PLUGIN_VERSION)]);
          ("collections", JArr (List.map (collection_json localeCompare) cols));
          ("tokensRaw",
           sortObjectKeys (buckets_json TokenValueRaw_json (tokensRaw st)));
          ("tokensResolved",
           JObj [("color",
                  sortObjectKeys (table_json ResolvedCell_json (bk_color res)));
                 ("radius",
                  sortObjectKeys (table_json ResolvedCell_json (bk_radius res)));
                 ("spacing",
                  sortObjectKeys (table_json ResolvedCell_json (bk_spacing res)))]);
          ("errors",
           JArr (List.map DuplicateError_json (duplicateErrors st)
                 ++ List.map ResolutionError_json
                      (snd (buildTokensResolved (tokensRaw st)))))].
Proof.
  intros st res. unfold buildExportModel. fold st.
  subst res. destruct (buildTokensResolved (tokensRaw st)) as [res errs].
  cbn [fst snd].
  rewrite DeterminismFacts.sortObjectKeys_buckets, rebuild_three.
  reflexivity.
Qed.

Lemma get_assign_eq {V} (o : jsobj V) k v :
  k <> "__proto__" -> Obj.get k (Obj.assign k v o) = Some v.
Proof.
  intros Hk. unfold Obj.assign. rewrite decide_False by exact Hk.
  apply ObjFacts.get_set_eq.
Qed.

Lemma get_assign_ne {V} (o : jsobj V) k k' v :
  k <> k' -> Obj.get k' (Obj.assign k v o) = Obj.get k' o.
Proof.
  intros Hk. unfold Obj.assign. case_decide; [reflexivity|].
  apply ObjFacts.get_set_ne, Hk.
Qed.

Lemma get_assign_proto {V} (o : jsobj V) k v :
  Obj.get "__proto__" (Obj.assign k v o) = Obj.get "__proto__" o.
Proof.
  unfold Obj.assign. case_decide as Hk; [reflexivity|].
  apply ObjFacts.get_set_ne, Hk.
Qed.

Lemma addTextStyle_fonts styles :
  forall t p,
    p <> "__proto__" ->
    Obj.get p (fontTokens (fold_left addTextStyle styles t))
    = match last_style p styles with
      | Some s => Some (JObj [("default", JStr (ts_family s))])
      | None => Obj.get p (fontTokens t)
      end
    /\ Obj.get p (fontSizeTokens (fold_left addTextStyle styles t))
       = match last_style p styles with
         | Some s => Some (JObj [("default", JNum (ts_fontSize s))])
         | None => Obj.get p (fontSizeTokens t)
         end
    /\ Obj.get p (fontSizeToFontFamily (fold_left addTextStyle styles t))
       = match last_style p styles with
         | Some s => Some (JStr (ts_family s))
         | None => Obj.get p (fontSizeToFontFamily t)
         end.
Proof.
  induction styles as [|s styles IH]; intros t p Hproto; cbn [fold_left].
  - repeat split; reflexivity.
  - destruct (IH (addTextStyle t s) p Hproto) as (H1 & H2 & H3).
    rewrite H1, H2, H3. clear H1 H2 H3 IH.
    unfold last_style. cbn [List.filter].
    destruct (bool_decide (nameToTokenPath (ts_name s) = p)) eqn:Hs.
    + apply bool_decide_eq_true in Hs.
      destruct (List.filter _ styles) as [|s' l] eqn:Hl.
      * cbn [last addTextStyle fontTokens fontSizeTokens fontSizeToFontFamily].
        rewrite Hs, !get_assign_eq by exact Hproto. repeat split; reflexivity.
      * change (last (s :: s' :: l)) with (last (s' :: l)).
        destruct (last (s' :: l)) as [s2|] eqn:Hlast; [repeat split; reflexivity|].
        apply last_None in Hlast. discriminate Hlast.
    + apply bool_decide_eq_false in Hs.
      destruct (last (List.filter _ styles)); [repeat split; reflexivity|].
      cbn [addTextStyle fontTokens fontSizeTokens fontSizeToFontFamily].
      rewrite !get_assign_ne by exact Hs. repeat split; reflexivity.
Qed.

(** No text style creates the key ["__proto__"]. *)
Lemma addTextStyle_proto styles :
  forall t,
    Obj.get "__proto__" (fontTokens (fold_left addTextStyle styles t))
    = Obj.get "__proto__" (fontTokens t)
    /\ Obj.get "__proto__" (fontSizeTokens (fold_left addTextStyle styles t))
       = Obj.get "__proto__" (fontSizeTokens t)
    /\ Obj.get "__proto__"
         (fontSizeToFontFamily (fold_left addTextStyle styles t))
       = Obj.get "__proto__" (fontSizeToFontFamily t).
Proof.
  induction styles as [|s styles IH]; intros t; cbn [fold_left].
  - repeat split; reflexivity.
  - destruct (IH (addTextStyle t s)) as (H1 & H2 & H3).
    rewrite H1, H2, H3.
    cbn [addTextStyle fontTokens fontSizeTokens fontSizeToFontFamily].
    rewrite !get_assign_proto. repeat split; reflexivity.
Qed.

Lemma collectFonts_get styles p :
  let shown := if decide (p = "__proto__") then None else last_style p styles in
  Obj.get p (fontTokens (collectFonts styles))
  = (fun s => JObj [("default", JStr (ts_family s))]) <$> shown
  /\ Obj.get p (fontSizeTokens (collectFonts styles))
     = (fun s => JObj [("default", JNum (ts_fontSize s))]) <$> shown
  /\ Obj.get p (fontSizeToFontFamily (collectFonts styles))
     = (fun s => JStr (ts_family s)) <$> shown.
Proof.
  intros shown. subst shown. unfold collectFonts. case_decide as Hp.
  - subst p.
    destruct (addTextStyle_proto styles (mkFontTables [] [] [])) as (H1 & H2 & H3).
    rewrite H1, H2, H3. repeat split; reflexivity.
  - destruct (addTextStyle_fonts styles (mkFontTables [] [] []) p Hp)
      as (H1 & H2 & H3).
    rewrite H1, H2, H3. destruct (last_style p styles); repeat split; reflexivity.
Qed.

(** The message, field by field. *)
Lemma runExportWithRaw_fields localeCompare now cols settings styles :
  let st := buildTokensRaw cols in
  let res := fst (buildTokensResolved (tokensRaw st)) in
  let fonts := collectFonts styles in
  runExportWithRaw localeCompare now cols settings styles
  = JObj [("meta",
           JObj [("exportedAt", JStr now);
                 ("pluginVersion", JStr PLUGIN_VERSION);
                 ("targets", targets settings);
                 ("mobileFramework",
                  if webOnly settings then JStr "none"
                  else mobileFramework settings)]);
          ("collections", JArr (List.map (collection_json localeCompare) cols));
          ("tokensRaw",
           sortObjectKeys (buckets_json TokenValueRaw_json (tokensRaw st)));
          ("tokensResolved",
           JObj [("color",
                  sortObjectKeys (table_json ResolvedCell_json (bk_color res)));
                 ("radius",
                  sortObjectKeys (table_json ResolvedCell_json (bk_radius res)));
                 ("spacing",
                  sortObjectKeys (table_json ResolvedCell_json (bk_spacing res)));
                 ("font", sortObjectKeys (JObj (fontTokens fonts)));
                 ("fontSize", sortObjectKeys (JObj (fontSizeTokens fonts)))]);
          ("errors",
           JArr (List.map DuplicateError_json (duplicateErrors st)
                 ++ List.map ResolutionError_json
                      (snd (buildTokensResolved (tokensRaw st)))));
          ("fontSizeToFontFamily",
           sortObjectKeys (JObj (fontSizeToFontFamily fonts)))].
Proof.
  intros st res fonts. unfold runExportWithRaw. fold fonts.
  rewrite (buildExportModel_fields localeCompare now cols). fold st. fold res.
  generalize (JArr (List.map DuplicateError_json (duplicateErrors st)
                    ++ List.map ResolutionError_json
                         (snd (buildTokensResolved (tokensRaw st))))).
  generalize (sortObjectKeys (JObj (fontSizeToFontFamily fonts))).
  generalize (sortObjectKeys (JObj (fontSizeTokens fonts))).
  generalize (sortObjectKeys (JObj (fontTokens fonts))).
  generalize (sortObjectKeys (table_json ResolvedCell_json (bk_spacing res))).
  generalize (sortObjectKeys (table_json ResolvedCell_json (bk_radius res))).
  generalize (sortObjectKeys (table_json ResolvedCell_json (bk_color res))).
  generalize (sortObjectKeys (buckets_json TokenValueRaw_json (tokensRaw st))).
  generalize (JArr (List.map (collection_json localeCompare) cols)).
  generalize (if webOnly settings then JStr "none" else mobileFramework settings).
  generalize (targets settings). generalize (JStr now).
  intros. vm_compute. reflexivity.
Qed.

End MessageFacts.

(** X25 (runExportWithRaw, code.ts 731-760).  The [exportJson] of the
    posted message is the export model with additions only: [collections],
    [tokensRaw], [errors], the two fields of [meta] and the three buckets of
    [tokensResolved] are those of [buildExportModel]; [meta] gains
    [targets] and [mobileFramework], which is "none" when web is the only
    truthy target and the value of the settings otherwise; [tokensResolved] gains [font] and [fontSize]; the
    message gains [fontSizeToFontFamily].  The new keys come after the old
    ones. *)
Theorem runExportWithRaw_extends_export
    (localeCompare : string -> string -> Z) (now : string)
    (cols : list RawCollection) (settings : PluginExportSettings)
    (styles : list TextStyle) :
  let out := buildExportModel localeCompare now cols in
  let msg := runExportWithRaw localeCompare now cols settings styles in
  json_keys msg = json_keys out ++ ["fontSizeToFontFamily"]
  /\ json_get "collections" msg = json_get "collections" out
  /\ json_get "tokensRaw" msg = json_get "tokensRaw" out
  /\ json_get "errors" msg = json_get "errors" out
  /\ json_keys <$> json_get "meta" msg
     = Some ["exportedAt"; "pluginVersion"; "targets"; "mobileFramework"]
  /\ json_path ["meta"; "exportedAt"] msg = json_path ["meta"; "exportedAt"] out
  /\ json_path ["meta"; "pluginVersion"] msg
     = json_path ["meta"; "pluginVersion"] out
  /\ json_path ["meta"; "targets"] msg = Some (targets settings)
  /\ json_path ["meta"; "mobileFramework"] msg
     = Some (if webOnly settings then JStr "none" else mobileFramework settings)
  /\ json_keys <$> json_get "tokensResolved" msg
     = Some ["color"; "radius"; "spacing"; "font"; "fontSize"]
  /\ forall b,
       json_path ["tokensResolved"; bucket_name b] msg
       = json_path ["tokensResolved"; bucket_name b] out.
Proof.
  intros out msg. subst out msg.
  rewrite MessageFacts.runExportWithRaw_fields,
    MessageFacts.buildExportModel_fields.
  repeat split. intros b. destruct b; reflexivity.
Qed.

(** X26 (runExportWithRaw, code.ts 751-752; sortObjectKeys, code.ts
    716-727).  The [tokensResolved] of the posted message is never in
    ascending key order: [font] and [fontSize] are assigned after the table
    was key-normalized, so they are enumerated after [spacing]. *)
Theorem runExportWithRaw_tokensResolved_not_sorted
    (localeCompare : string -> string -> Z) (now : string)
    (cols : list RawCollection) (settings : PluginExportSettings)
    (styles : list TextStyle) :
  exists t,
    json_get "tokensResolved"
      (runExportWithRaw localeCompare now cols settings styles) = Some t
    /\ ~ json_sorted t
    /\ sortObjectKeys t <> t.
Proof.
  rewrite MessageFacts.runExportWithRaw_fields. eexists.
  split; [reflexivity|].
  assert (Hns : forall o,
    json_keys (JObj o) = ["color"; "radius"; "spacing"; "font"; "fontSize"] ->
    ~ json_sorted (JObj o)).
  { intros o Hk Hs. apply OrderFacts.json_sorted_obj in Hs as [Hs _].
    cbn [json_keys] in Hk. rewrite Hk in Hs.
    apply StronglySorted_inv in Hs as [Hs _].
    apply StronglySorted_inv in Hs as [Hs _].
    apply StronglySorted_inv in Hs as [_ Hs].
    apply Forall_inv in Hs. vm_compute in Hs. exact Hs. }
  split.
  - apply Hns. reflexivity.
  - intros Heq.
    match type of Heq with
    | sortObjectKeys ?t = _ =>
        pose proof (OrderFacts.sortObjectKeys_sorted t) as Hs
    end.
    rewrite Heq in Hs. revert Hs. apply Hns. reflexivity.
Qed.

(** X27 (runExportWithRaw, code.ts 741-753; nameToTokenPath, code.ts
    54-59).  Text styles are keyed by normalized name and the last one
    wins, silently: as an own property under a token path other than
    "__proto__", the message holds the family and the size of the last text
    style whose name normalizes to that token path, in [font], in
    [fontSize] and in [fontSizeToFontFamily] alike, and nothing when there
    is no such style.  Under "__proto__" it holds nothing, whatever the
    styles are: a style with that normalized name leaves no property.
    Unlike variables, colliding styles raise no error. *)
Theorem runExportWithRaw_last_text_style_wins
    (localeCompare : string -> string -> Z) (now : string)
    (cols : list RawCollection) (settings : PluginExportSettings)
    (styles : list TextStyle) (p : string) :
  let msg := runExportWithRaw localeCompare now cols settings styles in
  let shown := if decide (p = "__proto__") then None else last_style p styles in
  json_path ["tokensResolved"; "font"; p] msg
  = (fun s => JObj [("default", JStr (ts_family s))]) <$> shown
  /\ json_path ["tokensResolved"; "fontSize"; p] msg
     = (fun s => JObj [("default", JNum (ts_fontSize s))]) <$> shown
  /\ json_path ["fontSizeToFontFamily"; p] msg
     = (fun s => JStr (ts_family s)) <$> shown
  /\ json_get "errors" msg
     = json_get "errors" (buildExportModel localeCompare now cols).
Proof.
  intros msg shown. subst msg.
  rewrite MessageFacts.runExportWithRaw_fields,
    MessageFacts.buildExportModel_fields.
  destruct (MessageFacts.collectFonts_get styles p) as (H1 & H2 & H3).
  fold shown in H1, H2, H3.
  assert (Hp : forall o,
    json_path [p] (sortObjectKeys (JObj o)) = sortObjectKeys <$> Obj.get p o).
  { intros o. rewrite (SortMore.json_path_sortObjectKeys [p] (JObj o)).
    cbn [json_path json_get]. destruct (Obj.get p o); reflexivity. }
  split; [|split; [|split]].
  - change (json_path [p] (sortObjectKeys (JObj (fontTokens (collectFonts styles))))
            = (fun s => JObj [("default", JStr (ts_family s))]) <$> shown).
    rewrite Hp, H1. destruct shown; reflexivity.
  - change (json_path [p]
              (sortObjectKeys (JObj (fontSizeTokens (collectFonts styles))))
            = (fun s => JObj [("default", JNum (ts_fontSize s))]) <$> shown).
    rewrite Hp, H2. destruct shown; reflexivity.
  - change (json_path [p]
              (sortObjectKeys (JObj (fontSizeToFontFamily (collectFonts styles))))
            = (fun s => JStr (ts_family s)) <$> shown).
    rewrite Hp, H3. destruct shown; reflexivity.
  - reflexivity.
Qed.

(** The sample styles: "Heading/XL" and "heading / xl" share a token path,
    and the later one is exported. *)
Example runExportWithRaw_sample_styles (localeCompare : string -> string -> Z) :
  let msg := runExportWithRaw localeCompare "t" [] DEFAULT_SETTINGS sample_styles in
  json_path ["tokensResolved"; "font"] msg
  = Some (JObj [("body", JObj [("default", JStr "Inter")]);
                ("heading.xl", JObj [("default", JStr "Georgia")])])
  /\ json_path ["tokensResolved"; "fontSize"; "heading.xl"; "default"] msg
     = Some (JNum 40)
  /\ json_path ["meta"; "mobileFramework"] msg = Some (JStr "none")
  /\ json_path ["errors"] msg = Some (JArr []).
Proof. vm_compute. repeat split. Qed.

(** A style named "__proto__" is not exported. *)
Example runExportWithRaw_proto_style (localeCompare : string -> string -> Z) :
  let msg :=
    runExportWithRaw localeCompare "t" [] DEFAULT_SETTINGS
      [mkTextStyle "__PROTO__" "Inter" 12; mkTextStyle "Body" "Inter" 16] in
  json_path ["tokensResolved"; "font"] msg
  = Some (JObj [("body", JObj [("default", JStr "Inter")])])
  /\ json_path ["fontSizeToFontFamily"] msg
     = Some (JObj [("body", JStr "Inter")]).
Proof. vm_compute. repeat split. Qed.

(** * Properties of the exported collections *)

Module CollectionsFacts.

Lemma insert_by_perm {A} (cmp : A -> A -> Z) x l : insert_by cmp x l ≡ₚ x :: l.
Proof.
  induction l as [|y l IH]; cbn; [reflexivity|].
  destruct (Z.leb (cmp x y) 0); [reflexivity|].
  rewrite IH. apply Permutation_swap.
Qed.

Lemma sort_by_perm {A} (cmp : A -> A -> Z) l : sort_by cmp l ≡ₚ l.
Proof.
  induction l as [|x l IH]; cbn; [reflexivity|].
  change (fold_right (insert_by cmp) [] l) with (sort_by cmp l).
  rewrite insert_by_perm, IH. reflexivity.
Qed.

Lemma insert_by_sorted {A} (cmp : A -> A -> Z) x l :
  (forall a b, (cmp a b <= 0)%Z \/ (cmp b a <= 0)%Z) ->
  Sorted (fun a b => (cmp a b <= 0)%Z) l ->
  Sorted (fun a b => (cmp a b <= 0)%Z) (insert_by cmp x l).
Proof.
  intros Htot. induction 1 as [|y l Hl IH Hy]; cbn.
  - repeat constructor.
  - destruct (Z.leb (cmp x y) 0) eqn:E.
    + apply Z.leb_le in E. constructor; [constructor; assumption|].
      constructor. exact E.
    + apply Z.leb_gt in E. constructor; [exact IH|].
      destruct l as [|z l]; cbn.
      * constructor. destruct (Htot x y); lia.
      * destruct (Z.leb (cmp x z) 0).
        -- constructor. destruct (Htot x y); lia.
        -- constructor. inversion Hy; assumption.
Qed.

Lemma sort_by_sorted {A} (cmp : A -> A -> Z) l :
  (forall a b, (cmp a b <= 0)%Z \/ (cmp b a <= 0)%Z) ->
  Sorted (fun a b => (cmp a b <= 0)%Z) (sort_by cmp l).
Proof.
  intros Htot. induction l as [|x l IH]; cbn; [constructor|].
  apply insert_by_sorted; assumption.
Qed.

End CollectionsFacts.

(** X28 (buildExportModel, step 5, code.ts 441-445).  The [collections]
    array of the export has one entry per collection of the snapshot, in
    the same order, with the identifier and the name of the collection and
    with its modes, none lost and none repeated, whatever the comparator
    of the host does; when the comparator orders any two identifiers one
    way or the other, the modes are in ascending order of identifier.  The
    variables are not part of the entry. *)
Theorem export_collections_keep_modes
    (localeCompare : string -> string -> Z) (now : string)
    (cols : list RawCollection) :
  exists outs,
    json_get "collections" (buildExportModel localeCompare now cols)
    = Some (JArr outs)
    /\ Forall2
         (fun c out =>
            exists ms,
              out = collection_entry c ms
              /\ ms ≡ₚ modes c
              /\ (total_cmp localeCompare ->
                  Sorted
                    (fun a b => (localeCompare (mode_id a) (mode_id b) <= 0)%Z)
                    ms))
         cols outs.
Proof.
  exists (List.map (collection_json localeCompare) cols). split.
  - rewrite MessageFacts.buildExportModel_fields. reflexivity.
  - induction cols as [|c cols IH]; cbn [List.map]; constructor; [|exact IH].
    exists (sort_by (fun a b => localeCompare (mode_id a) (mode_id b)) (modes c)).
    split; [reflexivity|]. split; [apply CollectionsFacts.sort_by_perm|].
    intros Htot. apply CollectionsFacts.sort_by_sorted.
    intros a b. apply Htot.
Qed.

Lemma export_collections_keep_modes_witness :
  exists ms,
    ms ≡ₚ [mkMode "2:1" "Dark"; mkMode "2:0" "Light"]
    /\ Sorted
         (fun a b => (code_unit_compare (mode_id a) (mode_id b) <= 0)%Z) ms.
Proof.
  destruct (export_collections_keep_modes code_unit_compare "t"
              [mkCollection "C:2" "Theme"
                 [mkMode "2:1" "Dark"; mkMode "2:0" "Light"] []])
    as (outs & _ & HF).
  inversion HF as [|c out cs os (ms & _ & Hperm & Hsorted) _]; subst.
  exists ms. split; [exact Hperm|]. apply Hsorted.
  intros a b. unfold code_unit_compare.
  rewrite (String.compare_antisym a b).
  destruct (String.compare b a); cbn; lia.
Defined.

(** Modes given as "2:1", "2:0" are exported as "2:0", "2:1". *)
Example export_collections_sample :
  json_get "collections"
    (buildExportModel code_unit_compare "t"
       [mkCollection "C:2" "Theme" [mkMode "2:1" "Dark"; mkMode "2:0" "Light"] []])
  = Some (JArr [collection_entry
                  (mkCollection "C:2" "Theme" [] [])
                  [mkMode "2:0" "Light"; mkMode "2:1" "Dark"]]).
Proof. vm_compute. reflexivity. Qed.

(** * Channels out of range *)

Module HexWrap.

Import Hexadecimal HexDigits.

Lemma rev_split d :
  rev d = revapp (HexadecimalPos.Unsigned.tl d) (unit_digit d).
Proof. destruct d; reflexivity. Qed.

Lemma string_unit_digit d :
  d <> Nil ->
  HexadecimalString.NilEmpty.string_of_uint (unit_digit d)
  = String (digit_char (HexadecimalPos.Unsigned.hd d)) EmptyString.
Proof. destruct d; intros H; try reflexivity. contradiction. Qed.

Lemma string_revapp a :
  forall b,
    HexadecimalString.NilEmpty.string_of_uint (revapp a b)
    = (HexadecimalString.NilEmpty.string_of_uint (rev a)
       ++ HexadecimalString.NilEmpty.string_of_uint b)%string.
Proof.
  induction a; intros b;
    try (unfold rev; cbn [revapp]; rewrite IHa;
         rewrite (IHa (_ Nil)); cbn [HexadecimalString.NilEmpty.string_of_uint];
         rewrite NormalizeMore.string_app_assoc; reflexivity).
  reflexivity.
Qed.

Lemma string_rev d :
  d <> Nil ->
  HexadecimalString.NilEmpty.string_of_uint (rev d)
  = (HexadecimalString.NilEmpty.string_of_uint (rev (HexadecimalPos.Unsigned.tl d))
     ++ String (digit_char (HexadecimalPos.Unsigned.hd d)) EmptyString)%string.
Proof.
  intros H. rewrite rev_split at 1. rewrite string_revapp.
  rewrite (string_unit_digit d H). reflexivity.
Qed.

Lemma last2_suffix (s : string) c1 c0 :
  Str.last2 (s ++ String c1 (String c0 EmptyString))
  = String c1 (String c0 EmptyString).
Proof.
  induction s as [|c s IH]; [reflexivity|].
  rewrite NormalizeMore.app_String.
  destruct s as [|c' s]; [reflexivity|].
  rewrite NormalizeMore.app_String in *.
  destruct s as [|c'' s]; [exact IH|].
  rewrite NormalizeMore.app_String in *. exact IH.
Qed.

Lemma last2_rev d :
  d <> Nil ->
  Str.last2 ("0" ++ HexadecimalString.NilEmpty.string_of_uint (rev d))
  = String (digit_char (HexadecimalPos.Unsigned.hd (HexadecimalPos.Unsigned.tl d)))
      (String (digit_char (HexadecimalPos.Unsigned.hd d)) EmptyString).
Proof.
  intros H. rewrite (string_rev d H).
  assert (Ht : HexadecimalPos.Unsigned.tl d = Nil
               \/ HexadecimalPos.Unsigned.tl d <> Nil).
  { destruct (HexadecimalPos.Unsigned.tl d); [left; reflexivity|..];
      right; discriminate. }
  destruct Ht as [Ht|Ht].
  - rewrite Ht. reflexivity.
  - rewrite (string_rev _ Ht).
    set (s := HexadecimalString.NilEmpty.string_of_uint
                (rev (HexadecimalPos.Unsigned.tl (HexadecimalPos.Unsigned.tl d)))).
    set (c1 := digit_char
                 (HexadecimalPos.Unsigned.hd (HexadecimalPos.Unsigned.tl d))).
    set (c0 := digit_char (HexadecimalPos.Unsigned.hd d)).
    rewrite (NormalizeMore.string_app_assoc s).
    change (String c1 EmptyString ++ String c0 EmptyString)%string
      with (String c1 (String c0 EmptyString)).
    rewrite <- (NormalizeMore.string_app_assoc "0" s).
    apply last2_suffix.
Qed.

Lemma hd_small d : (HexadecimalPos.Unsigned.hd d < 16)%N.
Proof. destruct d; reflexivity. Qed.

Lemma of_lu_digits d :
  HexadecimalPos.Unsigned.hd d = (HexadecimalPos.Unsigned.of_lu d mod 16)%N
  /\ HexadecimalPos.Unsigned.of_lu (HexadecimalPos.Unsigned.tl d)
     = (HexadecimalPos.Unsigned.of_lu d / 16)%N.
Proof.
  pose proof (HexadecimalPos.Unsigned.of_lu_eqn d) as H.
  pose proof (hd_small d) as Hs.
  change 0x10%N with 16%N in H.
  set (h := HexadecimalPos.Unsigned.hd d) in *.
  set (t := HexadecimalPos.Unsigned.of_lu (HexadecimalPos.Unsigned.tl d)) in *.
  set (n := HexadecimalPos.Unsigned.of_lu d) in *.
  clearbody h t n. subst n.
  split.
  - apply (N.mod_unique _ 16 t h Hs). lia.
  - apply (N.div_unique _ 16 t h Hs). lia.
Qed.

(** [pad] of a positive integer: its two lowest hexadecimal digits. *)
Lemma pad_pos p :
  pad (Zpos p)
  = String (digit_char ((Npos p / 16) mod 16)) 
      (String (digit_char (Npos p mod 16)) EmptyString).
Proof.
  unfold pad, toString16.
  change (N.to_hex_uint (Npos p)) with (Pos.to_hex_uint p).
  pose proof (HexadecimalPos.Unsigned.to_uint_nonnil p) as Hnn.
  unfold HexadecimalString.NilZero.string_of_uint.
  destruct (Pos.to_hex_uint p) eqn:Hu; try contradiction;
    rewrite <- Hu; clear Hu Hnn;
    unfold Pos.to_hex_uint;
    set (lu := Pos.to_little_hex_uint p);
    assert (Hv : HexadecimalPos.Unsigned.of_lu lu = Npos p)
      by (rewrite <- HexadecimalPos.Unsigned.of_lu_rev;
          apply HexadecimalPos.Unsigned.of_to);
    assert (Hne : lu <> Nil) by (intros E; rewrite E in Hv; discriminate Hv);
    rewrite (last2_rev lu Hne);
    destruct (of_lu_digits lu) as [Hh Ht];
    destruct (of_lu_digits (HexadecimalPos.Unsigned.tl lu)) as [Hh2 _];
    rewrite Hh, Hh2, Ht, Hv; reflexivity.
Qed.

Lemma pad_nonneg n : (0 <= n)%Z -> pad n = hex2 (n mod 256).
Proof.
  intros Hn. destruct n as [|p|p]; [reflexivity| |lia].
  rewrite pad_pos. unfold hex2, digit_char.
  rewrite N2Z.inj_mod, N2Z.inj_div, N2Z.inj_mod. cbn [Z.of_N].
  change (Z.of_N 16) with 16%Z.
  assert (H1 : ((Z.pos p / 16) mod 16 = (Z.pos p mod 256) / 16)%Z).
  { Z.div_mod_to_equations. lia. }
  assert (H2 : (Z.pos p mod 16 = (Z.pos p mod 256) mod 16)%Z).
  { Z.div_mod_to_equations. lia. }
  rewrite H1, H2. reflexivity.
Qed.

Lemma math_round_nonneg (x : Q) : (0 <= x)%Q -> (0 <= math_round (x * 255))%Z.
Proof.
  intros H. unfold math_round.
  apply (Z.le_trans _ (Qfloor (1 # 2))); [discriminate|].
  apply Qfloor_resp_le. lra.
Qed.

(** A whole number and a half rounds down to the whole number. *)
Lemma Qfloor_half (n : Z) : Qfloor (inject_Z n + (1 # 2)) = n.
Proof.
  pose proof (Qfloor_le (inject_Z n + (1 # 2))) as H1.
  pose proof (Qlt_floor (inject_Z n + (1 # 2))) as H2.
  rewrite inject_Z_plus in H2. change (inject_Z 1) with 1%Q in H2.
  assert (H3 : (inject_Z (Qfloor (inject_Z n + (1 # 2))) < inject_Z (n + 1))%Q).
  { rewrite inject_Z_plus. change (inject_Z 1) with 1%Q. lra. }
  assert (H4 : (inject_Z n < inject_Z (Qfloor (inject_Z n + (1 # 2)) + 1))%Q).
  { rewrite inject_Z_plus. change (inject_Z 1) with 1%Q. lra. }
  rewrite <- Zlt_Qlt in H3, H4. lia.
Qed.

(** A whole-number channel times 255 is a whole number, and rounds to
    itself. *)
Lemma math_round_whole (k : Z) : math_round (inject_Z k * 255) = (255 * k)%Z.
Proof.
  unfold math_round.
  assert (H : (inject_Z k * 255 + (1 # 2) == inject_Z (255 * k) + (1 # 2))%Q).
  { rewrite inject_Z_mult. change (inject_Z 255) with 255%Q. ring. }
  rewrite (Qfloor_comp _ _ H). apply Qfloor_half.
Qed.

End HexWrap.

(** X29 (rgbaToHex, code.ts 44-51).  Channels are not clamped.  For red,
    green and blue that are whole numbers from 0 to 2^45 (255 times the
    channel is then a whole number below 2^53, which the arithmetic of the
    code computes exactly) and an alpha of at least 1, each pair of the hex
    string spells 255 times the channel modulo 256, because [pad] keeps
    the last two hexadecimal digits.  A channel of 2, say, comes out as
    "fe". *)
Theorem rgbaToHex_channels_wrap (r g b : Z) (a : Q) :
  (0 <= r <= 2 ^ 45)%Z -> (0 <= g <= 2 ^ 45)%Z -> (0 <= b <= 2 ^ 45)%Z ->
  (1 <= a)%Q ->
  rgbaToHex (inject_Z r) (inject_Z g) (inject_Z b) a
  = ("#" ++ hex2 ((255 * r) mod 256)
         ++ hex2 ((255 * g) mod 256)
         ++ hex2 ((255 * b) mod 256))%string.
Proof.
  intros Hr Hg Hb Ha.
  rewrite HexFacts.rgbaToHex_opaque_eq by exact Ha.
  rewrite !HexWrap.math_round_whole.
  rewrite !HexWrap.pad_nonneg by lia.
  reflexivity.
Qed.

Lemma rgbaToHex_channels_wrap_witness :
  rgbaToHex 2 0 1 1 = "#fe00ff".
Proof.
  change (rgbaToHex (inject_Z 2) (inject_Z 0) (inject_Z 1) 1 = "#fe00ff").
  rewrite (rgbaToHex_channels_wrap 2 0 1 1);
    [reflexivity|lia|lia|lia|discriminate].
Defined.

(** * Cycles of any length *)

Module WalkFacts.

Lemma walk_cycle raw bucket m c :
  is_Some (Obj.get c (bucket_get raw bucket)) ->
  forall rest p st,
    walk raw bucket m p (rest ++ [c]) ->
    NoDup (p :: rest) ->
    (forall t, t ∈ p :: rest -> pathKey bucket t m ∉ visited st) ->
    pathKey bucket c m ∈ visited st \/ c ∈ p :: rest ->
    resolveRef p m raw bucket st
    = (None,
       mkRState (visited st) (chain st)
         (errors st ++
          [mkResolutionError c m "cycle" (chain st ++ p :: rest ++ [c])])).
Proof.
  intros [ec Hc]. induction rest as [|q rest IH]; intros p st Hw Hnd Hvis Hin.
  - cbn [app walk] in Hw. destruct Hw as [(entry & Hp & Hv) _].
    assert (Hpv : pathKey bucket p m ∉ visited st).
    { apply Hvis. apply list_elem_of_singleton. reflexivity. }
    rewrite ResolverMore.resolveRef_unfold. cbn zeta.
    rewrite decide_False by exact Hpv. rewrite Hp, Hv, Hc.
    rewrite ResolverMore.resolveRef_unfold. cbn zeta.
    cbn [visited chain errors]. rewrite decide_True.
    2:{ destruct Hin as [Hin|Hin]; [set_solver|].
        apply list_elem_of_singleton in Hin as ->. set_solver. }
    unfold push_error. cbn [fst snd visited chain errors].
    rewrite ResolveFacts.unwind_marked by exact Hpv.
    rewrite <- app_assoc. reflexivity.
  - cbn [app walk] in Hw. destruct Hw as [(entry & Hp & Hv) Hw].
    assert (Hpv : pathKey bucket p m ∉ visited st).
    { apply Hvis. apply elem_of_cons. left. reflexivity. }
    assert (Hq : is_Some (Obj.get q (bucket_get raw bucket))).
    { destruct rest as [|r rest']; cbn [app walk] in Hw;
        destruct Hw as [(eq & Hq & _) _]; eauto. }
    destruct Hq as [eq Hq].
    apply NoDup_cons in Hnd as [Hpn Hnd].
    rewrite ResolverMore.resolveRef_unfold. cbn zeta.
    rewrite decide_False by exact Hpv. rewrite Hp, Hv, Hq.
    rewrite (IH q _ Hw Hnd).
    + cbn [fst snd visited chain errors].
      rewrite ResolveFacts.unwind_marked by exact Hpv.
      rewrite <- app_assoc. reflexivity.
    + intros t Ht. cbn [visited]. intros Hk.
      apply elem_of_union in Hk as [Hk|Hk].
      * apply elem_of_singleton in Hk. apply ResolveFacts.pathKey_inj in Hk.
        subst t. contradiction.
      * apply (Hvis t); [apply elem_of_cons; right; exact Ht|exact Hk].
    + cbn [visited]. destruct Hin as [Hin|Hin]; [left; set_solver|].
      apply elem_of_cons in Hin as [->|Hin]; [left; set_solver|right; exact Hin].
Qed.

Lemma walk_present raw bucket m p rest t :
  walk raw bucket m p (rest ++ [t]) ->
  forall c, c ∈ p :: rest -> is_Some (Obj.get c (bucket_get raw bucket)).
Proof.
  revert p. induction rest as [|q rest IH]; intros p Hw c Hc.
  - apply list_elem_of_singleton in Hc as ->.
    destruct Hw as [(entry & Hp & _) _]. eauto.
  - cbn [app walk] in Hw. destruct Hw as [(entry & Hp & _) Hw].
    apply elem_of_cons in Hc as [->|Hc]; [eauto|].
    apply (IH q Hw c Hc).
Qed.

End WalkFacts.

(** X30 (resolveRef, code.ts 193-282).  Cycles of any length are detected,
    also from outside: when a walk along references for the requested mode
    starts at [p], passes distinct tokens and arrives at a token [c] it has
    already passed, resolving [p] returns null and adds exactly the error
    with reason "cycle" that names [c] and whose chain is the whole walk;
    [visited] and [chain] are returned as they were. *)
Theorem resolveRef_detects_any_cycle
    (raw : TokensRaw) (bucket : Bucket) (m p c : string) (rest : list string)
    (errs : list ResolutionError) :
  walk raw bucket m p (rest ++ [c]) ->
  NoDup (p :: rest) ->
  c ∈ p :: rest ->
  resolveRef p m raw bucket (mkRState ∅ [] errs)
  = (None,
     mkRState ∅ []
       (errs ++ [mkResolutionError c m "cycle" (p :: rest ++ [c])])).
Proof.
  intros Hw Hnd Hc.
  apply (WalkFacts.walk_cycle raw bucket m c
           (WalkFacts.walk_present raw bucket m p rest c Hw c Hc)
           rest p (mkRState ∅ [] errs) Hw Hnd).
  - intros t _. cbn. set_solver.
  - right. exact Hc.
Qed.

Lemma resolveRef_detects_any_cycle_witness :
  resolveRef "top" "Light" lasso_table color (mkRState ∅ [] [])
  = (None,
     mkRState ∅ []
       [mkResolutionError "a" "Light" "cycle" ["top"; "a"; "b"; "a"]]).
Proof.
  apply (resolveRef_detects_any_cycle lasso_table color "Light" "top" "a"
           ["a"; "b"] []).
  - cbn [app walk]. repeat split; eexists; split; reflexivity.
  - repeat constructor; set_solver.
  - list_member.
Defined.
